(** * CircuitSeeker.align: block partitioning, failure guards and stitching

    A shallow embedding of the orchestration code of
    [CircuitSeeker/align.py]: the block geometry of
    [distributed_piecewise_affine_align], the candidate loop of
    [random_affine_search], the guards of [affine_align], the level loop of
    [distributed_twist_align] and the sampling and stitching of
    [distributed_piecewise_exhaustive_translation].

    Conventions.
    - Python integers are [Z]; [%] is floor-modulo, which is [Z.modulo].
    - numpy's [int16] is [Z] with the wrap-around written out ([cast_int16]).
    - Floating point values that only flow through the code (metric values,
      matrix entries, the weights of the stitching ramp) are rationals [Q].
      Where a rounding decides what comes back it is modelled bit-exactly
      by [fl_round]: the float32 block size and its double quotient, the
      double product behind the overlaps, the double quotient and product
      of [skip_sample], and the float32 field the translations are added
      into.
    - SimpleITK, dask, scipy and the sibling modules of the package are
      oracles: variables of a [Section] or fields of a class, with every
      call to the registration method recorded in a trace, next to what is
      printed. *)

From Stdlib Require Import String ZArith QArith Qround Qpower List Bool Lia.
From Stdlib Require Import Permutation Sorted Qabs.
Import ListNotations.

Local Open Scope Z_scope.

(** ** Results of code that may raise *)

Inductive exn : Type :=
| ValueError        (* numpy: operands could not be broadcast together *)
| TypeError         (* utility.numpy_to_sitk: big endian array *)
| IndexError
| ITKException.      (* anything the registration method raises *)

Inductive result (A : Type) : Type :=
| Ok (a : A)
| Raise (e : exn).
Arguments Ok {A} a.
Arguments Raise {A} e.

Definition vec3 (A : Type) : Type := (A * A * A)%type.

Definition vmap {A B} (f : A -> B) (v : vec3 A) : vec3 B :=
  let '(a, b, c) := v in (f a, f b, f c).

Definition vzip {A B C} (f : A -> B -> C) (u : vec3 A) (v : vec3 B) : vec3 C :=
  let '(a, b, c) := u in let '(x, y, z) := v in (f a x, f b y, f c z).

(** ** Numeric primitives of numpy *)

Module Numpy.

(** Nearest integer to [p/q] for [0 < q], ties to even. *)
Definition round_half_even (p q : Z) : Z :=
  let f := p / q in
  let r := p mod q in
  if 2 * r <? q then f
  else if q <? 2 * r then f + 1
  else if Z.even f then f else f + 1.

(** [np.round] on a float that holds the rational [x]. *)
Definition np_round (x : Q) : Z :=
  round_half_even (Qnum x) (Z.pos (Qden x)).

(** [np.ceil]. *)
Definition np_ceil (x : Q) : Z := Qceiling x.

(** The binary exponent of the positive rational [a / q]: the [e] with
    [2 ^ e <= a / q < 2 ^ (e + 1)]. *)
Definition binary_exponent (a q : Z) : Z :=
  let e0 := Z.log2 a - Z.log2 q in
  if a * 2 ^ Z.max 0 (- e0) <? q * 2 ^ Z.max 0 e0 then e0 - 1 else e0.

(** Rounding of a rational to the nearest binary floating point number with
    [prec] bits of mantissa, ties to even (24 bits for float32, 53 for
    float64).  The exponent range is not modelled: every value the code
    rounds is far from overflow and underflow. *)
Definition fl_round (prec : Z) (x : Q) : Q :=
  let p := Qnum x in
  let q := Z.pos (Qden x) in
  if p =? 0 then 0%Q
  else
    let a := Z.abs p in
    let e := binary_exponent a q in
    (* weight of the last mantissa bit *)
    let s := e - prec + 1 in
    let m := round_half_even (a * 2 ^ Z.max 0 (- s)) (q * 2 ^ Z.max 0 s) in
    (inject_Z (Z.sgn p * m) * Qpower 2 s)%Q.

Definition float32 (x : Q) : Q := fl_round 24 x.
Definition float64 (x : Q) : Q := fl_round 53 x.

(** [astype(np.int16)] of an integral value: the conversion goes through a
    32 bit integer and keeps the low 16 bits, two's complement.  (Beyond
    the 32 bit range the C cast is undefined; no statement below leaves
    that range.) *)
Definition cast_int16 (z : Z) : Z :=
  (z + 32768) mod 65536 - 32768.

(** Integer remainder as numpy computes it: sign of the divisor, and [0]
    (with a warning) for a zero divisor. *)
Definition np_mod (x y : Z) : Z :=
  if y =? 0 then 0 else x mod y.

(** Shapes of two one-dimensional operands under numpy broadcasting. *)
Definition broadcast2 {A B} (xs : list A) (ys : list B)
  : result (list (A * B)) :=
  if Nat.eqb (length xs) (length ys) then Ok (combine xs ys)
  else match xs, ys with
       | _, [y] => Ok (map (fun x => (x, y)) xs)
       | [x], _ => Ok (map (fun y => (x, y)) ys)
       | _, _ => Raise ValueError
       end.

End Numpy.

(** ** 4x4 homogeneous matrices *)

Module Mat.

Local Open Scope Q_scope.

(** Row-major, as a numpy array of shape (4, 4). *)
Definition mat : Type := list (list Q).

Definition eye (n : nat) : mat :=
  map (fun i => map (fun j => if Nat.eqb i j then 1 else 0) (seq 0 n))
      (seq 0 n).

Definition ncols (m : mat) : nat :=
  match m with
  | [] => 0%nat
  | r :: _ => length r
  end.

Definition col (m : mat) (j : nat) : list Q := map (fun r => nth j r 0) m.

Definition dot (u v : list Q) : Q :=
  fold_right (fun ab acc => fst ab * snd ab + acc) 0 (combine u v).

(** [np.matmul]. *)
Definition matmul (a b : mat) : mat :=
  map (fun r => map (fun j => dot r (col b j)) (seq 0 (ncols b))) a.

Definition set_last (r : list Q) (v : Q) : list Q := removelast r ++ [v].

(** [m[:3, -1] = t]. *)
Definition set_translation (m : mat) (t : vec3 Q) : mat :=
  let '(t0, t1, t2) := t in
  match m with
  | r0 :: r1 :: r2 :: rest =>
      set_last r0 t0 :: set_last r1 t1 :: set_last r2 t2 :: rest
  | _ => m
  end.

(** The translation matrix [T = eye(4); T[:3, -1] = t]. *)
Definition translation (t : vec3 Q) : mat := set_translation (eye 4) t.

Definition vopp (t : vec3 Q) : vec3 Q := vmap Qopp t.

Definition set_nth {A} (l : list A) (i : nat) (v : A) : list A :=
  firstn i l ++
  match skipn i l with
  | [] => []
  | _ :: tl => v :: tl
  end.

(** [m[i, j] = v]. *)
Definition set_entry (m : mat) (i j : nat) (v : Q) : mat :=
  match nth_error m i with
  | Some r => set_nth m i (set_nth r j v)
  | None => m
  end.

(** [m[:3, :3] = r] for a 3x3 [r]. *)
Definition set_block3 (m r : mat) : mat :=
  map (fun ab =>
         match snd ab with
         | Some row3 => row3 ++ skipn 3 (fst ab)
         | None => fst ab
         end)
      (combine m (map Some (firstn 3 r) ++ repeat None (length m - 3))).

(** [np.diag]. *)
Definition diag (d : list Q) : mat :=
  map (fun i => map (fun j => if Nat.eqb i j then nth i d 0 else 0)
                    (seq 0 (length d)))
      (seq 0 (length d)).

Definition Qltb (x y : Q) : bool := negb (Qle_bool y x).

Fixpoint list_eqb {A} (eqb : A -> A -> bool) (u v : list A) : bool :=
  match u, v with
  | [], [] => true
  | a :: u', b :: v' => eqb a b && list_eqb eqb u' v'
  | _, _ => false
  end.

(** [np.all(a == b)] for arrays of one shape. *)
Definition mat_eqb (a b : mat) : bool := list_eqb (list_eqb Qeq_bool) a b.

(** Entrywise equality of rationals. *)
Definition mat_eq (a b : mat) : Prop := Forall2 (Forall2 Qeq) a b.

Definition is_4x4 (a : mat) : Prop :=
  length a = 4%nat /\ Forall (fun r => length r = 4%nat) a.

End Mat.

(** ** distributed_piecewise_affine_align: block geometry and dispatch *)

Module Partition.

Import Numpy Mat.

(** [np.ceil(np.array(fix.shape).astype(np.float32) / nblocks)
       .astype(np.int16)], one axis.  The shape is rounded to single
    precision; dividing by the integer tuple promotes to double. *)
Definition blocksize_axis (x n : Z) : Z :=
  cast_int16 (np_ceil (float64 (float32 (inject_Z x) / inject_Z n))).

(** [np.round(blocksize * overlap).astype(np.int16)], one axis.  The
    int16 block size times the Python float [overlap] is a double, and it is
    the double that is rounded. *)
Definition overlap_axis (b : Z) (overlap : Q) : Z :=
  cast_int16 (np_round (float64 (inject_Z b * overlap))).

(** [(0, y - x % y) if x % y > 0 else (0, 0)]. *)
Definition pad_axis (x y : Z) : Z * Z :=
  if 0 <? np_mod x y then (0, y - np_mod x y) else (0, 0).

Record geometry : Type := {
  blocksize : list Z;
  overlaps : list Z;
  pads : list (Z * Z)
}.

(** Lines 738-745.  The only place [nblocks] is read is the broadcast
    division. *)
Definition block_geometry (shape nblocks : list Z) (overlap : Q)
  : result geometry :=
  match broadcast2 shape nblocks with
  | Raise e => Raise e
  | Ok sn =>
      let bs := map (fun xn => blocksize_axis (fst xn) (snd xn)) sn in
      Ok {| blocksize := bs;
            overlaps := map (fun b => overlap_axis b overlap) bs;
            pads := map (fun xy => pad_axis (fst xy) (snd xy))
                        (combine shape bs) |}
  end.

(** Shape of [np.pad(fix, pads)]. *)
Definition padded_shape (shape : list Z) (p : list (Z * Z)) : list Z :=
  map (fun xp => fst (snd xp) + fst xp + snd (snd xp)) (combine shape p).

(** The padded shape is a whole number of blocks on every axis. *)
Definition exact_blocks (padded bs : list Z) : Prop :=
  Forall2 (fun x y => (y | x)) padded bs.

(** Physical origin of the block at grid index [idx] (lines 797-799). *)
Definition block_origin (bs ov idx : vec3 Z) (fix_spacing : vec3 Q) : vec3 Q :=
  let voxel := vzip (fun p o => Z.max 0 (p - o)) (vzip Z.mul bs idx) ov in
  vzip (fun v s => (inject_Z v * s)%Q) voxel fix_spacing.

(** Lines 800-802: [tl @ (affine @ tr)]. *)
Definition correct_for_origin (affine : mat) (origin : vec3 Q) : mat :=
  let tl := set_translation (eye 4) origin in
  let tr := set_translation (eye 4) (vopp origin) in
  matmul tl (matmul affine tr).

Section Dispatch.

(** Arrays and the collaborators of the function: dask's halo blocks, the
    pairwise aligner and dask_stitch. *)
Context {image field kwargs : Type}.
(** ([fix] is a keyword here: the images are [fix_im] and [mov_im].) *)
Variable shape_of : image -> list Z.
Variable np_pad : image -> list (Z * Z) -> image.
(** The blocks [da.map_overlap(..., depth=overlaps, boundary='none',
    trim=False)] hands to the callback, with their chunk locations. *)
Variable halo_blocks : image -> list Z -> list Z -> list (vec3 Z * image).
(** [affine_align(fix, mov, fix_spacing, mov_spacing, fix_mask, mov_mask,
    rigid, initial_transform, **kwargs)]. *)
Variable affine_align :
  image -> image -> vec3 Q -> vec3 Q -> option image -> option image ->
  bool -> option mat -> kwargs -> mat.
Variable local_affines_to_field :
  list Z -> vec3 Q -> list (vec3 Z * mat) -> list Z -> list Z -> field.

Variables fix_spacing mov_spacing : vec3 Q.
Variable kw : kwargs.

(** The matrix the second [affine_align] call of the closure returns. *)
Definition local_affine (fix_im mov_im : image) (fm mm : option image) : mat :=
  let rigid :=
    affine_align fix_im mov_im fix_spacing mov_spacing fm mm true None kw in
  affine_align fix_im mov_im fix_spacing mov_spacing fm mm false (Some rigid) kw.

(** The closure [single_affine_align]; [bs] and [ov] are the captured
    [blocksize] and [overlaps], [idx] is
    [block_info[0]['chunk-location']]. *)
Definition single_affine_align (bs ov : vec3 Z)
  (fix_im mov_im : image) (fm mm : option image) (idx : vec3 Z) : mat :=
  let affine := local_affine fix_im mov_im fm mm in
  let origin := block_origin bs ov idx fix_spacing in
  correct_for_origin affine origin.

Definition as_vec3 (l : list Z) : vec3 Z :=
  (nth 0 l 0, nth 1 l 0, nth 2 l 0).

Definition block_at (blocks : list (vec3 Z * image)) (i : nat)
  : option image :=
  option_map snd (nth_error blocks i).

(** The whole function: geometry, padding, one closure call per block,
    stitching.  Returns [(affines, field)]. *)
Definition distributed_piecewise_affine_align
  (fix_im mov_im : image) (nblocks : list Z) (overlap : Q)
  (fix_mask mov_mask : option image)
  : result (list (vec3 Z * mat) * field) :=
  match block_geometry (shape_of fix_im) nblocks overlap with
  | Raise e => Raise e
  | Ok g =>
      let chunk im := halo_blocks (np_pad im (pads g)) (blocksize g) (overlaps g) in
      let fix_da := chunk fix_im in
      let mov_da := chunk mov_im in
      let fm_da := option_map chunk fix_mask in
      let mm_da := option_map chunk mov_mask in
      (* the masks are appended to the positional arguments: a moving
         mask given without a fixed mask arrives as [fm] *)
      let first_mask := match fm_da with
                        | Some _ => fm_da
                        | None => mm_da
                        end in
      let second_mask := match fm_da with
                         | Some _ => mm_da
                         | None => None
                         end in
      let mask_at (m : option (list (vec3 Z * image))) (i : nat) :=
        match m with
        | Some blocks => block_at blocks i
        | None => None
        end in
      let affines :=
        map (fun ib =>
               let i := fst ib in
               let idx := fst (fst (snd ib)) in
               (idx,
                single_affine_align (as_vec3 (blocksize g)) (as_vec3 (overlaps g))
                  (snd (fst (snd ib))) (snd (snd (snd ib)))
                  (mask_at first_mask i) (mask_at second_mask i) idx))
            (combine (seq 0 (length fix_da)) (combine fix_da mov_da)) in
      Ok (affines,
          local_affines_to_field (shape_of fix_im) fix_spacing affines
            (blocksize g) (overlaps g))
  end.

End Dispatch.

End Partition.

(** ** Effects: what a call prints and which registration calls it makes *)

Inductive event : Type :=
| Printed (msg : string)                 (* print(msg) *)
| PrintedValue (msg : string) (v : Q)    (* print(msg.format(v)) *)
| MetricEvaluated                        (* irm.MetricEvaluate(fix, mov) *)
| Executed.                              (* irm.Execute(fix, mov) *)

Definition traced (A : Type) : Type := (A * list event)%type.

Definition ret {A} (a : A) : traced A := (a, []).

Definition bind {A B} (m : traced A) (k : A -> traced B) : traced B :=
  let (b, t') := k (fst m) in (b, snd m ++ t').

Definition emit (e : event) : traced unit := (tt, [e]).

Declare Scope traced_scope.
Delimit Scope traced_scope with traced.
Notation "x <- m ;; k" := (bind m (fun x => k))
  (at level 61, m at next level, right associativity) : traced_scope.
Notation "m ;; k" := (bind m (fun _ => k))
  (at level 61, right associativity) : traced_scope.

Definition is_registration_call (e : event) : bool :=
  match e with
  | MetricEvaluated | Executed => true
  | _ => false
  end.

(** Number of times the pairwise aligner (the ITK registration method) was
    run or queried. *)
Definition registration_calls (t : list event) : nat :=
  length (filter is_registration_call t).

(** ** The SimpleITK interface the code is written against *)

Class Sitk : Type := {
  image : Type;                 (* numpy array *)
  sitk_image : Type;
  transform : Type;             (* sitk.Transform *)
  kwargs : Type;
  voxels : image -> list Q;     (* flattened content *)
  shape3 : image -> vec3 Z;     (* image.shape *)
  big_endian : image -> bool;   (* str(image.dtype)[0] == '>' *)
  subsample : image -> vec3 Z -> result image;   (* image[::a, ::b, ::c] *)
  GetImageFromArray : image -> vec3 Q -> vec3 Q -> sitk_image;
  Cast_float32 : sitk_image -> sitk_image;
  Euler3DTransform : transform;
  AffineTransform3 : transform;
  matrix_to_euler_transform : Mat.mat -> result transform;
  matrix_to_affine_transform : Mat.mat -> transform;
  CenteredTransformInitializer :
    sitk_image -> sitk_image -> transform -> result transform;
  as_Euler3DTransform : transform -> transform;
  affine_transform_to_matrix : transform -> Mat.mat;
  (* the calls [configure_irm] makes on a fresh registration method: they
     change nothing this model looks at, but may raise (an unknown keyword,
     a malformed LSB_DJOB_NUMPROC) *)
  irm_setters : kwargs -> result unit
}.

(** State of an [ImageRegistrationMethod] object. *)
Record irm_state `{Sitk} : Type := {
  irm_kwargs : kwargs;
  irm_initial : option transform;          (* SetInitialTransform *)
  irm_moving_initial : option transform;   (* SetMovingInitialTransform *)
  irm_fixed_mask : option sitk_image;
  irm_moving_mask : option sitk_image
}.

(** The two methods that do numerical work.  Each may raise; [Execute]
    optimises the initial transform in place and so yields its new
    value. *)
Class Registration `{Sitk} : Type := {
  MetricEvaluate : irm_state -> sitk_image -> sitk_image -> result Q;
  Execute : irm_state -> sitk_image -> sitk_image -> result transform
}.

(** ** affine_align *)

Module AffineAlign.

Import Numpy Mat.
Local Open Scope traced_scope.

Section Defs.

Context `{Registration}.

(** [utility.skip_sample].  The quotient [ss_spacing / spacing] is a
    double, and it is the double that [np.round] sees; the new spacing
    [spacing * ss] is a double as well.  The slicing may raise.  (A zero
    spacing, for which numpy divides to [inf], and a quotient too large
    for the cast to a 64 bit integer are outside the statements below.) *)
Definition skip_sample (im : image) (spacing : vec3 Q) (ss_spacing : Q)
  : result (image * vec3 Q) :=
  let ss :=
    vmap (fun s => Z.max (np_round (float64 (ss_spacing / s))) 1) spacing in
  match subsample im ss with
  | Raise e => Raise e
  | Ok im' =>
      Ok (im', vzip (fun s k => float64 (s * inject_Z k)) spacing ss)
  end.

(** [utility.numpy_to_sitk]. *)
Definition numpy_to_sitk (im : image) (spacing : vec3 Q)
  (origin : option (vec3 Q)) : result sitk_image :=
  if big_endian im then Raise TypeError
  else
    let o := match origin with
             | Some o => o
             | None => (0%Q, 0%Q, 0%Q)
             end in
    Ok (GetImageFromArray im spacing o).

Definition nonzero (q : Q) : bool := negb (Qeq_bool q 0).

(** Modelled from the spec: [CircuitSeeker.quality] is not among the
    sources.  The Jaccard index is the intersection-over-union similarity
    between two binary masks. *)
Definition jaccard_index (a b : image) : Q :=
  let pairs := combine (map nonzero (voxels a)) (map nonzero (voxels b)) in
  let inter := List.length (filter (fun p => fst p && snd p) pairs) in
  let union := List.length (filter (fun p => fst p || snd p) pairs) in
  (inject_Z (Z.of_nat inter) / inject_Z (Z.of_nat union))%Q.

(** Modelled from the spec: [quality.jaccard_filter] is not among the
    sources.  The check passes unless the index is below the threshold. *)
Definition jaccard_filter (a b : image) (threshold : Q) : bool :=
  negb (Qltb (jaccard_index a b) threshold).

(** Lines 533-537: [a and b and c] and the filter says no. *)
Definition masks_fail_jaccard (jaccard_filter_threshold : option Q)
  (fix_mask mov_mask : option image) : bool :=
  match jaccard_filter_threshold, fix_mask, mov_mask with
  | Some t, Some fm, Some mm => negb (jaccard_filter fm mm t)
  | _, _, _ => false
  end.

(** Lines 529-530. *)
Definition update_default (initial_transform : option mat) (default : mat)
  : mat :=
  match initial_transform with
  | Some it => if mat_eqb default (eye 4) then it else default
  | None => default
  end.

(** [sitk.ImageRegistrationMethod()], remembering the keyword arguments
    it is configured with. *)
Definition new_irm (kw : kwargs) : irm_state :=
  {| irm_kwargs := kw;
     irm_initial := None;
     irm_moving_initial := None;
     irm_fixed_mask := None;
     irm_moving_mask := None |}.

(** [configure_irm] with the keyword arguments [kw]: a fresh registration
    method, unless one of its setters raises. *)
Definition configure_irm (kw : kwargs) : result irm_state :=
  match irm_setters kw with
  | Raise e => Raise e
  | Ok _ => Ok (new_irm kw)
  end.

Definition set_initial (irm : irm_state) (t : transform) : irm_state :=
  {| irm_kwargs := irm_kwargs irm;
     irm_initial := Some t;
     irm_moving_initial := irm_moving_initial irm;
     irm_fixed_mask := irm_fixed_mask irm;
     irm_moving_mask := irm_moving_mask irm |}.

Definition set_moving_initial (irm : irm_state) (t : transform) : irm_state :=
  {| irm_kwargs := irm_kwargs irm;
     irm_initial := irm_initial irm;
     irm_moving_initial := Some t;
     irm_fixed_mask := irm_fixed_mask irm;
     irm_moving_mask := irm_moving_mask irm |}.

Definition set_masks (irm : irm_state) (fm mm : option sitk_image)
  : irm_state :=
  {| irm_kwargs := irm_kwargs irm;
     irm_initial := irm_initial irm;
     irm_moving_initial := irm_moving_initial irm;
     irm_fixed_mask := fm;
     irm_moving_mask := mm |}.

(** The images after the optional skip sampling (lines 543-551, and the
    same lines of [random_affine_search]). *)
Record sampled : Type := {
  s_fix : image;
  s_mov : image;
  s_fix_mask : option image;
  s_mov_mask : option image;
  s_fix_spacing : vec3 Q;
  s_mov_spacing : vec3 Q
}.

(** [mask, _ = ut.skip_sample(mask, spacing, alignment_spacing)] for a
    mask that may be absent. *)
Definition skip_sample_mask (mask : option image) (spacing : vec3 Q)
  (ss_spacing : Q) : result (option image) :=
  match mask with
  | None => Ok None
  | Some m =>
      match skip_sample m spacing ss_spacing with
      | Raise e => Raise e
      | Ok ms => Ok (Some (fst ms))
      end
  end.

Definition skip_sample_all (fix_im mov_im : image)
  (fix_spacing mov_spacing : vec3 Q) (alignment_spacing : option Q)
  (fix_mask mov_mask : option image) : result sampled :=
  match alignment_spacing with
  | Some a =>
      match skip_sample fix_im fix_spacing a with
      | Raise e => Raise e
      | Ok f =>
      match skip_sample mov_im mov_spacing a with
      | Raise e => Raise e
      | Ok m =>
      match skip_sample_mask fix_mask fix_spacing a with
      | Raise e => Raise e
      | Ok fm =>
      match skip_sample_mask mov_mask mov_spacing a with
      | Raise e => Raise e
      | Ok mm =>
          Ok {| s_fix := fst f; s_mov := fst m;
                s_fix_mask := fm; s_mov_mask := mm;
                s_fix_spacing := snd f; s_mov_spacing := snd m |}
      end
      end
      end
      end
  | None =>
      Ok {| s_fix := fix_im; s_mov := mov_im;
            s_fix_mask := fix_mask; s_mov_mask := mov_mask;
            s_fix_spacing := fix_spacing; s_mov_spacing := mov_spacing |}
  end.

(** [numpy_to_sitk] of an optional mask. *)
Definition mask_to_sitk (m : option image) (spacing : vec3 Q)
  (origin : option (vec3 Q)) : result (option sitk_image) :=
  match m with
  | None => Ok None
  | Some im =>
      match numpy_to_sitk im spacing origin with
      | Ok x => Ok (Some x)
      | Raise e => Raise e
      end
  end.

(** Everything the registration step needs, ready to run. *)
Record prepared : Type := {
  p_fix : sitk_image;
  p_mov : sitk_image;
  p_irm : irm_state;
  p_transform : transform
}.

(** Lines 562-576: the initial transform.  [matrix_to_euler_transform]
    (ITK refuses a matrix that is not a rotation) and the centering may
    raise. *)
Definition select_transform (rigid : bool) (initial_transform : option mat)
  (initialize_with_centering : bool) (f m : sitk_image) : result transform :=
  let selected :=
    match rigid, initial_transform with
    | true, None => Ok Euler3DTransform
    | true, Some it => matrix_to_euler_transform it
    | false, None => Ok AffineTransform3
    | false, Some it => Ok (matrix_to_affine_transform it)
    end in
  match selected with
  | Raise e => Raise e
  | Ok t =>
      match initial_transform with
      | None => if initialize_with_centering
                then CenteredTransformInitializer f m t else Ok t
      | Some _ => Ok t
      end
  end.

(** Lines 542-587, none of which is inside the [try]: the skip sampling,
    the conversions, [configure_irm], the choice of the transform and the
    conversion of the masks, in this order; the first exception ends the
    call. *)
Definition prepare (fix_im mov_im : image) (fix_spacing mov_spacing : vec3 Q)
  (rigid : bool) (initial_transform : option mat)
  (initialize_with_centering : bool) (alignment_spacing : option Q)
  (fix_mask mov_mask : option image) (fix_origin mov_origin : option (vec3 Q))
  (kw : kwargs) : result prepared :=
  match skip_sample_all fix_im mov_im fix_spacing mov_spacing
          alignment_spacing fix_mask mov_mask with
  | Raise e => Raise e
  | Ok s =>
  match numpy_to_sitk (s_fix s) (s_fix_spacing s) fix_origin with
  | Raise e => Raise e
  | Ok f0 =>
  match numpy_to_sitk (s_mov s) (s_mov_spacing s) mov_origin with
  | Raise e => Raise e
  | Ok m0 =>
      let f := Cast_float32 f0 in
      let m := Cast_float32 m0 in
      match configure_irm kw with
      | Raise e => Raise e
      | Ok irm0 =>
      match select_transform rigid initial_transform
              initialize_with_centering f m with
      | Raise e => Raise e
      | Ok t =>
      let irm := set_initial irm0 t in
      match mask_to_sitk (s_fix_mask s) (s_fix_spacing s) fix_origin with
      | Raise e => Raise e
      | Ok fm =>
      match mask_to_sitk (s_mov_mask s) (s_mov_spacing s) mov_origin with
      | Raise e => Raise e
      | Ok mm =>
          Ok {| p_fix := f; p_mov := m;
                p_irm := set_masks irm fm mm;
                p_transform := t |}
      end
      end
      end
      end
  end
  end
  end.

Definition metric_evaluate (irm : irm_state) (f m : sitk_image)
  : traced (result Q) :=
  emit MetricEvaluated ;; ret (MetricEvaluate irm f m).

Definition execute (irm : irm_state) (f m : sitk_image)
  : traced (result transform) :=
  emit Executed ;; ret (Execute irm f m).

Definition registration_failed (default : mat) : traced (result mat) :=
  emit (Printed "Registration failed due to ITK exception:") ;;
  emit (Printed "Returning default") ;;
  ret (Ok default).

(** Lines 589-615: the guarded optimisation and the improvement gate. *)
Definition optimize (default : mat) (rigid initialize_with_centering : bool)
  (p : prepared) : traced (result mat) :=
  r0 <- metric_evaluate (p_irm p) (p_fix p) (p_mov p) ;;
  match r0 with
  | Raise _ => registration_failed default
  | Ok initial_metric_value =>
      r1 <- execute (p_irm p) (p_fix p) (p_mov p) ;;
      match r1 with
      | Raise _ => registration_failed default
      | Ok optimized =>
          r2 <- metric_evaluate (set_initial (p_irm p) optimized)
                  (p_fix p) (p_mov p) ;;
          match r2 with
          | Raise _ => registration_failed default
          | Ok final_metric_value =>
              let t := if rigid && initialize_with_centering
                       then as_Euler3DTransform optimized else optimized in
              if Qltb final_metric_value initial_metric_value
              then ret (Ok (affine_transform_to_matrix t))
              else
                emit (Printed "Optimization failed to improve metric") ;;
                emit (PrintedValue "initial value: " initial_metric_value) ;;
                emit (PrintedValue "final value: " final_metric_value) ;;
                emit (Printed "Returning default") ;;
                ret (Ok default)
          end
      end
  end.

Definition affine_align (fix_im mov_im : image)
  (fix_spacing mov_spacing : vec3 Q)
  (rigid : bool) (initial_transform : option mat)
  (initialize_with_centering : bool) (alignment_spacing : option Q)
  (fix_mask mov_mask : option image) (fix_origin mov_origin : option (vec3 Q))
  (jaccard_filter_threshold : option Q) (default : mat) (kw : kwargs)
  : traced (result mat) :=
  let default := update_default initial_transform default in
  if masks_fail_jaccard jaccard_filter_threshold fix_mask mov_mask
  then
    emit (Printed "Masks failed jaccard_filter") ;;
    emit (Printed "Returning default") ;;
    ret (Ok default)
  else
    match prepare fix_im mov_im fix_spacing mov_spacing rigid
            initial_transform initialize_with_centering alignment_spacing
            fix_mask mov_mask fix_origin mov_origin kw with
    | Raise e => ret (Raise e)
    | Ok p => optimize default rigid initialize_with_centering p
    end.

End Defs.

End AffineAlign.

(** ** random_affine_search *)

(** numpy's random generator, [np.log], [np.e**x] and scipy's
    [Rotation.from_rotvec(v).as_matrix()]. *)
Class Numerics : Type := {
  rand : nat -> nat -> list Q;   (* row [i] of the [k]-th [np.random.rand(n, 3)] *)
  np_log : Q -> Q;
  np_exp : Q -> Q;
  rotvec_as_matrix : list Q -> Mat.mat
}.

Module RandomSearch.

Import Numpy Mat AffineAlign.
Local Open Scope traced_scope.

(** [np.finfo(np.float64).max]. *)
Definition float64_max : Q := inject_Z ((2 ^ 53 - 1) * 2 ^ 971).

(** The first row of [params]: no translation, no rotation, unit scale, no
    shear. *)
Definition identity_params : list Q :=
  [0; 0; 0; 0; 0; 0; 1; 1; 1; 0; 0; 0]%Q.

Definition vec3_of (l : list Q) : vec3 Q :=
  (nth 0 l 0%Q, nth 1 l 0%Q, nth 2 l 0%Q).

Section Defs.

Context `{Registration} `{Numerics}.

(** [F = lambda mx: 2 * mx * np.random.rand(random_iterations, 3) - mx],
    row [i] of the [k]-th draw. *)
Definition F (k : nat) (mx : Q) (i : nat) : list Q :=
  map (fun u => (2 * mx * u - mx)%Q) (rand k i).

(** Row [i + 1] of [params] after lines 345-351.  Each branch that fires
    consumes one draw of the generator. *)
Definition random_params (max_translation max_rotation max_scale max_shear : Q)
  (i : nat) : list Q :=
  let k := 0%nat in
  let t := if Qeq_bool max_translation 0 then [0; 0; 0]%Q
           else F k max_translation i in
  let k := if Qeq_bool max_translation 0 then k else S k in
  let r := if Qeq_bool max_rotation 0 then [0; 0; 0]%Q
           else F k max_rotation i in
  let k := if Qeq_bool max_rotation 0 then k else S k in
  let s := if Qeq_bool max_scale 1 then [1; 1; 1]%Q
           else map np_exp (F k (np_log max_scale) i) in
  let k := if Qeq_bool max_scale 1 then k else S k in
  let h := if Qeq_bool max_shear 0 then [0; 0; 0]%Q
           else F k max_shear i in
  t ++ r ++ s ++ h.

(** The array [params], of [random_iterations + 1] rows. *)
Definition make_params (max_translation max_rotation max_scale max_shear : Q)
  (random_iterations : nat) : list (list Q) :=
  identity_params ::
  map (random_params max_translation max_rotation max_scale max_shear)
      (seq 0 random_iterations).

(** The closure [params_to_affine_matrix]; [shape] and [fix_spacing] are
    the values of [fix.shape] and [fix_spacing] when it is called. *)
Definition params_to_affine_matrix (shape : vec3 Z) (fix_spacing : vec3 Q)
  (params : list Q) : mat :=
  let p i := nth i params 0%Q in
  let translation := set_translation (eye 4) (vec3_of (firstn 3 params)) in
  let rotation :=
    set_block3 (eye 4) (rotvec_as_matrix (firstn 3 (skipn 3 params))) in
  let center := vzip (fun n s => (inject_Z n / 2 * s)%Q) shape fix_spacing in
  let tl := set_translation (eye 4) center in
  let tr := set_translation (eye 4) (vopp center) in
  let rotation := matmul tl (matmul rotation tr) in
  let scale := diag (firstn 3 (skipn 6 params) ++ [1%Q]) in
  let shx := set_entry (set_entry (eye 4) 1 0 (p 10%nat)) 2 0 (p 11%nat) in
  let shy := set_entry (set_entry (eye 4) 0 1 (p 9%nat)) 2 1 (p 11%nat) in
  let shz := set_entry (set_entry (eye 4) 0 2 (p 9%nat)) 1 2 (p 10%nat) in
  let shear := matmul shz (matmul shy shx) in
  let aff := matmul rotation translation in
  let aff := matmul scale aff in
  matmul shear aff.

(** How the scoring loop of lines 382-396 ends. *)
Inductive loop_exit : Type :=
| Completed (scores : list Q) (irm : irm_state)
| Aborted (scores : list Q) (fail_count : nat).

(** One pass of the loop body per remaining candidate.  [total] is
    [random_iterations + 1], [iii] the index of the head of [candidates]. *)
Fixpoint score_candidates (total : nat) (shape : vec3 Z) (spacing : vec3 Q)
  (f m : sitk_image) (candidates : list (list Q)) (iii : nat)
  (irm : irm_state) (scores : list Q) (fail_count : nat)
  : traced loop_exit :=
  match candidates with
  | [] => ret (Completed scores irm)
  | ppp :: rest =>
      let aff := params_to_affine_matrix shape spacing ppp in
      let irm := set_moving_initial irm (matrix_to_affine_transform aff) in
      r <- metric_evaluate irm f m ;;
      match r with
      | Ok v =>
          score_candidates total shape spacing f m rest (S iii) irm
            (set_nth scores iii v) fail_count
      | Raise _ =>
          let scores := set_nth scores iii float64_max in
          let fail_count := S fail_count in
          if (10 <=? fail_count)%nat || (total <=? fail_count)%nat
          then
            emit (Printed "Random search failed due to ITK exception:") ;;
            emit (Printed "Returning default") ;;
            ret (Aborted scores fail_count)
          else
            score_candidates total shape spacing f m rest (S iii) irm
              scores fail_count
      end
  end.

(** Insertion of index [i] with score [s] before the first entry that does
    not score lower. *)
Fixpoint insert_scored (s : Q) (i : nat) (l : list (Q * nat))
  : list (Q * nat) :=
  match l with
  | [] => [(s, i)]
  | (s', i') :: tl =>
      if Qle_bool s s' then (s, i) :: l else (s', i') :: insert_scored s i tl
  end.

(** [np.argsort(scores)].  numpy leaves the order of equal scores open; this
    one keeps them in index order. *)
Definition argsort (scores : list Q) : list nat :=
  map snd
    (fold_right (fun si acc => insert_scored (fst si) (snd si) acc) []
       (combine scores (seq 0 (List.length scores)))).

(** [params[order]]. *)
Definition take_rows (params : list (list Q)) (order : list nat)
  : list (list Q) :=
  map (fun i => nth i params []) order.

(** [np.argmin]: the first index of a least entry. *)
Fixpoint argmin_from (best_i : nat) (best : Q) (i : nat) (l : list Q) : nat :=
  match l with
  | [] => best_i
  | x :: tl =>
      if Qltb x best then argmin_from i x (S i) tl
      else argmin_from best_i best (S i) tl
  end.

Definition argmin (l : list Q) : nat :=
  match l with
  | [] => 0%nat
  | x :: tl => argmin_from 0%nat x 1%nat tl
  end.

(** Lines 405-434: refinement of the best candidates by [affine_align]. *)
Fixpoint refine_best (best : nat) (s : sampled)
  (fix_origin mov_origin : option (vec3 Q)) (kw : kwargs)
  (shape : vec3 Z) (f m : sitk_image) (params : list (list Q))
  (todo : list nat) (irm : irm_state) (scores : list Q) (fail_count : nat)
  : traced (result mat) :=
  match todo with
  | [] => ret (Ok (params_to_affine_matrix shape (s_fix_spacing s)
                     (nth (argmin scores) params [])))
  | iii :: rest =>
      match nth_error params iii with
      | None => ret (Raise IndexError)
      | Some row =>
          let aff := params_to_affine_matrix shape (s_fix_spacing s) row in
          a <- affine_align (s_fix s) (s_mov s)
                 (s_fix_spacing s) (s_mov_spacing s)
                 false (Some aff) false None
                 (s_fix_mask s) (s_mov_mask s) fix_origin mov_origin
                 None (eye 4) kw ;;
          match a with
          | Raise e => ret (Raise e)
          | Ok refined =>
              let irm :=
                set_moving_initial irm (matrix_to_affine_transform refined) in
              r <- metric_evaluate irm f m ;;
              match r with
              | Ok v =>
                  refine_best best s fix_origin mov_origin kw shape f m
                    params rest irm (set_nth scores iii v) fail_count
              | Raise _ =>
                  let scores := set_nth scores iii float64_max in
                  let fail_count := S fail_count in
                  if (best <=? fail_count)%nat
                  then
                    emit (Printed
                            "Random search failed due to ITK exception:") ;;
                    emit (Printed "Returning default") ;;
                    ret (Ok (eye 4))
                  else
                    refine_best best s fix_origin mov_origin kw shape f m
                      params rest irm scores fail_count
              end
          end
      end
  end.

(** Lines 353-379: the registration method, the skip sampled images and
    the masks, ready for scoring.  None of these lines is inside a [try];
    the first exception ends the call. *)
Record search_ready : Type := {
  r_sampled : sampled;
  r_fix : sitk_image;
  r_mov : sitk_image;
  r_irm : irm_state
}.

Definition search_setup (fix_im mov_im : image)
  (fix_spacing mov_spacing : vec3 Q) (alignment_spacing : option Q)
  (fix_mask mov_mask : option image) (fix_origin mov_origin : option (vec3 Q))
  (kw : kwargs) : result search_ready :=
  match configure_irm kw with
  | Raise e => Raise e
  | Ok irm =>
  match skip_sample_all fix_im mov_im fix_spacing mov_spacing
          alignment_spacing fix_mask mov_mask with
  | Raise e => Raise e
  | Ok s =>
  match numpy_to_sitk (s_fix s) (s_fix_spacing s) fix_origin with
  | Raise e => Raise e
  | Ok f0 =>
  match numpy_to_sitk (s_mov s) (s_mov_spacing s) mov_origin with
  | Raise e => Raise e
  | Ok m0 =>
  match mask_to_sitk (s_fix_mask s) (s_fix_spacing s) fix_origin with
  | Raise e => Raise e
  | Ok fm =>
  match mask_to_sitk (s_mov_mask s) (s_mov_spacing s) mov_origin with
  | Raise e => Raise e
  | Ok mm =>
      Ok {| r_sampled := s;
            r_fix := Cast_float32 f0;
            r_mov := Cast_float32 m0;
            r_irm := set_masks irm fm mm |}
  end
  end
  end
  end
  end
  end.

(** The scoring loop as the function runs it: over all of [params], from
    index 0, on a freshly allocated [scores]. *)
Definition score_all (r : search_ready) (params : list (list Q))
  (random_iterations : nat) (uninit : nat -> nat -> Q) : traced loop_exit :=
  score_candidates (random_iterations + 1) (shape3 (s_fix (r_sampled r)))
    (s_fix_spacing (r_sampled r)) (r_fix r) (r_mov r) params 0 (r_irm r)
    (map (uninit 0%nat) (seq 0 (random_iterations + 1))) 0.

(** The whole function.  [uninit k] is the content [np.empty] hands out on
    its [k]-th call. *)
Definition random_affine_search (fix_im mov_im : image)
  (fix_spacing mov_spacing : vec3 Q)
  (max_translation max_rotation max_scale max_shear : Q)
  (random_iterations affine_align_best : nat)
  (alignment_spacing : option Q) (fix_mask mov_mask : option image)
  (fix_origin mov_origin : option (vec3 Q))
  (jaccard_filter_threshold : option Q) (kw : kwargs)
  (uninit : nat -> nat -> Q) : traced (result mat) :=
  if masks_fail_jaccard jaccard_filter_threshold fix_mask mov_mask
  then
    emit (Printed "Masks failed jaccard_filter") ;;
    emit (Printed "Returning default") ;;
    ret (Ok (eye 4))
  else
    let params := make_params max_translation max_rotation max_scale
                    max_shear random_iterations in
    match search_setup fix_im mov_im fix_spacing mov_spacing
            alignment_spacing fix_mask mov_mask fix_origin mov_origin kw with
    | Raise e => ret (Raise e)
    | Ok r =>
        let s := r_sampled r in
        let shape := shape3 (s_fix s) in
        e <- score_all r params random_iterations uninit ;;
        match e with
        | Aborted _ _ => ret (Ok (eye 4))
        | Completed scores irm =>
            let params := take_rows params (argsort scores) in
            if Nat.eqb affine_align_best 0
            then ret (Ok (params_to_affine_matrix shape (s_fix_spacing s)
                            (nth 0 params [])))
            else
              refine_best affine_align_best s fix_origin mov_origin kw
                shape (r_fix r) (r_mov r) params (seq 0 affine_align_best)
                irm (map (uninit 1%nat) (seq 0 affine_align_best)) 0
        end
    end.

(** The metric evaluation raises whatever it is asked. *)
Definition always_raising : Prop :=
  forall irm f m, exists e, MetricEvaluate irm f m = Raise e.

(** What the loop prints when it gives up. *)
Definition abort_messages : list event :=
  [Printed "Random search failed due to ITK exception:";
   Printed "Returning default"].

(** [scores] after [k] failures in a row from index [iii]. *)
Fixpoint fill_failed (scores : list Q) (iii k : nat) : list Q :=
  match k with
  | O => scores
  | S k' => fill_failed (set_nth scores iii float64_max) (S iii) k'
  end.

End Defs.

End RandomSearch.

(** ** distributed_twist_align *)

(** Volumes, displacement fields and the collaborators of the level loop:
    numpy's field arithmetic, [distributed_piecewise_affine_align] (only
    its field is used), and [CircuitSeeker.transform]. *)
Class TwistEnv : Type := {
  volume : Type;
  dfield : Type;                        (* array of shape fix.shape + (3,) *)
  twist_kwargs : Type;
  zeros_field : volume -> dfield;       (* np.zeros(fix.shape + (3,)) *)
  zeros_like : dfield -> dfield;
  fadd : dfield -> dfield -> dfield;    (* ddd += ... *)
  fdiv : dfield -> nat -> dfield;       (* ddd / len(inner_list) *)
  merge_kwargs : twist_kwargs -> twist_kwargs -> twist_kwargs;
  piecewise_field :
    volume -> volume -> vec3 Q -> list Z -> option volume -> option volume ->
    twist_kwargs -> result dfield;
  compose_displacement_vector_fields : dfield -> dfield -> vec3 Q -> dfield;
  apply_transform :
    volume -> volume -> vec3 Q -> vec3 Q -> list (Mat.mat + dfield) -> volume;
  positive_mask : volume -> volume      (* (m > 0).astype(np.uint8) *)
}.

Module Twist.

Section Defs.

Context `{TwistEnv}.

(** What [np.save] writes at the end of an outer level. *)
Record checkpoint : Type := {
  ck_level : nat;
  ck_deform : dfield;
  ck_image : volume;
  ck_mask : option volume
}.

Record twist_state : Type := {
  counter : nat;
  deform : dfield;
  current_moving : volume;
  current_moving_mask : option volume;
  saved : list checkpoint
}.

Variables fix_im mov_im : volume.
Variables fix_spacing mov_spacing : vec3 Q.
Variable parameter_schedule : option (list twist_kwargs).
Variable initial_transform_list : option (list (Mat.mat + dfield)).
Variables fix_mask mov_mask : option volume.
Variable intermediates_path : option string.
Variable kw : twist_kwargs.

(** Lines 958-976. *)
Definition initial_state : twist_state :=
  {| counter := 0;
     deform := zeros_field fix_im;
     current_moving :=
       match initial_transform_list with
       | Some tl => apply_transform fix_im mov_im fix_spacing mov_spacing tl
       | None => mov_im
       end;
     current_moving_mask :=
       match initial_transform_list, mov_mask with
       | Some tl, Some mm =>
           Some (positive_mask
                   (apply_transform fix_im mm fix_spacing mov_spacing tl))
       | _, _ => mov_mask
       end;
     saved := [] |}.

(** Lines 984-987. *)
Definition instance_kwargs (n : nat) : result twist_kwargs :=
  match parameter_schedule with
  | Some ps =>
      match nth_error ps n with
      | Some over => Ok (merge_kwargs kw over)
      | None => Raise IndexError
      end
  | None => Ok kw
  end.

(** The inner loop, lines 981-1007: [ddd] accumulates one field per inner
    level, all computed against the same working copy of the moving
    volume. *)
Fixpoint inner_levels (moving : volume) (moving_mask : option volume)
  (inner_list : list (list Z)) (n : nat) (ddd : dfield)
  : result (dfield * nat) :=
  match inner_list with
  | [] => Ok (ddd, n)
  | nblocks :: rest =>
      match instance_kwargs n with
      | Raise e => Raise e
      | Ok ikw =>
          match piecewise_field fix_im moving fix_spacing nblocks
                  fix_mask moving_mask ikw with
          | Raise e => Raise e
          | Ok fld => inner_levels moving moving_mask rest (S n) (fadd ddd fld)
          end
      end
  end.

(** The field the body of the outer loop holds in [ddd] after line 1010. *)
Definition level_contribution (st : twist_state) (inner_list : list (list Z))
  : result (dfield * nat) :=
  match inner_levels (current_moving st) (current_moving_mask st)
          inner_list (counter st) (zeros_like (deform st)) with
  | Raise e => Raise e
  | Ok (ddd, n) => Ok (fdiv ddd (List.length inner_list), n)
  end.

(** One pass of the outer loop body, lines 979-1046. *)
Definition outer_level_step (outer_level : nat)
  (inner_list : list (list Z)) (st : twist_state) : result twist_state :=
  match level_contribution st inner_list with
  | Raise e => Raise e
  | Ok (ddd, n) =>
      (* if outer_level > 0: deform = compose(...); there is no else *)
      let deform' :=
        if (0 <? outer_level)%nat
        then compose_displacement_vector_fields (deform st) ddd fix_spacing
        else deform st in
      let transform_list :=
        match initial_transform_list with
        | Some tl => tl ++ [inr deform']
        | None => [inr deform']
        end in
      let moving' :=
        apply_transform fix_im mov_im fix_spacing mov_spacing transform_list in
      let mask' :=
        match mov_mask with
        | Some mm =>
            Some (positive_mask
                    (apply_transform fix_im mm fix_spacing mov_spacing
                       transform_list))
        | None => current_moving_mask st
        end in
      Ok {| counter := n;
            deform := deform';
            current_moving := moving';
            current_moving_mask := mask';
            saved :=
              match intermediates_path with
              | Some _ =>
                  saved st ++
                  [{| ck_level := outer_level; ck_deform := deform';
                      ck_image := moving';
                      ck_mask := match mov_mask with
                                 | Some _ => mask'
                                 | None => None
                                 end |}]
              | None => saved st
              end |}
  end.

(** The outer loop over [enumerate(block_schedule)]. *)
Fixpoint outer_levels (outer_level : nat) (block_schedule : list (list (list Z)))
  (st : twist_state) : result twist_state :=
  match block_schedule with
  | [] => Ok st
  | inner_list :: rest =>
      match outer_level_step outer_level inner_list st with
      | Raise e => Raise e
      | Ok st' => outer_levels (S outer_level) rest st'
      end
  end.

Definition distributed_twist_align (block_schedule : list (list (list Z)))
  : result dfield :=
  match outer_levels 0 block_schedule initial_state with
  | Raise e => Raise e
  | Ok st => Ok (deform st)
  end.

(** The fields the inner levels of one outer level produce, in order. *)
Fixpoint inner_fields (moving : volume) (moving_mask : option volume)
  (inner_list : list (list Z)) (n : nat) : result (list dfield) :=
  match inner_list with
  | [] => Ok []
  | nblocks :: rest =>
      match instance_kwargs n with
      | Raise e => Raise e
      | Ok ikw =>
          match piecewise_field fix_im moving fix_spacing nblocks
                  fix_mask moving_mask ikw with
          | Raise e => Raise e
          | Ok fld =>
              match inner_fields moving moving_mask rest (S n) with
              | Raise e => Raise e
              | Ok l => Ok (fld :: l)
              end
          end
      end
  end.

(** Arithmetic mean of a list of fields, summed in order from the zero
    field. *)
Definition field_mean (zero : dfield) (l : list dfield) : dfield :=
  fdiv (fold_left fadd l zero) (List.length l).

End Defs.

End Twist.

(** ** distributed_piecewise_exhaustive_translation: sampling and stitching *)

Module Translation.

Import Numpy.

(** *** Python slices *)

(** One bound of [slice(start, stop, step).indices(n)]. *)
Definition adjust_index (n step i : Z) : Z :=
  if i <? 0 then
    if i + n <? 0 then (if step <? 0 then -1 else 0) else i + n
  else if n <=? i then (if step <? 0 then n - 1 else n)
  else i.

Definition slice_length (start stop step : Z) : Z :=
  if step <? 0 then
    if stop <? start then (start - stop - 1) / (- step) + 1 else 0
  else
    if start <? stop then (stop - start - 1) / step + 1 else 0.

(** The indices [a[start:stop:step]] selects on an axis of length [n]. *)
Definition slice_indices (n start stop step : Z) : result (list Z) :=
  if step =? 0 then Raise ValueError
  else
    let a := adjust_index n step start in
    let b := adjust_index n step stop in
    Ok (map (fun i => a + Z.of_nat i * step)
            (seq 0 (Z.to_nat (slice_length a b step)))).

(** Bounds and number of entries of [a[c - r : c + r + 1]]. *)
Definition slice_of (n c r : Z) : Z * Z :=
  (adjust_index n 1 (c - r), adjust_index n 1 (c + r + 1)).

Definition extent (ab : Z * Z) : Z := slice_length (fst ab) (snd ab) 1.

(** numpy broadcasting of an axis of [src] entries onto one of [dst]. *)
Definition broadcastable (src dst : Z) : bool := (src =? dst) || (src =? 1).

(** [block[i] = a[c - r : c + r + 1, ...]] for a block of [2 r + 1] entries
    per axis. *)
Definition copy_fits (shape c r : vec3 Z) : bool :=
  let '(n0, n1, n2) := shape in
  let '(c0, c1, c2) := c in
  let '(r0, r1, r2) := r in
  broadcastable (extent (slice_of n0 c0 r0)) (2 * r0 + 1) &&
  broadcastable (extent (slice_of n1 c1 r1)) (2 * r1 + 1) &&
  broadcastable (extent (slice_of n2 c2 r2)) (2 * r2 + 1).

(** [a[c - s : c + s + 1, ...] += w] for [w] of [2 s + 1] entries per
    axis. *)
Definition add_fits (shape c s : vec3 Z) : bool :=
  let '(n0, n1, n2) := shape in
  let '(c0, c1, c2) := c in
  let '(s0, s1, s2) := s in
  broadcastable (2 * s0 + 1) (extent (slice_of n0 c0 s0)) &&
  broadcastable (2 * s1 + 1) (extent (slice_of n1 c1 s1)) &&
  broadcastable (2 * s2 + 1) (extent (slice_of n2 c2 s2)).

(** *** Sample points, lines 1252-1264 *)

Definition search_radius (query_radius num_steps step_sizes : vec3 Z)
  : vec3 Z :=
  vzip Z.add query_radius (vzip Z.mul num_steps step_sizes).

(** [x if x > y else y]. *)
Definition edge_limit (radius stride : vec3 Z) : vec3 Z :=
  vzip (fun x y => if y <? x then x else y) radius stride.

(** The coordinates set by
    [samples[limit[0]:-limit[0]:stride[0], ...] = 1], kept where the mask
    is non zero, in the order of [np.nonzero]. *)
Definition sample_points (shape limit stride : vec3 Z)
  (mask : option (vec3 Z -> bool)) : result (list (vec3 Z)) :=
  let '(n0, n1, n2) := shape in
  let '(l0, l1, l2) := limit in
  let '(s0, s1, s2) := stride in
  match slice_indices n0 l0 (- l0) s0,
        slice_indices n1 l1 (- l1) s1,
        slice_indices n2 l2 (- l2) s2 with
  | Ok xs, Ok ys, Ok zs =>
      let grid :=
        flat_map (fun x => flat_map (fun y => map (fun z => (x, y, z)) zs) ys)
                 xs in
      Ok match mask with
         | Some keep => filter keep grid
         | None => grid
         end
  | _, _, _ => Raise ValueError
  end.

(** *** Stitching, lines 1316-1322 *)

Definition dvf_array : Type := vec3 Z -> vec3 Q.

Definition vzero : vec3 Q := (0%Q, 0%Q, 0%Q).

(** One entry of [dvf[window] += t * weights[..., None]], for the weight
    [w]: [dvf] is a float32 array (line 1316) and the translations and the
    weights are doubles, so the product is a double, the sum is formed in
    double precision and what is stored is its float32. *)
Definition accumulate (w old t : Q) : Q :=
  float32 (float64 (old + float64 (t * w))).

Definition vaccumulate (w : Q) (old t : vec3 Q) : vec3 Q :=
  vzip (accumulate w) old t.

(** Entry [i] of [np.pad([1.], (s, s), mode='linear_ramp')]: from the end
    value 0 at both ends up to the edge value 1 at index [s].  This is the
    value of the ramp as a rational; the array holds the doubles numpy
    computes for it, which are this value where it is 0 or 1. *)
Definition linear_ramp (s i : Z) : Q :=
  if i =? s then 1%Q
  else if i <? s then (inject_Z i / inject_Z s)%Q
  else (inject_Z (2 * s - i) / inject_Z s)%Q.

(** [weights[i0, i1, i2]]: the unit impulse padded axis after axis, each
    axis ramping from the values already in place down to 0. *)
Definition weights (stride idx : vec3 Z) : Q :=
  let '(s0, s1, s2) := stride in
  let '(i0, i1, i2) := idx in
  (linear_ramp s0 i0 * linear_ramp s1 i1 * linear_ramp s2 i2)%Q.

Definition in_slice (ab : Z * Z) (x : Z) : bool :=
  (fst ab <=? x) && (x <? snd ab).

(** [p] lies in the region [dvf[c - stride : c + stride + 1, ...]]
    selects. *)
Definition in_window (shape stride c p : vec3 Z) : bool :=
  let '(n0, n1, n2) := shape in
  let '(s0, s1, s2) := stride in
  let '(c0, c1, c2) := c in
  let '(p0, p1, p2) := p in
  in_slice (slice_of n0 c0 s0) p0 &&
  in_slice (slice_of n1 c1 s1) p1 &&
  in_slice (slice_of n2 c2 s2) p2.

(** Position of [p] inside that region, which is the index of the weight
    it receives. *)
Definition window_index (shape stride c p : vec3 Z) : vec3 Z :=
  let '(n0, n1, n2) := shape in
  let '(s0, s1, s2) := stride in
  let '(c0, c1, c2) := c in
  let '(p0, p1, p2) := p in
  (p0 - fst (slice_of n0 c0 s0),
   p1 - fst (slice_of n1 c1 s1),
   p2 - fst (slice_of n2 c2 s2)).

(** [dvf[window] += t * weights[..., None]]; numpy refuses the addition
    when the window is cut short by the array bounds. *)
Definition add_sample (shape stride : vec3 Z) (dvf : dvf_array)
  (t : vec3 Q) (c : vec3 Z) : result dvf_array :=
  if add_fits shape c stride then
    Ok (fun p =>
          if in_window shape stride c p
          then vaccumulate (weights stride (window_index shape stride c p))
                 (dvf p) t
          else dvf p)
  else Raise ValueError.

Fixpoint stitch (shape stride : vec3 Z) (dvf : dvf_array)
  (samples : list (vec3 Q * vec3 Z)) : result dvf_array :=
  match samples with
  | [] => Ok dvf
  | (t, c) :: rest =>
      match add_sample shape stride dvf t c with
      | Raise e => Raise e
      | Ok dvf' => stitch shape stride dvf' rest
      end
  end.

(** Componentwise equality of rational vectors. *)
Definition veq (u v : vec3 Q) : Prop :=
  let '(a, b, c) := u in
  let '(x, y, z) := v in
  (a == x /\ b == y /\ c == z)%Q.

(** What one sample adds at voxel [p]: its translation times the weight of
    [p], inside its window, and nothing outside. *)
Definition add_contribution (shape stride p : vec3 Z) (acc : vec3 Q)
  (sample : vec3 Q * vec3 Z) : vec3 Q :=
  if in_window shape stride (snd sample) p
  then vaccumulate (weights stride (window_index shape stride (snd sample) p))
         acc (fst sample)
  else acc.

(** The contributions of all samples at [p], added one after the other on
    top of what the field held. *)
Definition summed_at (shape stride : vec3 Z) (dvf : dvf_array)
  (samples : list (vec3 Q * vec3 Z)) (p : vec3 Z) : vec3 Q :=
  fold_left (add_contribution shape stride p) samples (dvf p).

(** The window [c - r : c + r + 1] lies inside an axis of [n] entries. *)
Definition inside (n c r : Z) : Prop := 0 <= c - r /\ c + r + 1 <= n.

Definition inside3 (shape c r : vec3 Z) : Prop :=
  let '(n0, n1, n2) := shape in
  let '(c0, c1, c2) := c in
  let '(r0, r1, r2) := r in
  inside n0 c0 r0 /\ inside n1 c1 r1 /\ inside n2 c2 r2.

Definition all3 (P : Z -> Prop) (v : vec3 Z) : Prop :=
  let '(a, b, c) := v in P a /\ P b /\ P c.



Section Defs.

(** What [exhaustive_translation] does on the blocks cut around a sample
    point: the translation it finds, or the exception it raises, which
    nothing catches.  What the closure does on the one empty chunk dask
    hands it when there is no sample at all.  scipy's [gaussian_filter] on
    one channel. *)
Variable block_translation : vec3 Z -> result (vec3 Q).
Variable empty_chunk : result unit.
Variable gaussian_filter : (vec3 Z -> Q) -> vec3 Q -> vec3 Z -> Q.

(** The translations of the blocks, in the order of the samples. *)
Fixpoint translations_of (samples : list (vec3 Z))
  : result (list (vec3 Q)) :=
  match samples with
  | [] => Ok []
  | c :: rest =>
      match block_translation c with
      | Raise e => Raise e
      | Ok t =>
          match translations_of rest with
          | Raise e => Raise e
          | Ok ts => Ok (t :: ts)
          end
      end
  end.

(** Lines 1287-1313: [da.map_blocks(...).compute()].  It runs whether or
    not there is a sample; without one, what the closure returns for the
    empty chunk meets no sample in the stitching loop. *)
Definition dispatch (samples : list (vec3 Z)) : result (list (vec3 Q)) :=
  match samples with
  | [] =>
      match empty_chunk with
      | Raise e => Raise e
      | Ok _ => Ok []
      end
  | _ :: _ => translations_of samples
  end.

Definition channel (i : nat) (v : vec3 Q) : Q :=
  let '(a, b, c) := v in
  match i with
  | O => a
  | S O => b
  | _ => c
  end.

(** Lines 1324-1331. *)
Definition smooth (dvf : dvf_array) (smooth_sigma : Q) (fix_spacing : vec3 Q)
  : dvf_array :=
  if Qle_bool smooth_sigma 0 then dvf
  else
    let sigma := vmap (fun s => (smooth_sigma / s)%Q) fix_spacing in
    fun p =>
      (gaussian_filter (fun q => channel 0 (dvf q)) sigma p,
       gaussian_filter (fun q => channel 1 (dvf q)) sigma p,
       gaussian_filter (fun q => channel 2 (dvf q)) sigma p).

(** The whole function.  The blocks read around every sample must have
    their full extent (lines 1274-1280) before any is aligned; an
    exception in a block ends the call. *)
Definition distributed_piecewise_exhaustive_translation
  (shape : vec3 Z) (fix_spacing : vec3 Q)
  (stride query_radius num_steps step_sizes : vec3 Z)
  (smooth_sigma : Q) (mask : option (vec3 Z -> bool)) : result dvf_array :=
  let radius := search_radius query_radius num_steps step_sizes in
  let limit := edge_limit radius stride in
  match sample_points shape limit stride mask with
  | Raise e => Raise e
  | Ok samples =>
      if forallb (fun c => copy_fits shape c radius &&
                           copy_fits shape c query_radius) samples
      then
        match dispatch samples with
        | Raise e => Raise e
        | Ok translations =>
            match stitch shape stride (fun _ => vzero)
                    (combine translations samples) with
            | Raise e => Raise e
            | Ok dvf => Ok (smooth dvf smooth_sigma fix_spacing)
            end
        end
      else Raise ValueError
  end.

End Defs.

End Translation.

(** ** Concrete collaborators

    Small executable stand-ins for the oracles, on which the statements
    below are run. *)

Module Toy.

Import Mat.

(** A volume reduced to its shape. *)
Definition shape_only : Type := list Z.

Definition pad_shape (im : shape_only) (p : list (Z * Z)) : shape_only :=
  Partition.padded_shape im p.

(** The regular grid of chunks of a padded three-dimensional volume. *)
Definition grid_blocks (im : shape_only) (bs ov : list Z)
  : list (vec3 Z * shape_only) :=
  let count i := Z.to_nat (nth i im 0 / nth i bs 1) in
  flat_map (fun i =>
    flat_map (fun j =>
      map (fun k => ((Z.of_nat i, Z.of_nat j, Z.of_nat k), bs))
          (seq 0 (count 2%nat)))
      (seq 0 (count 1%nat)))
    (seq 0 (count 0%nat)).

(** A pairwise aligner that finds no motion. *)
Definition still_align (f m : shape_only) (fs ms : vec3 Q)
  (fm mm : option shape_only) (rigid : bool) (init : option mat) (kw : unit)
  : mat :=
  eye 4.

(** Stitching that keeps the affines as they are. *)
Definition keep_affines (shape : list Z) (spacing : vec3 Q)
  (affines : list (vec3 Z * mat)) (bs ov : list Z)
  : list (vec3 Z * mat) :=
  affines.

Definition unit_spacing : vec3 Q := (1%Q, 1%Q, 1%Q).

(** SimpleITK reduced to matrices: an image is its shape and voxels, a
    transform is its matrix. *)
Definition toy_image : Type := (vec3 Z * list Q)%type.

Definition toy_sitk : Sitk :=
  {| image := toy_image;
     sitk_image := toy_image;
     transform := mat;
     kwargs := unit;
     voxels := snd;
     shape3 := fst;
     big_endian := fun _ => false;
     subsample := fun im _ => Ok im;
     GetImageFromArray := fun im _ _ => im;
     Cast_float32 := fun im => im;
     Euler3DTransform := eye 4;
     AffineTransform3 := eye 4;
     matrix_to_euler_transform := fun m => Ok m;
     matrix_to_affine_transform := fun m => m;
     CenteredTransformInitializer := fun _ _ t => Ok t;
     as_Euler3DTransform := fun t => t;
     affine_transform_to_matrix := fun m => m;
     irm_setters := fun _ => Ok tt |}.

(** The first translation component of an optional transform. *)
Definition shift_of (t : option mat) : Q :=
  match t with
  | Some m => nth 3 (nth 0 m []) 0%Q
  | None => 0%Q
  end.

(** A metric that reads the shift of the transforms in place. *)
Definition shift_metric (irm : @irm_state toy_sitk) : Q :=
  (shift_of (@irm_initial toy_sitk irm) +
   shift_of (@irm_moving_initial toy_sitk irm))%Q.

(** An optimiser that lowers the metric by one. *)
Definition descending : @Registration toy_sitk :=
  {| MetricEvaluate := fun irm _ _ => Ok (shift_metric irm);
     Execute := fun irm _ _ =>
       Ok (translation
             ((shift_of (@irm_initial toy_sitk irm) - 1)%Q, 0%Q, 0%Q)) |}.

(** An optimiser that returns its starting point. *)
Definition stalled : @Registration toy_sitk :=
  {| MetricEvaluate := fun irm _ _ => Ok (shift_metric irm);
     Execute := fun irm _ _ =>
       Ok (match @irm_initial toy_sitk irm with
           | Some t => t
           | None => eye 4
           end) |}.

(** A registration method that raises on every call. *)
Definition always_raises : @Registration toy_sitk :=
  {| MetricEvaluate := fun _ _ _ => Raise ITKException;
     Execute := fun _ _ _ => Raise ITKException |}.

Definition cube (n : Z) (v : list Q) : toy_image := ((n, n, n), v).

(** A fixed stream of draws, logarithm and exponential replaced by the
    identity, and the rotation matrix of a rotation vector to first
    order. *)
Definition toy_numerics : Numerics :=
  {| rand := fun k i =>
       [inject_Z (Z.of_nat i) / 8; inject_Z (Z.of_nat k) / 4; 1 # 2]%Q;
     np_log := fun x => x;
     np_exp := fun x => x;
     rotvec_as_matrix := fun v =>
       let a := nth 0 v 0%Q in
       let b := nth 1 v 0%Q in
       let c := nth 2 v 0%Q in
       [[1; - c; b]; [c; 1; - a]; [- b; a; 1]]%Q |}.

(** Two masks of four voxels that do not meet. *)
Definition mask_left : toy_image := cube 2 [1; 1; 0; 0]%Q.
Definition mask_right : toy_image := cube 2 [0; 0; 1; 1]%Q.

(** A search over three random candidates, scored by [descending]. *)
Definition ready : @RandomSearch.search_ready toy_sitk :=
  @RandomSearch.Build_search_ready toy_sitk
    (@AffineAlign.Build_sampled toy_sitk
       (cube 2 [3; 1; 4; 1]%Q) (cube 2 [1; 5; 9; 2]%Q) None None
       unit_spacing unit_spacing)
    (cube 2 [3; 1; 4; 1]%Q) (cube 2 [1; 5; 9; 2]%Q)
    (@AffineAlign.set_masks toy_sitk
       (@AffineAlign.new_irm toy_sitk tt) None None).

Definition scored : traced (@RandomSearch.loop_exit toy_sitk) :=
  @RandomSearch.score_all toy_sitk descending toy_numerics ready
    (@RandomSearch.make_params toy_numerics 4 (1 # 2) 2 (1 # 10) 3)
    3 (fun _ _ => 0%Q).

Definition scored_scores : list Q :=
  match fst scored with
  | RandomSearch.Completed s _ => s
  | RandomSearch.Aborted s _ => s
  end.

Definition scored_irm : @irm_state toy_sitk :=
  match fst scored with
  | RandomSearch.Completed _ irm => irm
  | RandomSearch.Aborted _ _ => @AffineAlign.new_irm toy_sitk tt
  end.

(** A scheduler over scalar volumes and three-component fields: a block
    grid yields a field equal to its block counts, composition adds. *)
Definition toy_twist : TwistEnv :=
  {| volume := Z;
     dfield := list Q;
     twist_kwargs := unit;
     zeros_field := fun _ => [0; 0; 0]%Q;
     zeros_like := map (fun _ => 0%Q);
     fadd := fun a b => map (fun xy => Qred (fst xy + snd xy)) (combine a b);
     fdiv := fun a n => map (fun x => Qred (x / inject_Z (Z.of_nat n))) a;
     merge_kwargs := fun _ over => over;
     piecewise_field := fun _ _ _ nblocks _ _ _ => Ok (map inject_Z nblocks);
     compose_displacement_vector_fields := fun a b _ =>
       map (fun xy => Qred (fst xy + snd xy)) (combine a b);
     apply_transform := fun _ mov _ _ _ => mov;
     positive_mask := fun m => m |}.

End Toy.

(** ** Further concrete collaborators *)

Module ToyMore.

Import Mat.

(** Images that carry their byte order: the flag is [true] for a big
    endian array. *)
Definition endian_sitk : Sitk :=
  {| image := (bool * list Q)%type;
     sitk_image := list Q;
     transform := mat;
     kwargs := unit;
     voxels := snd;
     shape3 := fun _ => (2, 2, 1);
     big_endian := fst;
     subsample := fun im _ => Ok im;
     GetImageFromArray := fun im _ _ => snd im;
     Cast_float32 := fun im => im;
     Euler3DTransform := eye 4;
     AffineTransform3 := eye 4;
     matrix_to_euler_transform := fun m => Ok m;
     matrix_to_affine_transform := fun m => m;
     CenteredTransformInitializer := fun _ _ t => Ok t;
     as_Euler3DTransform := fun t => t;
     affine_transform_to_matrix := fun m => m;
     irm_setters := fun _ => Ok tt |}.

(** A registration method for [endian_sitk] that raises when run. *)
Definition fragile : @Registration endian_sitk :=
  {| MetricEvaluate := fun _ _ _ => Ok 1%Q;
     Execute := fun _ _ _ => Raise ITKException |}.

(** A pairwise aligner that always finds the same stretch along the first
    axis, by a factor of 2 with a shift of 1. *)
Definition stretch_align (f m : Toy.shape_only) (fs ms : vec3 Q)
  (fm mm : option Toy.shape_only) (rigid : bool) (init : option mat)
  (kw : unit) : mat :=
  [[2; 0; 0; 1]; [0; 1; 0; 0]; [0; 0; 1; 0]; [0; 0; 0; 1]]%Q.

(** A pairwise aligner that tells which mask slots were filled: it returns
    a translation by 1 along the first axis when a fixed mask came in, and
    by 1 along the second axis when a moving mask came in. *)
Definition mask_align (f m : Toy.shape_only) (fs ms : vec3 Q)
  (fm mm : option Toy.shape_only) (rigid : bool) (init : option mat)
  (kw : unit) : mat :=
  set_translation (eye 4)
    (match fm with Some _ => 1%Q | None => 0%Q end,
     match mm with Some _ => 1%Q | None => 0%Q end,
     0%Q).

End ToyMore.

(** ** The ranking of the candidates, as pairs *)

Module Ranking.

(** Pairs of a score and an index, compared by score. *)
Definition by_score (a b : Q * nat) : Prop := (fst a <= fst b)%Q.

(** The pairs [np.argsort] orders: what [RandomSearch.argsort] projects
    the indices from. *)
Definition scored_order (scores : list Q) : list (Q * nat) :=
  fold_right (fun si acc => RandomSearch.insert_scored (fst si) (snd si) acc)
    [] (combine scores (seq 0 (List.length scores))).

End Ranking.


(** ** Runs of distributed_twist_align *)

Module TwistRuns.

Import Twist.

Section Defs.

Context `{TwistEnv}.

(** Every piecewise alignment against [fix_im] returns a field. *)
Definition piecewise_returns (fix_im : volume) (fix_spacing : vec3 Q)
  (fix_mask : option volume) : Prop :=
  forall moving nblocks moving_mask ikw,
  exists fld,
    piecewise_field fix_im moving fix_spacing nblocks fix_mask moving_mask ikw
    = Ok fld.

(** What an outer level writes with [np.save], lines 1038-1046: the
    fields of the state it leaves. *)
Definition checkpoint_of (mov_mask : option volume) (outer_level : nat)
  (st : twist_state) : checkpoint :=
  {| ck_level := outer_level;
     ck_deform := deform st;
     ck_image := current_moving st;
     ck_mask := match mov_mask with
                | Some _ => current_moving_mask st
                | None => None
                end |}.

End Defs.

End TwistRuns.

(** ** Where the stitched field of the translation search can be non zero *)

Module TranslationRuns.

Import Translation.

(** On an axis of [n] entries, [p] lies further than [s] below the first
    index a sample can have, or further than [s] above the last. *)
Definition beyond_reach (n l s p : Z) : Prop :=
  p < l - s \/ n - 1 - l + s < p.

(** [p] is out of the reach of every sample along at least one axis. *)
Definition near_border (shape limit stride p : vec3 Z) : Prop :=
  let '(n0, n1, n2) := shape in
  let '(l0, l1, l2) := limit in
  let '(s0, s1, s2) := stride in
  let '(p0, p1, p2) := p in
  beyond_reach n0 l0 s0 p0 \/ beyond_reach n1 l1 s1 p1 \/
  beyond_reach n2 l2 s2 p2.


(** [p] is at least a stride away from [c] along at least one axis. *)
Definition stride_apart (stride c p : vec3 Z) : Prop :=
  let '(s0, s1, s2) := stride in
  let '(c0, c1, c2) := c in
  let '(p0, p1, p2) := p in
  s0 <= Z.abs (p0 - c0) \/ s1 <= Z.abs (p1 - c1) \/ s2 <= Z.abs (p2 - c2).

(** Every component of [v] is a float32. *)
Definition held_as_float32 (v : vec3 Q) : Prop :=
  veq (vmap Numpy.float32 v) v.

(** What the float32 field keeps of a double translation. *)
Definition stored (t : vec3 Q) : vec3 Q :=
  vmap (fun x => Numpy.float32 (Numpy.float64 x)) t.

End TranslationRuns.

(** ** utility: matrices and ITK affine transforms *)

Module Utility.

Import Mat.

(** [matrix[:3, :3][::-1, ::-1]]. *)
Definition flipped_block (matrix : mat) : mat :=
  rev (map (fun r => rev (firstn 3 r)) (firstn 3 matrix)).

(** [matrix[:3, -1]]. *)
Definition last_column (matrix : mat) : list Q :=
  map (fun r => last r 0%Q) (firstn 3 matrix).

(** [invert_matrix_axes], lines 37-44 of utility.py, for a 4x4 [matrix]:
    the axis order of an affine matrix is turned from zyx to xyz, or back. *)
Definition invert_matrix_axes (matrix : mat) : mat :=
  let corrected := eye 4 in
  let corrected := set_block3 corrected (flipped_block matrix) in
  set_translation corrected
    (RandomSearch.vec3_of (rev (last_column matrix))).

(** What the code reads from and writes to a [sitk.AffineTransform(3)]:
    the nine entries of its matrix, row by row, and its translation. *)
Record affine_transform : Type := {
  GetMatrix : list Q;
  GetTranslation : list Q
}.

(** [np.array(l).reshape((3, 3))]. *)
Definition reshape33 (l : list Q) : mat :=
  [firstn 3 l; firstn 3 (skipn 3 l); firstn 3 (skipn 6 l)].

(** Lines 47-54. *)
Definition affine_transform_to_matrix (t : affine_transform) : mat :=
  let matrix := eye 4 in
  let matrix := set_block3 matrix (reshape33 (GetMatrix t)) in
  let matrix :=
    set_translation matrix (RandomSearch.vec3_of (GetTranslation t)) in
  invert_matrix_axes matrix.

(** Lines 57-65. *)
Definition matrix_to_affine_transform (matrix : mat) : affine_transform :=
  let matrix_sitk := invert_matrix_axes matrix in
  {| GetMatrix := concat (map (firstn 3) (firstn 3 matrix_sitk));
     GetTranslation := last_column matrix_sitk |}.

(** The last row of an affine matrix. *)
Definition affine_row (matrix : mat) : Prop :=
  Forall2 Qeq (nth 3 matrix []) [0; 0; 0; 1]%Q.

End Utility.

(** ** exhaustive_translation *)

Module Exhaustive.

Import Numpy Mat AffineAlign.

(** [np.finfo('f').max]. *)
Definition float32_max : Q := inject_Z ((2 ^ 24 - 1) * 2 ^ 104).

(** [tuple(2*x+1 for x in num_steps[::-1])]. *)
Definition scores_shape (num_steps : vec3 Z) : vec3 Z :=
  let '(n0, n1, n2) := num_steps in (2 * n2 + 1, 2 * n1 + 1, 2 * n0 + 1).

(** [np.unravel_index(k, shape)] in C order, for [k] inside the array. *)
Definition unravel_index (k : Z) (shape : vec3 Z) : vec3 Z :=
  let '(d0, d1, d2) := shape in
  (k / (d1 * d2), (k / d2) mod d1, k mod d2).

(** [b / a >= peak_ratio] on float32 scalars: a zero divisor gives [inf],
    which passes, or [nan] for 0 / 0, which does not. *)
Definition ratio_reached (a b peak_ratio : Q) : bool :=
  if Qeq_bool a 0 then negb (Qeq_bool b 0)
  else Qle_bool peak_ratio (float32 (b / a)).

(** An integer array times a float64 array. *)
Definition times_spacing (k : vec3 Z) (spacing : vec3 Q) : vec3 Q :=
  vzip (fun z s => float64 (float64 (inject_Z z) * s)) k spacing.

(** [(np.array(indx[::-1]) - num_steps) * step_sizes * fix_spacing]. *)
Definition offset_translation (offset step_sizes : vec3 Z)
  (fix_spacing : vec3 Q) : vec3 Q :=
  times_spacing (vzip Z.mul offset step_sizes) fix_spacing.

(** The offset [k], in steps, lies in the range that was searched. *)
Definition in_search_range (num_steps k : vec3 Z) : Prop :=
  let '(n0, n1, n2) := num_steps in
  let '(k0, k1, k2) := k in
  Z.abs k0 <= n0 /\ Z.abs k1 <= n1 /\ Z.abs k2 <= n2.

Section Defs.

Context `{Sitk}.

(** [irm.Execute] with the exhaustive optimiser over [num_steps] steps of
    the given sizes: what the callback has left in [scores] when it
    returns, by flat index in C order, or the exception it raised.
    [scipy.ndimage.minimum_filter(scores, size=3)], flattened. *)
Variable run_exhaustive :
  vec3 Z -> vec3 Q -> sitk_image -> sitk_image -> result (nat -> Q).
Variable minimum_filter : list Q -> vec3 Z -> list Q.

(** Lines 1146-1147: every entry that is not a local minimum is set to the
    largest float. *)
Definition keep_peaks (scores : list Q) (shape : vec3 Z) : list Q :=
  let filtered := minimum_filter scores shape in
  map (fun i =>
         if Qeq_bool (nth i filtered 0%Q) (nth i scores 0%Q)
         then nth i scores 0%Q else float32_max)
      (seq 0 (List.length scores)).

Definition exhaustive_translation (fix_im mov_im : image)
  (fix_spacing mov_spacing : vec3 Q) (num_steps step_sizes : vec3 Z)
  (fix_origin mov_origin : option (vec3 Q)) (peak_ratio : Q)
  : result (vec3 Q) :=
  match numpy_to_sitk fix_im fix_spacing fix_origin with
  | Raise e => Raise e
  | Ok fix_itk =>
  match numpy_to_sitk mov_im mov_spacing mov_origin with
  | Raise e => Raise e
  | Ok mov_itk =>
      let '(d0, d1, d2) := scores_shape num_steps in
      (* np.zeros refuses a negative dimension *)
      if (d0 <? 0) || (d1 <? 0) || (d2 <? 0) then Raise ValueError
      else
        match run_exhaustive num_steps (times_spacing step_sizes fix_spacing)
                (Cast_float32 fix_itk) (Cast_float32 mov_itk) with
        | Raise e => Raise e
        | Ok content =>
            let scores := map content (seq 0 (Z.to_nat (d0 * d1 * d2))) in
            let scores := keep_peaks scores (d0, d1, d2) in
            let min1_indx := RandomSearch.argmin scores in
            let min1 := nth min1_indx scores 0%Q in
            let scores := set_nth scores min1_indx float32_max in
            let min2_indx := RandomSearch.argmin scores in
            let min2 := nth min2_indx scores 0%Q in
            let a := if Qltb (Qabs min2) (Qabs min1)
                     then Qabs min2 else Qabs min1 in
            let b := if Qltb (Qabs min2) (Qabs min1)
                     then Qabs min1 else Qabs min2 in
            if ratio_reached a b peak_ratio then
              let '(i0, i1, i2) :=
                unravel_index (Z.of_nat min1_indx) (d0, d1, d2) in
              Ok (offset_translation
                    (vzip Z.sub (i2, i1, i0) num_steps)
                    step_sizes fix_spacing)
            else Ok (0%Q, 0%Q, 0%Q)
        end
  end
  end.

End Defs.

End Exhaustive.

(** ** Binary floating point numbers *)

Module Floating.

Definition pow2 (e : Z) : Q := Qpower 2 e.

(** [x] is a binary floating point number with a mantissa of [prec] bits
    (the exponent range is not bounded, as in [Numpy.fl_round]). *)
Definition representable (prec : Z) (x : Q) : Prop :=
  exists m e, Z.abs m < 2 ^ prec /\ (x == inject_Z m * pow2 e)%Q.

(** The double next below 3/2. *)
Definition below_three_halves : Q := 6755399441055743 # 4503599627370496.

End Floating.

(** ** Spacings for which skip sampling is as modelled *)

Module SkipSampling.

Import Floating.

(** A voxel spacing is a positive double, and the target spacing is not
    more than 2^62 voxels: the stride then fits a 64 bit integer. *)
Definition plain_spacing (ss_spacing s : Q) : Prop :=
  (0 < s)%Q /\ representable 53 s /\
  (ss_spacing / s <= inject_Z (2 ^ 62))%Q.

(** The stride [skip_sample] takes along an axis of spacing [s]. *)
Definition stride_of (ss_spacing s : Q) : Z :=
  Z.max (Numpy.np_round (Numpy.float64 (ss_spacing / s))) 1.

End SkipSampling.
(** * Properties *)

(** ** Rounding *)

Module NumpyFacts.

Import Numpy.

Lemma round_half_even_le (a b c : Z) :
  0 < b -> a <= c * b -> round_half_even a b <= c.
Proof.
  intros Hb Hle. unfold round_half_even.
  pose proof (Z.div_mod a b ltac:(lia)) as Hdm.
  pose proof (Z.mod_pos_bound a b Hb) as Hr.
  assert (a / b <= c) by (apply Z.div_le_upper_bound; lia).
  destruct (Z.ltb_spec (2 * (a mod b)) b); [lia |].
  assert (a / b < c) by nia.
  destruct (Z.ltb_spec b (2 * (a mod b))); [lia |].
  destruct (Z.even (a / b)); lia.
Qed.

Lemma round_half_even_gt (a b c : Z) :
  0 < b -> c * b <= a -> b < 2 * (a - c * b) -> c < round_half_even a b.
Proof.
  intros Hb Hle Hgap. unfold round_half_even.
  pose proof (Z.div_mod a b ltac:(lia)) as Hdm.
  pose proof (Z.mod_pos_bound a b Hb) as Hr.
  assert (c <= a / b) by (apply Z.div_le_lower_bound; lia).
  destruct (Z.ltb_spec (2 * (a mod b)) b).
  - assert (c < a / b) by nia. lia.
  - destruct (Z.ltb_spec b (2 * (a mod b))); [lia |].
    assert (c < a / b) by nia.
    destruct (Z.even (a / b)); lia.
Qed.

Lemma round_half_even_exact (a : Z) : round_half_even a 1 = a.
Proof.
  unfold round_half_even. rewrite Z.div_1_r, Z.mod_1_r. reflexivity.
Qed.

Lemma binary_exponent_spec (p q : Z) :
  0 < p -> 0 < q ->
  let e := binary_exponent p q in
  q * 2 ^ Z.max 0 e <= p * 2 ^ Z.max 0 (- e) < 2 * (q * 2 ^ Z.max 0 e).
Proof.
  intros Hp Hq e.
  pose proof (Z.log2_spec p Hp) as [Hp1 Hp2].
  pose proof (Z.log2_spec q Hq) as [Hq1 Hq2].
  pose proof (Z.log2_nonneg p) as Hlp. pose proof (Z.log2_nonneg q) as Hlq.
  rewrite Z.pow_succ_r in Hp2, Hq2 by assumption.
  subst e. unfold binary_exponent.
  set (a := Z.log2 p) in *. set (b := Z.log2 q) in *.
  destruct (Z.le_gt_cases b a) as [Hab | Hab].
  - (* e0 >= 0 *)
    assert (Hpow : 2 ^ a = 2 ^ (a - b) * 2 ^ b).
    { rewrite <- Z.pow_add_r by lia. f_equal. lia. }
    pose proof (Z.pow_pos_nonneg 2 (a - b) ltac:(lia) ltac:(lia)) as Hpos.
    pose proof (Z.pow_pos_nonneg 2 b ltac:(lia) ltac:(lia)) as Hposb.
    rewrite (Z.max_l 0 (- (a - b))) by lia.
    rewrite (Z.max_r 0 (a - b)) by lia.
    rewrite Z.pow_0_r, Z.mul_1_r.
    destruct (Z.ltb_spec p (q * 2 ^ (a - b))) as [Ht | Ht].
    + destruct (Z.eq_dec a b) as [Heq | Hne].
      * replace (a - b - 1) with (-1) by lia.
        replace (a - b) with 0 in * by lia.
        change (Z.max 0 (-1)) with 0. change (Z.max 0 (- -1)) with 1.
        rewrite Z.pow_0_r in *. rewrite Z.pow_1_r. lia.
      * rewrite (Z.max_r 0 (a - b - 1)) by lia.
        rewrite (Z.max_l 0 (- (a - b - 1))) by lia.
        rewrite Z.pow_0_r, Z.mul_1_r.
        assert (Hs : 2 ^ (a - b) = 2 * 2 ^ (a - b - 1)).
        { rewrite <- Z.pow_succ_r by lia. f_equal. lia. }
        pose proof (Z.pow_pos_nonneg 2 (a - b - 1) ltac:(lia) ltac:(lia)).
        assert (q * 2 ^ (a - b - 1) < 2 ^ b * 2 * 2 ^ (a - b - 1)) by nia.
        nia.
    + rewrite (Z.max_l 0 (- (a - b))) by lia.
      rewrite (Z.max_r 0 (a - b)) by lia.
      rewrite Z.pow_0_r, Z.mul_1_r.
      assert (2 ^ (a - b) * 2 ^ b <= 2 ^ (a - b) * q) by nia.
      lia.
  - (* e0 < 0 *)
    assert (Hpow : 2 ^ b = 2 ^ (b - a) * 2 ^ a).
    { rewrite <- Z.pow_add_r by lia. f_equal. lia. }
    pose proof (Z.pow_pos_nonneg 2 (b - a) ltac:(lia) ltac:(lia)) as Hpos.
    pose proof (Z.pow_pos_nonneg 2 a ltac:(lia) ltac:(lia)) as Hposa.
    rewrite (Z.max_r 0 (- (a - b))) by lia.
    rewrite (Z.max_l 0 (a - b)) by lia.
    replace (- (a - b)) with (b - a) by lia.
    rewrite Z.pow_0_r, Z.mul_1_r.
    destruct (Z.ltb_spec (p * 2 ^ (b - a)) q) as [Ht | Ht].
    + rewrite (Z.max_l 0 (a - b - 1)) by lia.
      rewrite (Z.max_r 0 (- (a - b - 1))) by lia.
      replace (- (a - b - 1)) with (Z.succ (b - a)) by lia.
      rewrite Z.pow_succ_r by lia. rewrite Z.pow_0_r.
      assert (2 ^ a * 2 ^ (b - a) <= p * 2 ^ (b - a)) by nia.
      lia.
    + rewrite (Z.max_r 0 (- (a - b))) by lia.
      rewrite (Z.max_l 0 (a - b)) by lia.
      replace (- (a - b)) with (b - a) by lia.
      rewrite Z.pow_0_r, Z.mul_1_r.
      assert (p * 2 ^ (b - a) < 2 * 2 ^ a * 2 ^ (b - a)) by nia.
      lia.
Qed.

Lemma Qceiling_unique (x : Q) (c : Z) :
  (inject_Z (c - 1) < x)%Q -> (x <= inject_Z c)%Q -> Qceiling x = c.
Proof.
  intros Hlo Hhi.
  assert (H1 : Qceiling x <= c).
  { rewrite <- (Qceiling_Z c). apply Qceiling_resp_le. exact Hhi. }
  assert (H2 : c - 1 < Qceiling x).
  { rewrite Zlt_Qlt. eapply Qlt_le_trans; [exact Hlo | apply Qle_ceiling]. }
  lia.
Qed.

Lemma Qpower_2_neg (d : Z) :
  0 <= d -> (Qpower 2 (- d) == / inject_Z (2 ^ d))%Q.
Proof.
  intros Hd. rewrite Qpower_opp. apply Qinv_comp.
  rewrite Zpower_Qpower by assumption. reflexivity.
Qed.

Lemma scaled_bounds (m D lo hi : Z) :
  0 < D -> lo * D < m -> m <= hi * D ->
  (inject_Z lo < inject_Z m * / inject_Z D)%Q /\
  (inject_Z m * / inject_Z D <= inject_Z hi)%Q.
Proof.
  intros HD Hlo Hhi.
  assert (HDq : (0 < inject_Z D)%Q)
    by (change 0%Q with (inject_Z 0); rewrite <- Zlt_Qlt; exact HD).
  split.
  - apply Qlt_shift_div_l; [exact HDq |].
    rewrite <- inject_Z_mult, <- Zlt_Qlt. exact Hlo.
  - apply Qle_shift_div_r; [exact HDq |].
    rewrite <- inject_Z_mult, <- Zle_Qle. exact Hhi.
Qed.

Lemma fl_round_ceiling_Z (prec p : Z) (q : positive) (c N : Z) :
  0 < prec -> 0 < p -> 0 < N ->
  (c - 1) * Z.pos q < p -> p <= c * Z.pos q ->
  Z.pos q <= (p - (c - 1) * Z.pos q) * N ->
  p * N < 2 ^ prec * Z.pos q ->
  Qceiling (fl_round prec (p # q)) = c.
Proof.
  intros Hprec Hp HN Hlo Hhi Hgap Hbig.
  unfold fl_round. cbn [Qnum Qden].
  destruct (Z.eqb_spec p 0) as [| _]; [lia |].
  rewrite (Z.abs_eq p) by lia. rewrite (Z.sgn_pos p) by lia.
  rewrite Z.mul_1_l.
  pose proof (binary_exponent_spec p (Z.pos q) Hp ltac:(lia)) as He. cbv zeta in He.
  set (e := binary_exponent p (Z.pos q)) in *.
  set (Qz := Z.pos q) in *.
  assert (HQz : 0 < Qz) by (subst Qz; lia).
  pose proof (Z.pow_pos_nonneg 2 prec ltac:(lia) ltac:(lia)) as Hpp.
  (* p < 2^prec * Qz *)
  assert (Hp_lt : p < 2 ^ prec * Qz) by nia.
  (* N < 2 ^ (prec - e) and e < prec *)
  assert (Hd : e < prec /\ N < 2 ^ (prec - e)).
  { destruct (Z.le_gt_cases 0 e) as [He0 | He0].
    - rewrite (Z.max_r 0 e) in He by lia.
      rewrite (Z.max_l 0 (- e)) in He by lia.
      rewrite Z.pow_0_r, Z.mul_1_r in He.
      pose proof (Z.pow_pos_nonneg 2 e ltac:(lia) ltac:(lia)) as Hpe.
      assert (Hlt : 2 ^ e < 2 ^ prec) by nia.
      apply (proj2 (Z.pow_lt_mono_r_iff 2 e prec ltac:(lia) ltac:(lia)))
        in Hlt.
      split; [exact Hlt |].
      assert (Hsplit : 2 ^ prec = 2 ^ (prec - e) * 2 ^ e).
      { rewrite <- Z.pow_add_r by lia. f_equal. lia. }
      pose proof (Z.pow_pos_nonneg 2 (prec - e) ltac:(lia) ltac:(lia)).
      assert (N * 2 ^ e * Qz < 2 ^ (prec - e) * 2 ^ e * Qz) by nia.
      nia.
    - split; [lia |].
      rewrite (Z.max_l 0 e) in He by lia.
      rewrite (Z.max_r 0 (- e)) in He by lia.
      rewrite Z.pow_0_r, Z.mul_1_r in He.
      assert (Hsplit : 2 ^ (prec - e) = 2 ^ prec * 2 ^ (- e)).
      { rewrite <- Z.pow_add_r by lia. reflexivity. }
      pose proof (Z.pow_pos_nonneg 2 (- e) ltac:(lia) ltac:(lia)).
      assert (N * Qz <= N * (p * 2 ^ (- e))) by nia.
      assert (p * N * 2 ^ (- e) < 2 ^ prec * Qz * 2 ^ (- e)) by nia.
      nia. }
  destruct Hd as [He_lt HN_lt].
  set (d := prec - 1 - e).
  assert (Hd0 : 0 <= d) by (subst d; lia).
  replace (e - prec + 1) with (- d) by (subst d; lia).
  rewrite (Z.max_r 0 (- - d)) by lia. rewrite (Z.max_l 0 (- d)) by lia.
  rewrite Z.opp_involutive, Z.pow_0_r, Z.mul_1_r.
  pose proof (Z.pow_pos_nonneg 2 d ltac:(lia) ltac:(lia)) as HD.
  assert (H2D : 2 ^ (prec - e) = 2 * 2 ^ d).
  { rewrite <- Z.pow_succ_r by lia. f_equal. subst d. lia. }
  set (D := 2 ^ d) in *.
  set (m := round_half_even (p * D) Qz).
  assert (Hm_hi : m <= c * D).
  { apply round_half_even_le; [exact HQz | nia]. }
  assert (Hm_lo : (c - 1) * D < m).
  { apply round_half_even_gt; [exact HQz | nia |].
    assert (Qz < (p - (c - 1) * Qz) * (2 * D)) by nia.
    nia. }
  destruct (scaled_bounds m D (c - 1) c HD Hm_lo Hm_hi) as [B1 B2].
  apply Qceiling_unique.
  - rewrite Qpower_2_neg by exact Hd0. exact B1.
  - rewrite Qpower_2_neg by exact Hd0. exact B2.
Qed.

Lemma fl_round_ceiling (prec : Z) (y : Q) (x n c : Z) :
  0 < prec -> 0 < x < 2 ^ prec -> 0 < n ->
  (y == inject_Z x / inject_Z n)%Q ->
  (c - 1) * n < x <= c * n ->
  Qceiling (fl_round prec y) = c.
Proof.
  intros Hprec Hx Hn Hy Hc. destruct y as [p q].
  assert (Hpn : p * n = x * Z.pos q).
  { assert (Hy' : ((p # q) * inject_Z n == inject_Z x)%Q).
    { rewrite Hy. field. intros H0.
      apply (Qeq_bool_neq (inject_Z n) 0); [| exact H0].
      unfold Qeq_bool, inject_Z. cbn.
      apply Z.eqb_neq. lia. }
    unfold Qeq, Qmult, inject_Z in Hy'. cbn [Qnum Qden] in Hy'.
    rewrite Pos.mul_1_r, Z.mul_1_r in Hy'. exact Hy'. }
  assert (HQ : 0 < Z.pos q) by lia.
  set (Qz := Z.pos q) in *.
  assert (Hp : 0 < p) by nia.
  apply (fl_round_ceiling_Z prec p q c n); try assumption; fold Qz; nia.
Qed.

Lemma float32_exact (x : Z) :
  0 < x < 2 ^ 24 -> (float32 (inject_Z x) == inject_Z x)%Q.
Proof.
  intros Hx. unfold float32, fl_round, inject_Z. cbn [Qnum Qden].
  destruct (Z.eqb_spec x 0) as [| _]; [lia |].
  rewrite (Z.abs_eq x) by lia. rewrite (Z.sgn_pos x) by lia.
  rewrite Z.mul_1_l.
  pose proof (binary_exponent_spec x 1 ltac:(lia) ltac:(lia)) as He. cbv zeta in He.
  set (e := binary_exponent x 1) in *.
  assert (He0 : 0 <= e < 24).
  { destruct (Z.le_gt_cases 0 e) as [Hpos | Hneg].
    - split; [exact Hpos |].
      rewrite (Z.max_r 0 e) in He by lia.
      rewrite (Z.max_l 0 (- e)) in He by lia.
      rewrite Z.pow_0_r in He.
      assert (Hlt : 2 ^ e < 2 ^ 24) by lia.
      exact (proj2 (Z.pow_lt_mono_r_iff 2 e 24 ltac:(lia) ltac:(lia)) Hlt).
    - exfalso.
      rewrite (Z.max_l 0 e) in He by lia.
      rewrite (Z.max_r 0 (- e)) in He by lia.
      rewrite Z.pow_0_r in He.
      assert (Hge : 2 ^ 1 <= 2 ^ (- e)) by (apply Z.pow_le_mono_r; lia).
      change (2 ^ 1) with 2 in Hge. nia. }
  set (d := 23 - e).
  replace (e - 24 + 1) with (- d) by (subst d; lia).
  rewrite (Z.max_r 0 (- - d)) by (subst d; lia).
  rewrite (Z.max_l 0 (- d)) by (subst d; lia).
  rewrite Z.opp_involutive, Z.pow_0_r, Z.mul_1_l.
  rewrite round_half_even_exact.
  rewrite Qpower_2_neg by (subst d; lia).
  pose proof (Z.pow_pos_nonneg 2 d ltac:(lia) ltac:(subst d; lia)) as HD.
  change (x * 2 ^ d # 1) with (inject_Z (x * 2 ^ d)).
  rewrite inject_Z_mult. change (x # 1) with (inject_Z x).
  field. intros H0.
  assert (H1 : (0 < inject_Z (2 ^ d))%Q)
    by (change 0%Q with (inject_Z 0); rewrite <- Zlt_Qlt; exact HD).
  rewrite H0 in H1. exact (Qlt_irrefl 0 H1).
Qed.

Lemma ceil_div_spec (x n : Z) :
  0 < n -> ((x + n - 1) / n - 1) * n < x <= (x + n - 1) / n * n.
Proof.
  intros Hn.
  pose proof (Z.div_mod (x + n - 1) n ltac:(lia)).
  pose proof (Z.mod_pos_bound (x + n - 1) n Hn). nia.
Qed.

End NumpyFacts.

(** ** Floating point rounding *)

Module FloatFacts.

Import Numpy Floating.

(** *** Rounding to the nearest integer *)

Lemma round_half_even_ratio (p q p' q' : Z) :
  0 < q -> 0 < q' -> p * q' = p' * q ->
  round_half_even p q = round_half_even p' q'.
Proof.
  intros Hq Hq' Heq. unfold round_half_even.
  pose proof (Z.div_mod p q ltac:(lia)) as Hdm.
  pose proof (Z.mod_pos_bound p q Hq) as Hr.
  pose proof (Z.div_mod p' q' ltac:(lia)) as Hdm'.
  pose proof (Z.mod_pos_bound p' q' Hq') as Hr'.
  assert (Hf : p / q = p' / q').
  { apply Z.le_antisymm.
    - apply Z.div_le_lower_bound; [lia |].
      assert (q' * (p / q) * q <= p' * q) by nia. nia.
    - apply Z.div_le_lower_bound; [lia |].
      assert (q * (p' / q') * q' <= p * q') by nia. nia. }
  assert (Hm : (p mod q) * q' = (p' mod q') * q) by nia.
  rewrite <- Hf.
  destruct (Z.ltb_spec (2 * (p mod q)) q), (Z.ltb_spec (2 * (p' mod q')) q');
    try reflexivity; try nia.
  destruct (Z.ltb_spec q (2 * (p mod q))), (Z.ltb_spec q' (2 * (p' mod q')));
    try reflexivity; nia.
Qed.

Lemma round_half_even_lower (a b c : Z) :
  0 < b -> c * b <= a -> c <= round_half_even a b.
Proof.
  intros Hb Hle. unfold round_half_even.
  pose proof (Z.div_mod a b ltac:(lia)) as Hdm.
  pose proof (Z.mod_pos_bound a b Hb) as Hr.
  assert (c <= a / b) by (apply Z.div_le_lower_bound; lia).
  destruct (Z.ltb_spec (2 * (a mod b)) b); [lia |].
  destruct (Z.ltb_spec b (2 * (a mod b))); [lia |].
  destruct (Z.even (a / b)); lia.
Qed.

(** *** Powers of two *)

Lemma two_neq_0 : ~ (2 == 0)%Q.
Proof. discriminate. Qed.

Lemma pow2_pos (e : Z) : (0 < pow2 e)%Q.
Proof. apply Qpower_0_lt. reflexivity. Qed.

Lemma pow2_add (a b : Z) : (pow2 (a + b) == pow2 a * pow2 b)%Q.
Proof. apply Qpower_plus. exact two_neq_0. Qed.

Lemma pow2_succ (e : Z) : (pow2 (e + 1) == 2 * pow2 e)%Q.
Proof. rewrite pow2_add. unfold pow2 at 2. cbn. ring. Qed.

Lemma pow2_le (a b : Z) : a <= b -> (pow2 a <= pow2 b)%Q.
Proof. intros H. apply Qpower_le_compat_l; [exact H | discriminate]. Qed.

Lemma pow2_lt (a b : Z) : a < b -> (pow2 a < pow2 b)%Q.
Proof. intros H. apply Qpower_lt_compat_l; [exact H | reflexivity]. Qed.

Lemma pow2_Z (e : Z) : 0 <= e -> (pow2 e == inject_Z (2 ^ e))%Q.
Proof. intros He. symmetry. apply (Zpower_Qpower 2 e He). Qed.

Lemma inject_Z_pos (z : Z) : 0 < z -> (0 < inject_Z z)%Q.
Proof. intros H. change 0%Q with (inject_Z 0). now rewrite <- Zlt_Qlt. Qed.

Lemma inject_Z_neq_0 (z : Z) : 0 < z -> ~ (inject_Z z == 0)%Q.
Proof.
  intros H E. pose proof (inject_Z_pos z H) as P. rewrite E in P.
  exact (Qlt_irrefl 0 P).
Qed.

(** A power of two as a fraction of two integers, one of which is 1. *)
Lemma pow2_frac (s : Z) :
  (pow2 s == inject_Z (2 ^ Z.max 0 s) / inject_Z (2 ^ Z.max 0 (- s)))%Q.
Proof.
  destruct (Z.le_gt_cases 0 s) as [Hs | Hs].
  - rewrite (Z.max_r 0 s), (Z.max_l 0 (- s)) by lia.
    rewrite pow2_Z by exact Hs. change (2 ^ 0) with 1. field.
  - rewrite (Z.max_l 0 s), (Z.max_r 0 (- s)) by lia.
    replace s with (- - s) at 1 by lia. unfold pow2.
    rewrite NumpyFacts.Qpower_2_neg by lia. change (2 ^ 0) with 1.
    field. apply inject_Z_neq_0. apply Z.pow_pos_nonneg; lia.
Qed.

Lemma frac_le (p : Z) (q : positive) (M D : Z) :
  0 < D ->
  (p # q <= inject_Z M / inject_Z D)%Q <-> p * D <= M * Z.pos q.
Proof.
  intros HD.
  assert (E : (inject_Z M / inject_Z D == M # Z.to_pos D)%Q).
  { rewrite (Qmake_Qdiv M (Z.to_pos D)). rewrite Z2Pos.id by exact HD.
    reflexivity. }
  rewrite E. unfold Qle. cbn [Qnum Qden]. rewrite Z2Pos.id by exact HD.
  reflexivity.
Qed.

Lemma frac_ge (p : Z) (q : positive) (M D : Z) :
  0 < D ->
  (inject_Z M / inject_Z D <= p # q)%Q <-> M * Z.pos q <= p * D.
Proof.
  intros HD.
  assert (E : (inject_Z M / inject_Z D == M # Z.to_pos D)%Q).
  { rewrite (Qmake_Qdiv M (Z.to_pos D)). rewrite Z2Pos.id by exact HD.
    reflexivity. }
  rewrite E. unfold Qle. cbn [Qnum Qden]. rewrite Z2Pos.id by exact HD.
  reflexivity.
Qed.

Lemma frac_lt (p : Z) (q : positive) (M D : Z) :
  0 < D ->
  (p # q < inject_Z M / inject_Z D)%Q <-> p * D < M * Z.pos q.
Proof.
  intros HD.
  assert (E : (inject_Z M / inject_Z D == M # Z.to_pos D)%Q).
  { rewrite (Qmake_Qdiv M (Z.to_pos D)). rewrite Z2Pos.id by exact HD.
    reflexivity. }
  rewrite E. unfold Qlt. cbn [Qnum Qden]. rewrite Z2Pos.id by exact HD.
  reflexivity.
Qed.

(** An integer multiple of a power of two, as a fraction. *)
Lemma scaled_frac (N s : Z) :
  (inject_Z N * pow2 s ==
   inject_Z (N * 2 ^ Z.max 0 s) / inject_Z (2 ^ Z.max 0 (- s)))%Q.
Proof.
  rewrite (pow2_frac s) at 1. rewrite inject_Z_mult. field.
  apply inject_Z_neq_0. apply Z.pow_pos_nonneg; lia.
Qed.

Lemma pow_max_pos (s : Z) : 0 < 2 ^ Z.max 0 s.
Proof. apply Z.pow_pos_nonneg; lia. Qed.

Lemma scaled_le (p : Z) (q : positive) (N s : Z) :
  (p # q <= inject_Z N * pow2 s)%Q <->
  p * 2 ^ Z.max 0 (- s) <= N * (Z.pos q * 2 ^ Z.max 0 s).
Proof.
  rewrite scaled_frac, (frac_le p q _ _ (pow_max_pos (- s))).
  split; intros H; lia.
Qed.

Lemma scaled_ge (p : Z) (q : positive) (N s : Z) :
  (inject_Z N * pow2 s <= p # q)%Q <->
  N * (Z.pos q * 2 ^ Z.max 0 s) <= p * 2 ^ Z.max 0 (- s).
Proof.
  rewrite scaled_frac, (frac_ge p q _ _ (pow_max_pos (- s))).
  split; intros H; lia.
Qed.

Lemma scaled_lt (p : Z) (q : positive) (N s : Z) :
  (p # q < inject_Z N * pow2 s)%Q <->
  p * 2 ^ Z.max 0 (- s) < N * (Z.pos q * 2 ^ Z.max 0 s).
Proof.
  rewrite scaled_frac, (frac_lt p q _ _ (pow_max_pos (- s))).
  split; intros H; lia.
Qed.

(** *** The binary exponent *)

Lemma binary_exponent_bounds (p : Z) (q : positive) :
  0 < p ->
  let e := binary_exponent p (Z.pos q) in
  (pow2 e <= p # q)%Q /\ (p # q < pow2 (e + 1))%Q.
Proof.
  intros Hp e.
  pose proof (NumpyFacts.binary_exponent_spec p (Z.pos q) Hp ltac:(lia))
    as He. cbv zeta in He. fold e in He.
  split.
  - rewrite <- (Qmult_1_l (pow2 e)). change 1%Q with (inject_Z 1).
    apply scaled_ge. lia.
  - rewrite pow2_succ. change 2%Q with (inject_Z 2).
    apply scaled_lt. lia.
Qed.

Lemma exponent_unique (x : Q) (e e' : Z) :
  (pow2 e <= x)%Q -> (x < pow2 (e + 1))%Q ->
  (pow2 e' <= x)%Q -> (x < pow2 (e' + 1))%Q -> e = e'.
Proof.
  intros L U L' U'.
  destruct (Z.lt_trichotomy e e') as [H | [H | H]]; [| exact H |]; exfalso.
  - pose proof (pow2_le (e + 1) e' ltac:(lia)) as M.
    apply (Qlt_irrefl x).
    eapply Qlt_le_trans; [exact U |]. eapply Qle_trans; eassumption.
  - pose proof (pow2_le (e' + 1) e ltac:(lia)) as M.
    apply (Qlt_irrefl x).
    eapply Qlt_le_trans; [exact U' |]. eapply Qle_trans; eassumption.
Qed.

(** *** Rounding to a binary floating point number *)

(** The rounding depends on the value, not on the fraction that stands for
    it. *)
Lemma fl_round_ext (prec : Z) (x y : Q) :
  (x == y)%Q -> fl_round prec x = fl_round prec y.
Proof.
  destruct x as [p q], y as [p' q']. unfold Qeq. cbn [Qnum Qden].
  intros Heq. unfold fl_round. cbn [Qnum Qden].
  destruct (Z.eqb_spec p 0) as [-> | Hp], (Z.eqb_spec p' 0) as [-> | Hp'];
    try reflexivity; try (exfalso; nia).
  assert (Habs : Z.abs p * Z.pos q' = Z.abs p' * Z.pos q) by nia.
  assert (Hsgn : Z.sgn p = Z.sgn p') by nia.
  assert (Ha : 0 < Z.abs p) by lia.
  assert (Ha' : 0 < Z.abs p') by lia.
  destruct (binary_exponent_bounds (Z.abs p) q Ha) as [L U].
  destruct (binary_exponent_bounds (Z.abs p') q' Ha') as [L' U'].
  assert (Hxy : (Z.abs p # q == Z.abs p' # q')%Q)
    by (unfold Qeq; cbn [Qnum Qden]; exact Habs).
  rewrite Hxy in L, U.
  pose proof (exponent_unique _ _ _ L U L' U') as He.
  rewrite He, Hsgn.
  set (s := binary_exponent (Z.abs p') (Z.pos q') - prec + 1).
  pose proof (pow_max_pos s) as P1. pose proof (pow_max_pos (- s)) as P2.
  rewrite (round_half_even_ratio
             (Z.abs p * 2 ^ Z.max 0 (- s)) (Z.pos q * 2 ^ Z.max 0 s)
             (Z.abs p' * 2 ^ Z.max 0 (- s)) (Z.pos q' * 2 ^ Z.max 0 s))
    by nia.
  reflexivity.
Qed.

Lemma fl_round_0 (prec : Z) (x : Q) : (x == 0)%Q -> fl_round prec x = 0%Q.
Proof. intros H. rewrite (fl_round_ext prec x 0 H). reflexivity. Qed.

Lemma fl_round_opp (prec : Z) (x : Q) :
  (fl_round prec (- x) == - fl_round prec x)%Q.
Proof.
  destruct x as [p q]. change (- (p # q))%Q with ((- p) # q).
  unfold fl_round. cbn [Qnum Qden].
  destruct (Z.eqb_spec p 0) as [-> | Hp]; [reflexivity |].
  destruct (Z.eqb_spec (- p) 0) as [E | _]; [lia |].
  rewrite Z.abs_opp, Z.sgn_opp, Z.mul_opp_l, inject_Z_opp.
  generalize (Qpower 2 (binary_exponent (Z.abs p) (Z.pos q) - prec + 1)).
  intros t. ring.
Qed.

(** What rounding a positive number gives: with [e] its binary exponent, the
    multiple of the last mantissa bit [2 ^ (e - prec + 1)] next to it. *)
Lemma fl_round_pos (prec : Z) (x : Q) :
  (0 < x)%Q ->
  exists e m,
    (pow2 e <= x)%Q /\ (x < pow2 (e + 1))%Q /\
    (fl_round prec x == inject_Z m * pow2 (e - prec + 1))%Q /\
    (forall N, (x <= inject_Z N * pow2 (e - prec + 1))%Q -> m <= N) /\
    (forall N, (inject_Z N * pow2 (e - prec + 1) <= x)%Q -> N <= m).
Proof.
  destruct x as [p q]. intros Hx.
  assert (Hp : 0 < p) by (unfold Qlt in Hx; cbn in Hx; lia).
  destruct (binary_exponent_bounds p q Hp) as [L U].
  set (e := binary_exponent p (Z.pos q)) in *.
  set (s := e - prec + 1).
  set (m := round_half_even (p * 2 ^ Z.max 0 (- s))
              (Z.pos q * 2 ^ Z.max 0 s)).
  pose proof (pow_max_pos s) as P1.
  exists e, m. split; [exact L |]. split; [exact U |]. split; [| split].
  - unfold fl_round. cbn [Qnum Qden].
    destruct (Z.eqb_spec p 0) as [E | _]; [lia |].
    rewrite (Z.abs_eq p), (Z.sgn_pos p) by lia. rewrite Z.mul_1_l.
    fold e. fold s. fold m. reflexivity.
  - intros N HN. apply scaled_le in HN. fold s in HN.
    apply NumpyFacts.round_half_even_le; [nia | lia].
  - intros N HN. apply scaled_ge in HN. fold s in HN.
    apply round_half_even_lower; [nia | lia].
Qed.

(** *** Floating point numbers and their rounding *)

Lemma representable_ext (prec : Z) (x y : Q) :
  (x == y)%Q -> representable prec x -> representable prec y.
Proof.
  intros E (m & e & Hm & Hx). exists m, e. split; [exact Hm |].
  now rewrite <- E.
Qed.

Lemma representable_opp (prec : Z) (x : Q) :
  representable prec x -> representable prec (- x).
Proof.
  intros (m & e & Hm & Hx). exists (- m), e. split; [lia |].
  rewrite Hx, inject_Z_opp. ring.
Qed.

Lemma representable_mono (prec prec' : Z) (x : Q) :
  prec <= prec' -> representable prec x -> representable prec' x.
Proof.
  intros Hle (m & e & Hm & Hx). exists m, e. split; [| exact Hx].
  destruct (Z.le_gt_cases 0 prec) as [H0 | H0].
  - pose proof (Z.pow_le_mono_r 2 prec prec' ltac:(lia) Hle). lia.
  - rewrite (Z.pow_neg_r 2 prec H0) in Hm. lia.
Qed.

Lemma representable_Z (prec n : Z) :
  Z.abs n < 2 ^ prec -> representable prec (inject_Z n).
Proof.
  intros Hn. exists n, 0. split; [exact Hn |].
  unfold pow2. cbn. ring.
Qed.

Lemma scaled_mono (a b s : Z) :
  a <= b -> (inject_Z a * pow2 s <= inject_Z b * pow2 s)%Q.
Proof.
  intros H. apply Qmult_le_compat_r; [| apply Qlt_le_weak, pow2_pos].
  now rewrite <- Zle_Qle.
Qed.

Lemma scaled_shift (m a b : Z) :
  0 <= a ->
  (inject_Z (m * 2 ^ a) * pow2 b == inject_Z m * pow2 (a + b))%Q.
Proof.
  intros Ha. rewrite inject_Z_mult, pow2_add, (pow2_Z a Ha). ring.
Qed.

(** A positive floating point number that is at least [2 ^ E] is a
    multiple of the last mantissa bit of the numbers between [2 ^ E] and
    [2 ^ (E + 1)]. *)
Lemma representable_on_grid (prec : Z) (y : Q) (E : Z) :
  0 < prec -> representable prec y -> (pow2 E <= y)%Q ->
  exists N, (y == inject_Z N * pow2 (E - prec + 1))%Q.
Proof.
  intros Hprec (m & e & Hm & Hy) HE.
  destruct (Z.le_gt_cases (E - prec + 1) e) as [Hle | Hgt].
  - exists (m * 2 ^ (e - (E - prec + 1))).
    rewrite scaled_shift by lia. rewrite Hy.
    replace (e - (E - prec + 1) + (E - prec + 1)) with e by lia.
    reflexivity.
  - exfalso.
    assert (Hlt : (y < pow2 E)%Q).
    { rewrite Hy.
      apply (Qlt_le_trans _ (inject_Z (2 ^ prec) * pow2 e)).
      - apply Qmult_lt_compat_r; [apply pow2_pos |].
        rewrite <- Zlt_Qlt. lia.
      - rewrite <- (pow2_Z prec) by lia. rewrite <- pow2_add.
        apply pow2_le. lia. }
    exact (Qlt_irrefl _ (Qlt_le_trans _ _ _ Hlt HE)).
Qed.

(** Rounding does not cross a floating point number. *)
Lemma fl_round_le_representable (prec : Z) (x y : Q) :
  0 < prec -> (0 < x)%Q -> (x <= y)%Q -> representable prec y ->
  (fl_round prec x <= y)%Q.
Proof.
  intros Hprec Hx Hxy Hy.
  destruct (fl_round_pos prec x Hx) as (e & m & L & U & Hfl & Hup & Hlo).
  destruct (representable_on_grid prec y e Hprec Hy) as [N HN].
  { eapply Qle_trans; eassumption. }
  rewrite Hfl, HN. apply scaled_mono. apply Hup. now rewrite <- HN.
Qed.

Lemma fl_round_ge_representable (prec : Z) (x y : Q) :
  0 < prec -> (0 < y)%Q -> (y <= x)%Q -> representable prec y ->
  (y <= fl_round prec x)%Q.
Proof.
  intros Hprec Hy0 Hyx Hy.
  assert (Hx : (0 < x)%Q) by (eapply Qlt_le_trans; eassumption).
  destruct (fl_round_pos prec x Hx) as (e & m & L & U & Hfl & Hup & Hlo).
  assert (Hhalf : (inject_Z (2 ^ (prec - 1)) * pow2 (e - prec + 1)
                   == pow2 e)%Q).
  { rewrite <- (pow2_Z (prec - 1)) by lia. rewrite <- pow2_add.
    replace (prec - 1 + (e - prec + 1)) with e by lia. reflexivity. }
  assert (Hm : 2 ^ (prec - 1) <= m) by (apply Hlo; now rewrite Hhalf).
  rewrite Hfl.
  destruct (Qlt_le_dec y (pow2 e)) as [Hlow | Hhigh].
  - apply Qlt_le_weak. eapply Qlt_le_trans; [exact Hlow |].
    rewrite <- Hhalf. now apply scaled_mono.
  - destruct (representable_on_grid prec y e Hprec Hy Hhigh) as [N HN].
    rewrite HN. apply scaled_mono. apply Hlo. now rewrite <- HN.
Qed.

Lemma fl_round_nonneg (prec : Z) (x : Q) :
  (0 <= x)%Q -> (0 <= fl_round prec x)%Q.
Proof.
  intros Hx. destruct (Qlt_le_dec 0 x) as [Hpos | Hle].
  - destruct (fl_round_pos prec x Hpos) as (e & m & _ & _ & Hfl & _ & Hlo).
    rewrite Hfl. apply Qmult_le_0_compat; [| apply Qlt_le_weak, pow2_pos].
    change 0%Q with (inject_Z 0). rewrite <- Zle_Qle. apply Hlo.
    rewrite Qmult_0_l. exact Hx.
  - rewrite (fl_round_0 prec x); [apply Qle_refl |].
    now apply Qle_antisym.
Qed.

(** A floating point number rounds to itself. *)
Lemma fl_round_id (prec : Z) (y : Q) :
  0 < prec -> representable prec y -> (fl_round prec y == y)%Q.
Proof.
  intros Hprec Hy.
  assert (Hpos : forall z, (0 < z)%Q -> representable prec z ->
                           (fl_round prec z == z)%Q).
  { intros z Hz Hrz. apply Qle_antisym.
    - apply fl_round_le_representable; auto. apply Qle_refl.
    - apply fl_round_ge_representable; auto. apply Qle_refl. }
  destruct (Q_dec 0 y) as [[Hlt | Hgt] | Heq].
  - now apply Hpos.
  - assert (Hn : (0 < - y)%Q).
    { rewrite <- (Qplus_lt_l _ _ y). ring_simplify. exact Hgt. }
    pose proof (Hpos (- y)%Q Hn (representable_opp _ _ Hy)) as H.
    rewrite fl_round_opp in H.
    rewrite <- (Qopp_involutive (fl_round prec y)), H. ring.
  - rewrite (fl_round_0 prec y) by (symmetry; exact Heq). exact Heq.
Qed.

(** The rounding is a floating point number. *)
Lemma fl_round_representable (prec : Z) (x : Q) :
  0 < prec -> representable prec (fl_round prec x).
Proof.
  intros Hprec.
  assert (Hpos : forall z, (0 < z)%Q -> representable prec (fl_round prec z)).
  { intros z Hz.
    destruct (fl_round_pos prec z Hz) as (e & m & L & U & Hfl & Hup & Hlo).
    assert (Hhalf : (inject_Z (2 ^ (prec - 1)) * pow2 (e - prec + 1)
                     == pow2 e)%Q).
    { rewrite <- (pow2_Z (prec - 1)) by lia. rewrite <- pow2_add.
      replace (prec - 1 + (e - prec + 1)) with e by lia. reflexivity. }
    assert (Hfull : (inject_Z (2 ^ prec) * pow2 (e - prec + 1)
                     == pow2 (e + 1))%Q).
    { rewrite <- (pow2_Z prec) by lia. rewrite <- pow2_add.
      replace (prec + (e - prec + 1)) with (e + 1) by lia. reflexivity. }
    assert (Hm1 : 2 ^ (prec - 1) <= m) by (apply Hlo; now rewrite Hhalf).
    assert (Hm2 : m <= 2 ^ prec).
    { apply Hup. rewrite Hfull. now apply Qlt_le_weak. }
    pose proof (Z.pow_pos_nonneg 2 (prec - 1) ltac:(lia) ltac:(lia)) as Hp.
    assert (Hdouble : 2 ^ prec = 2 * 2 ^ (prec - 1)).
    { rewrite <- Z.pow_succ_r by lia. f_equal. lia. }
    destruct (Z.eq_dec m (2 ^ prec)) as [Heq | Hne].
    - exists (2 ^ (prec - 1)), (e - prec + 1 + 1). split; [lia |].
      rewrite Hfl, Heq, Hdouble, inject_Z_mult, (pow2_succ (e - prec + 1)).
      change (inject_Z 2) with 2%Q.
      generalize (pow2 (e - prec + 1)) (inject_Z (2 ^ (prec - 1))).
      intros u v. ring.
    - exists m, (e - prec + 1). split; [lia | exact Hfl]. }
  destruct (Q_dec 0 x) as [[Hlt | Hgt] | Heq].
  - now apply Hpos.
  - assert (Hn : (0 < - x)%Q).
    { rewrite <- (Qplus_lt_l _ _ x). ring_simplify. exact Hgt. }
    apply (representable_ext prec (- fl_round prec (- x))%Q).
    + rewrite fl_round_opp. ring.
    + apply representable_opp. now apply Hpos.
  - rewrite (fl_round_0 prec x) by (symmetry; exact Heq).
    exists 0, 0. split; [apply Z.pow_pos_nonneg; lia |].
    rewrite Qmult_0_l. reflexivity.
Qed.

(** A float32 is a float64, and rounding twice changes nothing. *)
Lemma float64_float32 (x : Q) : (float64 (float32 x) == float32 x)%Q.
Proof.
  apply fl_round_id; [lia |].
  apply (representable_mono 24 53); [lia |].
  apply fl_round_representable. lia.
Qed.

Lemma float32_float32 (x : Q) : (float32 (float32 x) == float32 x)%Q.
Proof. apply fl_round_id; [lia |]. apply fl_round_representable. lia. Qed.

Lemma float64_float64 (x : Q) : (float64 (float64 x) == float64 x)%Q.
Proof. apply fl_round_id; [lia |]. apply fl_round_representable. lia. Qed.

End FloatFacts.

(** ** Block geometry *)

Module PartitionFacts.

Import Numpy Mat Partition.

Ltac mat_compute :=
  cbv [matmul translation set_translation set_last removelast eye ncols col
       dot vopp vmap map seq nth combine fold_right fst snd app Nat.eqb
       List.length correct_for_origin].

Ltac split_rows :=
  repeat match goal with
         | H : Forall2 _ _ (_ :: _) |- _ => inversion H; subst; clear H
         | H : Forall2 _ _ [] |- _ => inversion H; subst; clear H
         end.

Lemma np_mod_pos_bound (x y : Z) : 0 < y -> 0 <= np_mod x y < y.
Proof.
  intros Hy. unfold np_mod.
  destruct (Z.eqb_spec y 0); [lia |].
  apply Z.mod_pos_bound; assumption.
Qed.

(** With a positive block size the trailing pad completes the last block. *)
Lemma pad_axis_exact (x y : Z) :
  0 < y -> (y | fst (pad_axis x y) + x + snd (pad_axis x y)).
Proof.
  intros Hy. unfold pad_axis.
  pose proof (np_mod_pos_bound x y Hy) as Hb.
  assert (Hm : np_mod x y = x mod y).
  { unfold np_mod. destruct (Z.eqb_spec y 0); [lia | reflexivity]. }
  destruct (Z.ltb_spec 0 (np_mod x y)); cbn [fst snd].
  - exists (x / y + 1). rewrite Hm.
    pose proof (Z.div_mod x y ltac:(lia)). nia.
  - exists (x / y). assert (x mod y = 0) by lia.
    pose proof (Z.div_mod x y ltac:(lia)). nia.
Qed.

Lemma padded_exact (shape bs : list Z) :
  List.length shape = List.length bs ->
  Forall (fun y => 0 < y) bs ->
  exact_blocks
    (padded_shape shape
       (map (fun xy => pad_axis (fst xy) (snd xy)) (combine shape bs)))
    bs.
Proof.
  revert bs. induction shape as [| x shape IH]; intros [| y bs] Hlen Hpos;
    try discriminate; cbn.
  - constructor.
  - inversion Hpos; subst. constructor.
    + apply pad_axis_exact; assumption.
    + apply IH; [now injection Hlen | assumption].
Qed.

Lemma broadcast2_same_length {A B} (xs : list A) (ys : list B) :
  List.length xs = List.length ys -> broadcast2 xs ys = Ok (combine xs ys).
Proof.
  intros Hlen. unfold broadcast2.
  rewrite (proj2 (Nat.eqb_eq _ _) Hlen). reflexivity.
Qed.

(** Whenever every block size the code computes is positive, the padded
    shape is a whole number of blocks on every axis. *)
Lemma block_geometry_exact (shape nblocks : list Z) (overlap : Q) (g : geometry) :
  List.length nblocks = List.length shape ->
  block_geometry shape nblocks overlap = Ok g ->
  Forall (fun y => 0 < y) (blocksize g) ->
  exact_blocks (padded_shape shape (pads g)) (blocksize g).
Proof.
  intros Hlen Hg Hpos. unfold block_geometry in Hg.
  rewrite broadcast2_same_length in Hg by (symmetry; assumption).
  injection Hg as <-. cbn [blocksize pads] in *.
  apply padded_exact; [| assumption].
  rewrite length_map, length_combine. lia.
Qed.

(** In the range where the shape is exact in single precision and the block
    size fits 16 bits, the code computes [ceil(x / n)]. *)
Lemma blocksize_axis_exact (x n : Z) :
  0 < x < 2 ^ 24 -> 0 < n -> (x + n - 1) / n <= 32767 ->
  blocksize_axis x n = (x + n - 1) / n.
Proof.
  intros Hx Hn Hfit. unfold blocksize_axis, np_ceil, float64.
  pose proof (NumpyFacts.ceil_div_spec x n Hn) as Hc.
  rewrite (NumpyFacts.fl_round_ceiling 53 _ x n ((x + n - 1) / n)); try lia.
  - unfold cast_int16.
    assert (0 < (x + n - 1) / n) by nia.
    rewrite Z.mod_small by lia. lia.
  - rewrite NumpyFacts.float32_exact by exact Hx. reflexivity.
Qed.

(** X4.  For shapes below 2^24 voxels per axis, positive block counts
    and block sizes that fit [int16], the block sizes are
    [ceil(shape / nblocks)] and the padded shape is a whole number of
    blocks on every axis. *)
Lemma block_geometry_exact_in_range (shape nblocks : list Z) (overlap : Q) :
  Forall2 (fun x n => 0 < x < 2 ^ 24 /\ 0 < n /\ (x + n - 1) / n <= 32767)
    shape nblocks ->
  exists g,
    block_geometry shape nblocks overlap = Ok g /\
    blocksize g =
      map (fun xn => (fst xn + snd xn - 1) / snd xn) (combine shape nblocks) /\
    exact_blocks (padded_shape shape (pads g)) (blocksize g).
Proof.
  intros Hrange.
  assert (Hlen : List.length shape = List.length nblocks)
    by (eapply Forall2_length; exact Hrange).
  assert (Hbs :
    map (fun xn => blocksize_axis (fst xn) (snd xn)) (combine shape nblocks) =
    map (fun xn => (fst xn + snd xn - 1) / snd xn) (combine shape nblocks)).
  { induction Hrange as [| x n shape' nblocks' (Hx & Hn & Hfit) _ IH];
      [reflexivity |].
    cbn. rewrite blocksize_axis_exact by assumption.
    f_equal. apply IH. now injection Hlen. }
  eexists. split.
  { unfold block_geometry. rewrite broadcast2_same_length by exact Hlen.
    reflexivity. }
  cbn [blocksize pads]. split; [exact Hbs |].
  apply padded_exact.
  - rewrite length_map, length_combine. lia.
  - rewrite Hbs. clear Hbs Hlen.
    induction Hrange as [| x n shape' nblocks' (Hx & Hn & Hfit) _ IH];
      constructor; [| exact IH].
    cbn [fst snd]. pose proof (NumpyFacts.ceil_div_spec x n Hn). nia.
Qed.



Lemma correct_for_origin_eye (A : mat) (o : vec3 Q) :
  mat_eq A (eye 4) -> mat_eq (correct_for_origin A o) (eye 4).
Proof.
  intros HA. destruct o as [[o0 o1] o2].
  unfold mat_eq in HA. cbv [eye map seq Nat.eqb] in HA.
  split_rows. mat_compute.
  repeat constructor;
    repeat match goal with
           | H : (_ == _)%Q |- _ => rewrite H; clear H
           end; ring.
Qed.

Section OriginCorrection.

Context {image kwargs : Type}.
Variable affine_align :
  image -> image -> vec3 Q -> vec3 Q -> option image -> option image ->
  bool -> option mat -> kwargs -> mat.
Variables fix_spacing mov_spacing : vec3 Q.
Variable kw : kwargs.


End OriginCorrection.


(** C3.  An axis of 40000 voxels kept in one block: the block size
    [ceil(40000 / 1)] does not fit [np.int16] and wraps to -25536, the
    remainder [40000 % -25536] is negative, so nothing is padded and the
    padded shape is not a whole number of blocks. *)
Theorem block_geometry_int16_overflow :
  block_geometry [40000; 64; 64] [1; 1; 1] (1 # 2) =
    Ok {| blocksize := [-25536; 64; 64];
          overlaps := [-12768; 32; 32];
          pads := [(0, 0); (0, 0); (0, 0)] |} /\
  padded_shape [40000; 64; 64] [(0, 0); (0, 0); (0, 0)] = [40000; 64; 64] /\
  ~ exact_blocks [40000; 64; 64] [-25536; 64; 64].
Proof.
  split; [vm_compute; reflexivity |].
  split; [reflexivity |].
  intros Hex. inversion Hex as [| x y l l' [z Hz] _]; subst. lia.
Qed.

Section Mismatch.

Context {image field kwargs : Type}.
Variable shape_of : image -> list Z.
Variable np_pad : image -> list (Z * Z) -> image.
Variable halo_blocks : image -> list Z -> list Z -> list (vec3 Z * image).
Variable affine_align :
  image -> image -> vec3 Q -> vec3 Q -> option image -> option image ->
  bool -> option mat -> kwargs -> mat.
Variable local_affines_to_field :
  list Z -> vec3 Q -> list (vec3 Z * mat) -> list Z -> list Z -> field.
Variables fix_spacing mov_spacing : vec3 Q.
Variable kw : kwargs.

(** C8, as the code has it.  No length check is made: the error is the one
    numpy raises when the shape and [nblocks] cannot be broadcast against
    each other, which is the case when the lengths differ and neither of
    them is 1. *)
Theorem nblocks_length_mismatch_raises
  (fix_im mov_im : image) (nblocks : list Z) (overlap : Q)
  (fix_mask mov_mask : option image) :
  List.length nblocks <> List.length (shape_of fix_im) ->
  List.length nblocks <> 1%nat ->
  List.length (shape_of fix_im) <> 1%nat ->
  distributed_piecewise_affine_align shape_of np_pad halo_blocks affine_align
    local_affines_to_field fix_spacing mov_spacing kw
    fix_im mov_im nblocks overlap fix_mask mov_mask = Raise ValueError.
Proof.
  intros Hne Hn1 Hs1.
  unfold distributed_piecewise_affine_align, block_geometry, broadcast2.
  destruct (Nat.eqb_spec (List.length (shape_of fix_im)) (List.length nblocks))
    as [Heq | _]; [congruence |].
  destruct (shape_of fix_im) as [| x [| x' xs]], nblocks as [| y [| y' ys]];
    cbn in *; congruence.
Qed.

(** Every matrix the function returns for a block is the origin-corrected
    result of the closure on some pair of blocks. *)
Lemma affines_are_corrected
  (fix_im mov_im : image) (nblocks : list Z) (overlap : Q)
  (fix_mask mov_mask : option image)
  (affines : list (vec3 Z * mat)) (stitched : field) :
  distributed_piecewise_affine_align shape_of np_pad halo_blocks affine_align
    local_affines_to_field fix_spacing mov_spacing kw
    fix_im mov_im nblocks overlap fix_mask mov_mask = Ok (affines, stitched) ->
  forall idx M,
    In (idx, M) affines ->
    exists g bf bm fm mm,
      block_geometry (shape_of fix_im) nblocks overlap = Ok g /\
      M = single_affine_align affine_align fix_spacing mov_spacing kw
            (as_vec3 (blocksize g)) (as_vec3 (overlaps g)) bf bm fm mm idx.
Proof.
  unfold distributed_piecewise_affine_align.
  destruct (block_geometry (shape_of fix_im) nblocks overlap) as [g | e];
    [| discriminate].
  intros Hout idx M Hin. injection Hout as <- _.
  apply in_map_iff in Hin as ([i [[idx' bf] [idxm bm]]] & Heq & _).
  cbn [fst snd] in Heq. injection Heq as <- <-.
  exists g. do 4 eexists. split; reflexivity.
Qed.

End Mismatch.

Lemma nblocks_length_mismatch_raises_witness :
  Partition.distributed_piecewise_affine_align (fun im => im) Toy.pad_shape
    Toy.grid_blocks Toy.still_align Toy.keep_affines
    Toy.unit_spacing Toy.unit_spacing tt
    [64; 64; 64] [64; 64; 64] [2; 2] (1 # 2) None None = Raise ValueError.
Proof.
  apply (nblocks_length_mismatch_raises (fun im => im) Toy.pad_shape
           Toy.grid_blocks Toy.still_align Toy.keep_affines
           Toy.unit_spacing Toy.unit_spacing tt
           [64; 64; 64] [64; 64; 64] [2; 2] (1 # 2) None None);
    cbn; lia.
Defined.

(** A one-element [nblocks] on a three-dimensional volume: the lengths
    differ, nothing is raised, and the call returns what [nblocks =
    (2, 2, 2)] returns. *)
Lemma nblocks_length_one_accepted :
  List.length [2] <> List.length [64; 64; 64] /\
  Partition.distributed_piecewise_affine_align (fun im => im) Toy.pad_shape
    Toy.grid_blocks Toy.still_align Toy.keep_affines
    Toy.unit_spacing Toy.unit_spacing tt
    [64; 64; 64] [64; 64; 64] [2] (1 # 2) None None =
  Partition.distributed_piecewise_affine_align (fun im => im) Toy.pad_shape
    Toy.grid_blocks Toy.still_align Toy.keep_affines
    Toy.unit_spacing Toy.unit_spacing tt
    [64; 64; 64] [64; 64; 64] [2; 2; 2] (1 # 2) None None /\
  exists out,
    Partition.distributed_piecewise_affine_align (fun im => im) Toy.pad_shape
      Toy.grid_blocks Toy.still_align Toy.keep_affines
      Toy.unit_spacing Toy.unit_spacing tt
      [64; 64; 64] [64; 64; 64] [2] (1 # 2) None None = Ok out /\
    List.length (fst out) = 8%nat.
Proof.
  split; [cbn; lia |].
  split; [vm_compute; reflexivity |].
  eexists. split; [vm_compute; reflexivity | reflexivity].
Qed.

End PartitionFacts.

(** ** The guards of affine_align *)

Module AffineAlignFacts.

Import Numpy Mat AffineAlign.

Lemma Qltb_lt (x y : Q) : Qltb x y = true <-> (x < y)%Q.
Proof.
  unfold Qltb. rewrite negb_true_iff. split.
  - intros Hb. apply Qnot_le_lt. intros Hle.
    apply Qle_bool_iff in Hle. congruence.
  - intros Hlt. destruct (Qle_bool y x) eqn:Hb; [| reflexivity].
    apply Qle_bool_iff in Hb. exfalso. exact (Qlt_not_le _ _ Hlt Hb).
Qed.

Lemma Qltb_nlt (x y : Q) : Qltb x y = false <-> ~ (x < y)%Q.
Proof.
  rewrite <- Qltb_lt. destruct (Qltb x y); split; congruence.
Qed.

Section Gates.

Context `{Registration}.

Lemma masks_fail_jaccard_below (fm mm : image) (t : Q) :
  (jaccard_index fm mm < t)%Q ->
  masks_fail_jaccard (Some t) (Some fm) (Some mm) = true.
Proof.
  intros Hlt. unfold masks_fail_jaccard, jaccard_filter.
  rewrite (proj2 (Qltb_lt _ _) Hlt). reflexivity.
Qed.

(** C6.  With a threshold and both masks supplied and a Jaccard index below
    the threshold, [affine_align] returns the default and makes no call to
    the registration method.  The default it returns is the [default]
    argument, except that an [initial_transform] takes its place when
    [default] is the identity (its value when the caller leaves it out). *)
Theorem affine_align_jaccard_gate
  (fix_im mov_im : image) (fix_spacing mov_spacing : vec3 Q)
  (rigid : bool) (initial_transform : option mat)
  (initialize_with_centering : bool) (alignment_spacing : option Q)
  (fix_mask mov_mask : image) (fix_origin mov_origin : option (vec3 Q))
  (threshold : Q) (default : mat) (kw : kwargs) :
  (jaccard_index fix_mask mov_mask < threshold)%Q ->
  let out := affine_align fix_im mov_im fix_spacing mov_spacing rigid
               initial_transform initialize_with_centering alignment_spacing
               (Some fix_mask) (Some mov_mask) fix_origin mov_origin
               (Some threshold) default kw in
  fst out = Ok (update_default initial_transform default) /\
  registration_calls (snd out) = 0%nat /\
  update_default None default = default /\
  update_default None (eye 4) = eye 4 /\
  (forall it, update_default (Some it) (eye 4) = it) /\
  (forall it, mat_eqb default (eye 4) = false ->
              update_default (Some it) default = default).
Proof.
  intros Hlt out. subst out. unfold affine_align.
  rewrite (masks_fail_jaccard_below _ _ _ Hlt).
  repeat split.
  intros it Hd. unfold update_default. rewrite Hd. reflexivity.
Qed.

(** C5.  When the two metric evaluations and the optimisation in between
    all return, the matrix of the optimised transform is returned exactly
    when the final metric value is strictly below the initial one;
    otherwise the default is returned, after both values are printed. *)
Theorem affine_align_improvement_gate
  (fix_im mov_im : image) (fix_spacing mov_spacing : vec3 Q)
  (rigid : bool) (initial_transform : option mat)
  (initialize_with_centering : bool) (alignment_spacing : option Q)
  (fix_mask mov_mask : option image) (fix_origin mov_origin : option (vec3 Q))
  (jaccard_filter_threshold : option Q) (default : mat) (kw : kwargs)
  (p : prepared) (initial_value final_value : Q) (optimized : transform) :
  masks_fail_jaccard jaccard_filter_threshold fix_mask mov_mask = false ->
  prepare fix_im mov_im fix_spacing mov_spacing rigid initial_transform
    initialize_with_centering alignment_spacing fix_mask mov_mask
    fix_origin mov_origin kw = Ok p ->
  MetricEvaluate (p_irm p) (p_fix p) (p_mov p) = Ok initial_value ->
  Execute (p_irm p) (p_fix p) (p_mov p) = Ok optimized ->
  MetricEvaluate (set_initial (p_irm p) optimized) (p_fix p) (p_mov p) =
    Ok final_value ->
  let out := affine_align fix_im mov_im fix_spacing mov_spacing rigid
               initial_transform initialize_with_centering alignment_spacing
               fix_mask mov_mask fix_origin mov_origin
               jaccard_filter_threshold default kw in
  let result_matrix :=
    affine_transform_to_matrix
      (if rigid && initialize_with_centering
       then as_Euler3DTransform optimized else optimized) in
  ((final_value < initial_value)%Q ->
   out = (Ok result_matrix, [MetricEvaluated; Executed; MetricEvaluated])) /\
  (~ (final_value < initial_value)%Q ->
   out = (Ok (update_default initial_transform default),
          [MetricEvaluated; Executed; MetricEvaluated;
           Printed "Optimization failed to improve metric";
           PrintedValue "initial value: " initial_value;
           PrintedValue "final value: " final_value;
           Printed "Returning default"])) /\
  (In (Printed "Returning default") (snd out) <->
   ~ (final_value < initial_value)%Q).
Proof.
  intros Hgate Hprep Hinit Hexec Hfinal out result_matrix.
  assert (Hout :
    out = if Qltb final_value initial_value
          then (Ok result_matrix, [MetricEvaluated; Executed; MetricEvaluated])
          else (Ok (update_default initial_transform default),
                [MetricEvaluated; Executed; MetricEvaluated;
                 Printed "Optimization failed to improve metric";
                 PrintedValue "initial value: " initial_value;
                 PrintedValue "final value: " final_value;
                 Printed "Returning default"])).
  { subst out. unfold affine_align. rewrite Hgate, Hprep.
    unfold optimize, metric_evaluate, execute, bind, emit, ret. cbn.
    rewrite Hinit. cbn. rewrite Hexec. cbn. rewrite Hfinal. cbn.
    destruct (Qltb final_value initial_value); reflexivity. }
  destruct (Qltb final_value initial_value) eqn:Hb.
  - apply Qltb_lt in Hb. rewrite Hout. split; [reflexivity |].
    split; [intros Hn; contradiction |].
    cbn. split; [| intros Hn; contradiction].
    intros [Hin | [Hin | [Hin | []]]]; discriminate.
  - apply Qltb_nlt in Hb. rewrite Hout. split; [intros Hlt; contradiction |].
    split; [reflexivity |].
    cbn. split; [intros _; exact Hb | intros _; auto 10].
Qed.

End Gates.

(** Disjoint masks (index 0) against a threshold of 1/10: the identity
    default comes back and the registration method is never called. *)
Lemma affine_align_jaccard_gate_witness :
  (@jaccard_index Toy.toy_sitk Toy.mask_left Toy.mask_right < 1 # 10)%Q /\
  fst (@affine_align Toy.toy_sitk Toy.descending
         (Toy.cube 2 [3; 1; 4; 1]%Q) (Toy.cube 2 [1; 5; 9; 2]%Q)
         Toy.unit_spacing Toy.unit_spacing false None false None
         (Some Toy.mask_left) (Some Toy.mask_right) None None
         (Some (1 # 10)) (eye 4) tt) = Ok (eye 4) /\
  registration_calls
    (snd (@affine_align Toy.toy_sitk Toy.descending
            (Toy.cube 2 [3; 1; 4; 1]%Q) (Toy.cube 2 [1; 5; 9; 2]%Q)
            Toy.unit_spacing Toy.unit_spacing false None false None
            (Some Toy.mask_left) (Some Toy.mask_right) None None
            (Some (1 # 10)) (eye 4) tt)) = 0%nat.
Proof.
  assert (Hlt : (@jaccard_index Toy.toy_sitk Toy.mask_left Toy.mask_right
                 < 1 # 10)%Q) by (vm_compute; reflexivity).
  split; [exact Hlt |].
  destruct (@affine_align_jaccard_gate Toy.toy_sitk Toy.descending
              (Toy.cube 2 [3; 1; 4; 1]%Q) (Toy.cube 2 [1; 5; 9; 2]%Q)
              Toy.unit_spacing Toy.unit_spacing false None false None
              Toy.mask_left Toy.mask_right None None (1 # 10) (eye 4) tt Hlt)
    as (Hret & Hcalls & _).
  split; [exact Hret | exact Hcalls].
Defined.

(** An optimiser that lowers the metric from 0 to -1: its transform is
    returned. *)
Lemma affine_align_improvement_gate_witness :
  @affine_align Toy.toy_sitk Toy.descending
    (Toy.cube 2 [3; 1; 4; 1]%Q) (Toy.cube 2 [1; 5; 9; 2]%Q)
    Toy.unit_spacing Toy.unit_spacing false None false None
    None None None None None (eye 4) tt =
  (Ok (translation ((-1)%Q, 0%Q, 0%Q)),
   [MetricEvaluated; Executed; MetricEvaluated]).
Proof.
  refine (proj1
            (@affine_align_improvement_gate Toy.toy_sitk Toy.descending
               (Toy.cube 2 [3; 1; 4; 1]%Q) (Toy.cube 2 [1; 5; 9; 2]%Q)
               Toy.unit_spacing Toy.unit_spacing false None false None
               None None None None None (eye 4) tt
               _ 0%Q (-1)%Q (translation ((0 - 1)%Q, 0%Q, 0%Q))
               eq_refl eq_refl eq_refl eq_refl eq_refl) _).
  vm_compute. reflexivity.
Defined.

(** An optimiser that does not move: the default is returned and both
    metric values are printed. *)
Example affine_align_stalled :
  @affine_align Toy.toy_sitk Toy.stalled
    (Toy.cube 2 [3; 1; 4; 1]%Q) (Toy.cube 2 [1; 5; 9; 2]%Q)
    Toy.unit_spacing Toy.unit_spacing false
    (Some (translation (2%Q, 0%Q, 0%Q))) false None
    None None None None None (eye 4) tt =
  (Ok (translation (2%Q, 0%Q, 0%Q)),
   [MetricEvaluated; Executed; MetricEvaluated;
    Printed "Optimization failed to improve metric";
    PrintedValue "initial value: " 2;
    PrintedValue "final value: " 2;
    Printed "Returning default"]).
Proof. vm_compute. reflexivity. Qed.

End AffineAlignFacts.

(** ** The candidate loop of random_affine_search *)

Module RandomSearchFacts.

Import Numpy Mat AffineAlign RandomSearch.

Lemma length_set_nth {A} (l : list A) (i : nat) (v : A) :
  List.length (set_nth l i v) = List.length l.
Proof.
  unfold set_nth. rewrite length_app.
  rewrite <- (firstn_skipn i l) at 3. rewrite length_app.
  destruct (skipn i l); reflexivity.
Qed.

Lemma nth_set_nth_eq {A} (l : list A) (i : nat) (v d : A) :
  (i < List.length l)%nat -> nth i (set_nth l i v) d = v.
Proof.
  revert i. induction l as [| a l IH]; intros [| i] Hi; cbn in *;
    try lia; [reflexivity |].
  apply (IH i). lia.
Qed.

Lemma nth_set_nth_neq {A} (l : list A) (i j : nat) (v d : A) :
  i <> j -> nth j (set_nth l i v) d = nth j l d.
Proof.
  revert i j. induction l as [| a l IH]; intros i j Hij.
  - unfold set_nth. rewrite firstn_nil, skipn_nil. reflexivity.
  - destruct i as [| i], j as [| j]; try lia; try reflexivity.
    change (set_nth (a :: l) (S i) v) with (a :: set_nth l i v).
    cbn [nth]. apply IH. lia.
Qed.

Lemma length_fill_failed (k : nat) :
  forall scores iii, List.length (fill_failed scores iii k) = List.length scores.
Proof.
  induction k as [| k IH]; intros scores iii; cbn; [reflexivity |].
  rewrite IH. apply length_set_nth.
Qed.

Lemma nth_fill_failed_before (k : nat) :
  forall scores iii i d,
    (i < iii)%nat -> nth i (fill_failed scores iii k) d = nth i scores d.
Proof.
  induction k as [| k IH]; intros scores iii i d Hi; cbn; [reflexivity |].
  rewrite IH by lia. apply nth_set_nth_neq. lia.
Qed.

(** Every slot a failure was recorded in holds the largest float. *)
Lemma nth_fill_failed (k : nat) :
  forall scores iii i d,
    (iii <= i < iii + k)%nat -> (i < List.length scores)%nat ->
    nth i (fill_failed scores iii k) d = float64_max.
Proof.
  induction k as [| k IH]; intros scores iii i d Hi Hlen; cbn; [lia |].
  destruct (Nat.eq_dec i iii) as [-> | Hne].
  - rewrite nth_fill_failed_before by lia. apply nth_set_nth_eq. exact Hlen.
  - apply IH; [lia |]. rewrite length_set_nth. exact Hlen.
Qed.

Lemma registration_calls_app (t u : list event) :
  registration_calls (t ++ u) = (registration_calls t + registration_calls u)%nat.
Proof.
  unfold registration_calls. rewrite filter_app, length_app. reflexivity.
Qed.

Lemma registration_calls_repeat (k : nat) :
  registration_calls (repeat MetricEvaluated k) = k.
Proof.
  induction k as [| k IH]; [reflexivity |].
  cbn [repeat]. change (MetricEvaluated :: repeat MetricEvaluated k)
    with ([MetricEvaluated] ++ repeat MetricEvaluated k).
  rewrite registration_calls_app, IH. reflexivity.
Qed.

Section Loop.

Context `{Registration} `{Numerics}.

(** With an evaluation that always raises, the loop stops at the [k]-th
    failure from where it stands, [k] being what is left of the budget. *)
Lemma score_candidates_all_fail (total : nat) (shape : vec3 Z)
  (spacing : vec3 Q) (f m : sitk_image) :
  always_raising ->
  forall k candidates iii irm scores fail_count,
    (0 < k <= List.length candidates)%nat ->
    Nat.min 10 total = (fail_count + k)%nat ->
    score_candidates total shape spacing f m candidates iii irm scores
      fail_count =
    (Aborted (fill_failed scores iii k) (fail_count + k),
     repeat MetricEvaluated k ++ abort_messages).
Proof.
  intros Hraise. induction k as [| k IH];
    intros candidates iii irm scores fail_count Hk Hmin; [lia |].
  destruct candidates as [| ppp rest]; [cbn in Hk; lia |].
  cbn [score_candidates]. unfold metric_evaluate, bind, emit, ret.
  cbn [fst snd app].
  destruct (Hraise
              (set_moving_initial irm
                 (matrix_to_affine_transform
                    (params_to_affine_matrix shape spacing ppp))) f m)
    as [e ->].
  destruct k as [| k'].
  - assert (Hstop : (10 <=? S fail_count)%nat || (total <=? S fail_count)%nat
                    = true).
    { apply orb_true_iff.
      destruct (Nat.leb_spec 10 (S fail_count)); [now left |].
      right. apply Nat.leb_le. lia. }
    rewrite Hstop. cbn. rewrite Nat.add_1_r. reflexivity.
  - assert (Hgo : (10 <=? S fail_count)%nat || (total <=? S fail_count)%nat
                  = false).
    { apply orb_false_iff. split; apply Nat.leb_gt; lia. }
    rewrite Hgo.
    rewrite (IH rest (S iii) _ (set_nth scores iii float64_max) (S fail_count))
      by (cbn in Hk; lia).
    cbn [fill_failed repeat app].
    replace (S fail_count + S k')%nat with (fail_count + S (S k'))%nat by lia.
    reflexivity.
Qed.

Lemma length_make_params (mt mr ms mh : Q) (n : nat) :
  List.length (make_params mt mr ms mh n) = (n + 1)%nat.
Proof.
  unfold make_params. cbn [List.length].
  rewrite length_map, length_seq. lia.
Qed.

(** C4.  When every metric evaluation raises, the scoring loop writes the
    largest float into the slot of each failing candidate, counts the
    failure, and gives up at failure number [min(10, random_iterations +
    1)]: the function then returns the 4x4 identity, not an exception.  With
    [random_iterations = 20] that is after 10 failures. *)
Theorem random_affine_search_bounded_failures
  (fix_im mov_im : image) (fix_spacing mov_spacing : vec3 Q)
  (max_translation max_rotation max_scale max_shear : Q)
  (random_iterations affine_align_best : nat)
  (alignment_spacing : option Q) (fix_mask mov_mask : option image)
  (fix_origin mov_origin : option (vec3 Q))
  (jaccard_filter_threshold : option Q) (kw : kwargs)
  (uninit : nat -> nat -> Q) (r : search_ready) :
  always_raising ->
  search_setup fix_im mov_im fix_spacing mov_spacing alignment_spacing
    fix_mask mov_mask fix_origin mov_origin kw = Ok r ->
  let out := random_affine_search fix_im mov_im fix_spacing mov_spacing
               max_translation max_rotation max_scale max_shear
               random_iterations affine_align_best alignment_spacing
               fix_mask mov_mask fix_origin mov_origin
               jaccard_filter_threshold kw uninit in
  let budget := Nat.min 10 (random_iterations + 1) in
  let params := make_params max_translation max_rotation max_scale max_shear
                  random_iterations in
  let scores0 := map (uninit 0%nat) (seq 0 (random_iterations + 1)) in
  fst out = Ok (eye 4) /\
  (registration_calls (snd out) <= budget)%nat /\
  (random_iterations = 20%nat -> (registration_calls (snd out) <= 10)%nat) /\
  (masks_fail_jaccard jaccard_filter_threshold fix_mask mov_mask = false ->
   score_all r params random_iterations uninit =
     (Aborted (fill_failed scores0 0 budget) budget, snd out) /\
   snd out = repeat MetricEvaluated budget ++ abort_messages /\
   registration_calls (snd out) = budget /\
   forall i, (i < budget)%nat ->
             nth i (fill_failed scores0 0 budget) 0%Q = float64_max).
Proof.
  intros Hraise Hsetup out budget params scores0.
  assert (Hloop :
    score_all r params random_iterations uninit =
      (Aborted (fill_failed scores0 0 budget) budget,
       repeat MetricEvaluated budget ++ abort_messages)).
  { unfold score_all.
    apply (score_candidates_all_fail (random_iterations + 1) _ _ _ _ Hraise
             budget params 0%nat (r_irm r) scores0 0%nat).
    - subst params. rewrite length_make_params. subst budget. lia.
    - reflexivity. }
  assert (Hcalls :
    registration_calls (repeat MetricEvaluated budget ++ abort_messages)
    = budget).
  { rewrite registration_calls_app, registration_calls_repeat.
    cbn. lia. }
  assert (Hout :
    out = if masks_fail_jaccard jaccard_filter_threshold fix_mask mov_mask
          then (Ok (eye 4), [Printed "Masks failed jaccard_filter";
                             Printed "Returning default"])
          else (Ok (eye 4),
                repeat MetricEvaluated budget ++ abort_messages)).
  { subst out. unfold random_affine_search.
    destruct (masks_fail_jaccard jaccard_filter_threshold fix_mask mov_mask);
      [reflexivity |].
    rewrite Hsetup. fold params. unfold bind. rewrite Hloop.
    cbn [fst snd ret]. rewrite app_nil_r. reflexivity. }
  destruct (masks_fail_jaccard jaccard_filter_threshold fix_mask mov_mask)
    eqn:Hgate; rewrite Hout; cbn [fst snd].
  - split; [reflexivity |]. split; [cbn; lia |].
    split; [intros _; cbn; lia |]. intros Hn; discriminate.
  - split; [reflexivity |]. rewrite Hcalls.
    split; [lia |]. split; [intros ->; subst budget; cbn; lia |].
    intros _. split; [exact Hloop |]. split; [reflexivity |].
    split; [reflexivity |].
    intros i Hi. apply nth_fill_failed; [lia |].
    subst scores0. rewrite length_map, length_seq. subst budget. lia.
Qed.

End Loop.

(** The stub that always raises, [random_iterations = 20]: the identity
    after exactly ten evaluations. *)
Lemma random_affine_search_bounded_failures_witness :
  @random_affine_search Toy.toy_sitk Toy.always_raises Toy.toy_numerics
    (Toy.cube 2 [3; 1; 4; 1]%Q) (Toy.cube 2 [1; 5; 9; 2]%Q)
    Toy.unit_spacing Toy.unit_spacing 4 (1 # 2) 2 (1 # 10) 20 0
    None None None None None None tt (fun _ _ => 0%Q) =
  (Ok (eye 4), repeat MetricEvaluated 10 ++ abort_messages).
Proof.
  destruct (@random_affine_search_bounded_failures
              Toy.toy_sitk Toy.always_raises Toy.toy_numerics
              (Toy.cube 2 [3; 1; 4; 1]%Q) (Toy.cube 2 [1; 5; 9; 2]%Q)
              Toy.unit_spacing Toy.unit_spacing 4 (1 # 2) 2 (1 # 10) 20 0
              None None None None None None tt (fun _ _ => 0%Q) _
              (fun irm f m => ex_intro _ ITKException eq_refl) eq_refl)
    as (Hret & _ & _ & Hloop).
  destruct (Hloop eq_refl) as (_ & Htrace & _).
  apply injective_projections; [exact Hret | exact Htrace].
Defined.

(** *** The candidates and their ranking *)

Import PartitionFacts.

Lemma mat_eq_eye4 : mat_eq (eye 4) (eye 4).
Proof. repeat constructor; reflexivity. Qed.

Lemma matmul_eye_eye (a b : mat) :
  mat_eq a (eye 4) -> mat_eq b (eye 4) -> mat_eq (matmul a b) (eye 4).
Proof.
  intros Ha Hb. unfold mat_eq in Ha, Hb.
  cbv [eye map seq Nat.eqb] in Ha, Hb.
  split_rows. mat_compute.
  repeat constructor;
    repeat match goal with
           | H : (_ == _)%Q |- _ => rewrite H; clear H
           end; ring.
Qed.

Lemma set_block3_eye (r : mat) :
  mat_eq r (eye 3) -> mat_eq (set_block3 (eye 4) r) (eye 4).
Proof.
  intros Hr. unfold mat_eq in Hr. cbv [eye map seq Nat.eqb] in Hr.
  split_rows.
  cbv [set_block3 eye map seq Nat.eqb combine firstn skipn repeat app
       List.length Nat.sub fst snd].
  repeat constructor; assumption || reflexivity.
Qed.

Lemma insert_scored_perm (s : Q) (i : nat) (l : list (Q * nat)) :
  Permutation (insert_scored s i l) ((s, i) :: l).
Proof.
  induction l as [| [s' i'] l IH]; cbn; [reflexivity |].
  destruct (Qle_bool s s'); [reflexivity |].
  rewrite IH. apply perm_swap.
Qed.

Lemma map_snd_combine {A B} (l1 : list A) (l2 : list B) :
  List.length l1 = List.length l2 -> map snd (combine l1 l2) = l2.
Proof.
  revert l2. induction l1 as [| a l1 IH]; intros [| b l2] Hlen;
    try discriminate; cbn; [reflexivity |].
  f_equal. apply IH. now injection Hlen.
Qed.

(** [argsort] returns every index once. *)
Lemma argsort_perm (scores : list Q) :
  Permutation (argsort scores) (seq 0 (List.length scores)).
Proof.
  unfold argsort.
  rewrite <- (map_snd_combine scores (seq 0 (List.length scores)))
    at 2 by (now rewrite length_seq).
  apply Permutation_map.
  induction (combine scores (seq 0 (List.length scores))) as [| [s i] l IH];
    cbn; [reflexivity |].
  rewrite insert_scored_perm. now constructor.
Qed.

Lemma take_rows_all (params : list (list Q)) :
  take_rows params (seq 0 (List.length params)) = params.
Proof.
  unfold take_rows. induction params as [| row params IH]; [reflexivity |].
  cbn [List.length seq map nth]. f_equal.
  rewrite <- seq_shift, map_map. exact IH.
Qed.

(** Sorting by score only reorders the rows. *)
Lemma take_rows_argsort_perm (params : list (list Q)) (scores : list Q) :
  List.length scores = List.length params ->
  Permutation (take_rows params (argsort scores)) params.
Proof.
  intros Hlen. rewrite <- (take_rows_all params) at 2.
  unfold take_rows. apply Permutation_map.
  rewrite <- Hlen. apply argsort_perm.
Qed.

Section Candidates.

Context `{Registration} `{Numerics}.

(** A loop that runs to its end has evaluated every candidate once and
    kept the length of [scores]. *)
Lemma score_candidates_completed (total : nat) (shape : vec3 Z)
  (spacing : vec3 Q) (f m : sitk_image) :
  forall candidates iii irm scores fail_count scores' irm' t,
    score_candidates total shape spacing f m candidates iii irm scores
      fail_count = (Completed scores' irm', t) ->
    registration_calls t = List.length candidates /\
    List.length scores' = List.length scores.
Proof.
  induction candidates as [| ppp rest IH];
    intros iii irm scores fail_count scores' irm' t Hrun.
  - cbn in Hrun. injection Hrun as <- _ <-. split; reflexivity.
  - cbn [score_candidates] in Hrun.
    unfold metric_evaluate, bind, emit, ret in Hrun. cbn [fst snd app] in Hrun.
    destruct (MetricEvaluate _ f m) as [v | e].
    + destruct (score_candidates total shape spacing f m rest (S iii) _
                  (set_nth scores iii v) fail_count) as [ex t'] eqn:Hrest.
      injection Hrun as -> <-.
      destruct (IH _ _ _ _ _ _ _ Hrest) as [Hc Hl].
      rewrite length_set_nth in Hl.
      split; [| exact Hl].
      change (MetricEvaluated :: t') with ([MetricEvaluated] ++ t').
      rewrite registration_calls_app, Hc. reflexivity.
    + destruct ((10 <=? S fail_count)%nat || (total <=? S fail_count)%nat).
      * cbn in Hrun. discriminate.
      * destruct (score_candidates total shape spacing f m rest (S iii) _
                    (set_nth scores iii float64_max) (S fail_count))
          as [ex t'] eqn:Hrest.
        injection Hrun as -> <-.
        destruct (IH _ _ _ _ _ _ _ Hrest) as [Hc Hl].
        rewrite length_set_nth in Hl.
        split; [| exact Hl].
        change (MetricEvaluated :: t') with ([MetricEvaluated] ++ t').
        rewrite registration_calls_app, Hc. reflexivity.
Qed.

(** The identity parameters give the identity matrix, provided scipy turns
    the zero rotation vector into the identity rotation. *)
Lemma params_identity_matrix (shape : vec3 Z) (spacing : vec3 Q) :
  mat_eq (rotvec_as_matrix [0; 0; 0]%Q) (eye 3) ->
  mat_eq (params_to_affine_matrix shape spacing identity_params) (eye 4).
Proof.
  intros HR. unfold params_to_affine_matrix.
  change (firstn 3 (skipn 3 identity_params)) with [0; 0; 0]%Q.
  set (R := rotvec_as_matrix [0; 0; 0]%Q) in *.
  set (c := vzip _ shape spacing).
  apply matmul_eye_eye; [apply mat_eq_eye4 |].
  apply matmul_eye_eye; [apply mat_eq_eye4 |].
  apply matmul_eye_eye; [| apply mat_eq_eye4].
  apply (correct_for_origin_eye (set_block3 (eye 4) R) c).
  apply set_block3_eye. exact HR.
Qed.

(** C10, as the code has it.  In a call that reaches the scoring loop and
    whose loop is not cut short by the failure budget, exactly
    [random_iterations + 1] candidates are scored; the first row of
    [params] is the identity parameters, whose matrix is the 4x4 identity;
    and the ranking only reorders the rows, so the identity is among the
    ranked candidates, the best of which is returned when no refinement is
    asked for. *)
Theorem random_affine_search_candidates
  (fix_im mov_im : image) (fix_spacing mov_spacing : vec3 Q)
  (max_translation max_rotation max_scale max_shear : Q)
  (random_iterations : nat)
  (alignment_spacing : option Q) (fix_mask mov_mask : option image)
  (fix_origin mov_origin : option (vec3 Q))
  (jaccard_filter_threshold : option Q) (kw : kwargs)
  (uninit : nat -> nat -> Q)
  (r : search_ready) (scores : list Q) (irm : irm_state) (t : list event) :
  let params := make_params max_translation max_rotation max_scale max_shear
                  random_iterations in
  let ranked := take_rows params (argsort scores) in
  let shape := shape3 (s_fix (r_sampled r)) in
  let spacing := s_fix_spacing (r_sampled r) in
  mat_eq (rotvec_as_matrix [0; 0; 0]%Q) (eye 3) ->
  masks_fail_jaccard jaccard_filter_threshold fix_mask mov_mask = false ->
  search_setup fix_im mov_im fix_spacing mov_spacing alignment_spacing
    fix_mask mov_mask fix_origin mov_origin kw = Ok r ->
  score_all r params random_iterations uninit = (Completed scores irm, t) ->
  registration_calls t = (random_iterations + 1)%nat /\
  List.length params = (random_iterations + 1)%nat /\
  nth_error params 0 = Some identity_params /\
  mat_eq (params_to_affine_matrix shape spacing identity_params) (eye 4) /\
  Permutation ranked params /\
  In identity_params ranked /\
  random_affine_search fix_im mov_im fix_spacing mov_spacing
    max_translation max_rotation max_scale max_shear
    random_iterations 0 alignment_spacing
    fix_mask mov_mask fix_origin mov_origin
    jaccard_filter_threshold kw uninit =
  (Ok (params_to_affine_matrix shape spacing (nth 0 ranked [])), t).
Proof.
  intros params ranked shape spacing HR Hgate Hsetup Hrun.
  assert (Hlen : List.length params = (random_iterations + 1)%nat)
    by apply length_make_params.
  destruct (score_candidates_completed _ _ _ _ _ _ _ _ _ _ _ _ _ Hrun)
    as [Hcalls Hscores].
  rewrite length_map, length_seq in Hscores.
  assert (Hperm : Permutation ranked params).
  { apply take_rows_argsort_perm. congruence. }
  split; [congruence |]. split; [exact Hlen |].
  split; [reflexivity |].
  split; [apply params_identity_matrix; exact HR |].
  split; [exact Hperm |].
  split.
  { apply (Permutation_in _ (Permutation_sym Hperm)). now left. }
  unfold random_affine_search. rewrite Hgate, Hsetup.
  fold params. unfold bind. rewrite Hrun.
  cbn [fst snd ret Nat.eqb]. rewrite app_nil_r. reflexivity.
Qed.

End Candidates.

(** Three random candidates and a metric that always returns: four
    evaluations, and the identity row among the ranked ones. *)
Lemma random_affine_search_candidates_witness :
  registration_calls (snd Toy.scored) = 4%nat /\
  In identity_params
    (take_rows
       (@make_params Toy.toy_numerics 4 (1 # 2) 2 (1 # 10) 3)
       (argsort Toy.scored_scores)).
Proof.
  assert (HR : mat_eq (@rotvec_as_matrix Toy.toy_numerics [0; 0; 0]%Q) (eye 3))
    by (repeat constructor; vm_compute; reflexivity).
  assert (Hrun :
    @score_all Toy.toy_sitk Toy.descending Toy.toy_numerics Toy.ready
      (@make_params Toy.toy_numerics 4 (1 # 2) 2 (1 # 10) 3)
      3 (fun _ _ => 0%Q) =
    (Completed Toy.scored_scores Toy.scored_irm, snd Toy.scored))
    by (vm_compute; reflexivity).
  destruct (@random_affine_search_candidates
              Toy.toy_sitk Toy.descending Toy.toy_numerics
              (Toy.cube 2 [3; 1; 4; 1]%Q) (Toy.cube 2 [1; 5; 9; 2]%Q)
              Toy.unit_spacing Toy.unit_spacing 4 (1 # 2) 2 (1 # 10) 3
              None None None None None None tt (fun _ _ => 0%Q)
              Toy.ready Toy.scored_scores Toy.scored_irm (snd Toy.scored)
              HR eq_refl eq_refl Hrun)
    as (Hcalls & _ & _ & _ & _ & Hin & _).
  split; [exact Hcalls | exact Hin].
Defined.

(** Twenty random candidates and an evaluation that always raises: the call
    reaches the scoring loop, which gives up after ten candidates, not
    twenty-one. *)
Lemma random_affine_search_aborted_after_ten :
  registration_calls
    (snd (@random_affine_search Toy.toy_sitk Toy.always_raises
            Toy.toy_numerics
            (Toy.cube 2 [3; 1; 4; 1]%Q) (Toy.cube 2 [1; 5; 9; 2]%Q)
            Toy.unit_spacing Toy.unit_spacing 4 (1 # 2) 2 (1 # 10) 20 0
            None None None None None None tt (fun _ _ => 0%Q))) = 10%nat /\
  registration_calls
    (snd (@random_affine_search Toy.toy_sitk Toy.always_raises
            Toy.toy_numerics
            (Toy.cube 2 [3; 1; 4; 1]%Q) (Toy.cube 2 [1; 5; 9; 2]%Q)
            Toy.unit_spacing Toy.unit_spacing 4 (1 # 2) 2 (1 # 10) 20 0
            None None None None None None tt (fun _ _ => 0%Q)))
  <> (20 + 1)%nat.
Proof.
  split; [vm_compute; reflexivity | vm_compute; discriminate].
Qed.

End RandomSearchFacts.

(** ** The level loop of distributed_twist_align *)

Module TwistFacts.

Import Twist.

Section Levels.

Context `{TwistEnv}.

Variables fix_im mov_im : volume.
Variables fix_spacing mov_spacing : vec3 Q.
Variable parameter_schedule : option (list twist_kwargs).
Variable initial_transform_list : option (list (Mat.mat + dfield)).
Variables fix_mask mov_mask : option volume.
Variable intermediates_path : option string.
Variable kw : twist_kwargs.

Abbreviation inner_levels :=
  (inner_levels fix_im fix_spacing parameter_schedule fix_mask kw).
Abbreviation inner_fields :=
  (inner_fields fix_im fix_spacing parameter_schedule fix_mask kw).
Abbreviation level_contribution :=
  (level_contribution fix_im fix_spacing parameter_schedule fix_mask kw).
Abbreviation outer_level_step :=
  (outer_level_step fix_im mov_im fix_spacing mov_spacing parameter_schedule
     initial_transform_list fix_mask mov_mask intermediates_path kw).
Abbreviation outer_levels :=
  (outer_levels fix_im mov_im fix_spacing mov_spacing parameter_schedule
     initial_transform_list fix_mask mov_mask intermediates_path kw).
Abbreviation initial_state :=
  (initial_state fix_im mov_im fix_spacing mov_spacing
     initial_transform_list mov_mask).

(** The inner loop adds up, in order, the fields of its inner levels. *)
Lemma inner_levels_sum (moving : volume) (moving_mask : option volume) :
  forall inner_list n ddd fields,
    inner_fields moving moving_mask inner_list n = Ok fields ->
    inner_levels moving moving_mask inner_list n ddd =
      Ok (fold_left fadd fields ddd, (n + List.length inner_list)%nat).
Proof.
  induction inner_list as [| nblocks rest IH]; intros n ddd fields Hf.
  - cbn in Hf. injection Hf as <-. cbn. now rewrite Nat.add_0_r.
  - cbn in Hf |- *.
    destruct (instance_kwargs parameter_schedule kw n) as [ikw | e];
      [| discriminate].
    destruct (piecewise_field fix_im moving fix_spacing nblocks fix_mask
                moving_mask ikw) as [fld | e]; [| discriminate].
    destruct (Twist.inner_fields fix_im fix_spacing parameter_schedule
                fix_mask kw moving moving_mask rest (S n))
      as [l | e] eqn:Hrest; [| discriminate].
    injection Hf as <-. rewrite (IH (S n) (fadd ddd fld) l Hrest).
    cbn. repeat f_equal. lia.
Qed.

(** What an outer level holds in [ddd] is the mean of its inner fields. *)
Lemma level_contribution_mean (st : twist_state) (inner_list : list (list Z))
  (fields : list dfield) :
  inner_fields (current_moving st) (current_moving_mask st) inner_list
    (counter st) = Ok fields ->
  List.length fields = List.length inner_list /\
  level_contribution st inner_list =
    Ok (field_mean (zeros_like (deform st)) fields,
        (counter st + List.length inner_list)%nat).
Proof.
  intros Hf.
  assert (Hlen : List.length fields = List.length inner_list).
  { clear -Hf. revert Hf. generalize (counter st). revert fields.
    induction inner_list as [| nblocks rest IH]; intros fields n Hf.
    - cbn in Hf. injection Hf as <-. reflexivity.
    - cbn in Hf.
      destruct (instance_kwargs parameter_schedule kw n) as [ikw | e];
        [| discriminate].
      destruct (piecewise_field _ _ _ _ _ _ _) as [fld | e]; [| discriminate].
      destruct (Twist.inner_fields fix_im fix_spacing parameter_schedule
                  fix_mask kw (current_moving st) (current_moving_mask st)
                  rest (S n)) as [l | e] eqn:Hrest; [| discriminate].
      injection Hf as <-. cbn. f_equal. exact (IH l (S n) Hrest). }
  split; [exact Hlen |].
  unfold Twist.level_contribution.
  rewrite (inner_levels_sum _ _ _ _ _ _ Hf).
  unfold field_mean. rewrite Hlen. reflexivity.
Qed.

(** At the first outer level the contribution is computed and then left
    aside: [deform] keeps the value it had. *)
Lemma first_level_keeps_deform (inner_list : list (list Z))
  (st st' : twist_state) :
  outer_level_step 0%nat inner_list st = Ok st' -> deform st' = deform st.
Proof.
  unfold Twist.outer_level_step.
  destruct (level_contribution st inner_list) as [[ddd n] | e];
    [| discriminate].
  intros Hst. injection Hst as <-. reflexivity.
Qed.

(** At every later outer level the contribution is composed onto
    [deform]. *)
Lemma later_level_composes (k : nat) (inner_list : list (list Z))
  (st st' : twist_state) :
  outer_level_step (S k) inner_list st = Ok st' ->
  exists ddd n,
    level_contribution st inner_list = Ok (ddd, n) /\
    deform st' =
      compose_displacement_vector_fields (deform st) ddd fix_spacing.
Proof.
  unfold Twist.outer_level_step.
  destruct (level_contribution st inner_list) as [[ddd n] | e];
    [| discriminate].
  intros Hst. injection Hst as <-. exists ddd, n. split; reflexivity.
Qed.

(** A schedule of one outer level returns the zero field, whatever its
    inner levels found. *)
Lemma single_level_returns_zeros (inner_list : list (list Z)) (out : dfield) :
  distributed_twist_align fix_im mov_im fix_spacing mov_spacing
    parameter_schedule initial_transform_list fix_mask mov_mask
    intermediates_path kw [inner_list] = Ok out ->
  out = zeros_field fix_im.
Proof.
  unfold distributed_twist_align. cbn [Twist.outer_levels].
  destruct (outer_level_step 0%nat inner_list initial_state)
    as [st' | e] eqn:Hstep; [| discriminate].
  intros Hout. injection Hout as <-.
  rewrite (first_level_keeps_deform _ _ _ Hstep). reflexivity.
Qed.

End Levels.

(** C1.  A schedule of one outer level with the inner levels (2, 1, 1) and
    (1, 2, 1), whose fields are (2, 1, 1) and (1, 2, 1): the contribution
    of the level is their mean (3/2, 3/2, 1), and the deform after the
    level, which is what the function returns, is still the zero field. *)
Theorem twist_first_level_contribution_dropped :
  @level_contribution Toy.toy_twist 7 Toy.unit_spacing None None tt
    (@initial_state Toy.toy_twist 7 9 Toy.unit_spacing Toy.unit_spacing
       None None)
    [[2; 1; 1]; [1; 2; 1]] = Ok ([3 # 2; 3 # 2; 1]%Q, 2%nat) /\
  @field_mean Toy.toy_twist [0; 0; 0]%Q [[2; 1; 1]; [1; 2; 1]]%Q =
    [3 # 2; 3 # 2; 1]%Q /\
  @distributed_twist_align Toy.toy_twist 7 9 Toy.unit_spacing
    Toy.unit_spacing None None None None None tt
    [[[2; 1; 1]; [1; 2; 1]]] = Ok [0; 0; 0]%Q /\
  [0; 0; 0]%Q <> [3 # 2; 3 # 2; 1]%Q.
Proof.
  split; [vm_compute; reflexivity |].
  split; [vm_compute; reflexivity |].
  split; [vm_compute; reflexivity |].
  discriminate.
Qed.

End TwistFacts.

(** ** Sampling and stitching of the exhaustive translation search *)

Module TranslationFacts.

Import Numpy Translation.

Ltac break_vec3 :=
  repeat match goal with
         | v : vec3 _ |- _ => destruct v as [[? ?] ?]
         end.

Lemma adjust_index_inside (n i : Z) :
  0 <= i <= n -> adjust_index n 1 i = i.
Proof.
  intros Hi. unfold adjust_index.
  destruct (Z.ltb_spec i 0); [lia |].
  destruct (Z.leb_spec n i); [| reflexivity].
  cbn. lia.
Qed.

(** A window that lies inside the axis is taken whole by the slice. *)
Lemma slice_of_inside (n c r : Z) :
  inside n c r -> 0 <= r ->
  slice_of n c r = (c - r, c + r + 1) /\ extent (slice_of n c r) = 2 * r + 1.
Proof.
  intros [Hlo Hhi] Hr. unfold slice_of.
  rewrite !adjust_index_inside by lia.
  split; [reflexivity |].
  unfold extent, slice_length. cbn [fst snd].
  destruct (Z.ltb_spec 1 0); [lia |].
  destruct (Z.ltb_spec (c - r) (c + r + 1)); [| lia].
  rewrite Z.div_1_r. lia.
Qed.

Lemma inside_smaller (n c r r' : Z) : inside n c r -> r' <= r -> inside n c r'.
Proof. unfold inside. lia. Qed.

(** The indices [limit : -limit : step] selects keep [limit] entries free
    on both sides. *)
Lemma slice_indices_inside (n limit step : Z) (l : list Z) (x : Z) :
  0 <= n -> 0 < step -> 0 < limit ->
  slice_indices n limit (- limit) step = Ok l ->
  In x l -> inside n x limit.
Proof.
  intros Hn Hstep Hlimit Hl Hx. unfold slice_indices in Hl.
  destruct (Z.eqb_spec step 0); [lia |].
  injection Hl as <-. apply in_map_iff in Hx as (i & <- & Hi).
  apply in_seq in Hi. revert Hi.
  unfold adjust_index, slice_length, inside.
  destruct (Z.ltb_spec step 0); [lia |].
  destruct (Z.ltb_spec limit 0); [lia |].
  destruct (Z.ltb_spec (- limit) 0); [| lia].
  destruct (Z.leb_spec n limit), (Z.ltb_spec (- limit + n) 0);
    match goal with
    | |- context [if ?a <? ?b then _ else _] => destruct (Z.ltb_spec a b)
    end; cbn; try lia.
  intros Hi.
  pose proof (Z.mul_div_le (- limit + n - limit - 1) step Hstep).
  assert (Z.of_nat i <= (- limit + n - limit - 1) / step) by lia.
  nia.
Qed.

Lemma slice_indices_ok (n start stop step : Z) :
  step <> 0 -> exists l, slice_indices n start stop step = Ok l.
Proof.
  intros Hstep. unfold slice_indices.
  destruct (Z.eqb_spec step 0); [contradiction |]. eexists. reflexivity.
Qed.

Lemma edge_limit_bounds (radius stride : vec3 Z) :
  all3 (fun s => 0 < s) stride ->
  let limit := edge_limit radius stride in
  all3 (fun l => 0 < l) limit /\
  (let '(l0, l1, l2) := limit in
   let '(r0, r1, r2) := radius in
   let '(s0, s1, s2) := stride in
   (r0 <= l0 /\ s0 <= l0) /\ (r1 <= l1 /\ s1 <= l1) /\ (r2 <= l2 /\ s2 <= l2)).
Proof.
  break_vec3. cbn. intros (H0 & H1 & H2).
  repeat match goal with
         | |- context [if ?a <? ?b then _ else _] => destruct (Z.ltb_spec a b)
         end; lia.
Qed.

(** Every sample point keeps the whole limit free on every side, with or
    without a mask. *)
Lemma sample_points_inside (n0 n1 n2 l0 l1 l2 s0 s1 s2 : Z)
  (mask : option (vec3 Z -> bool)) (samples : list (vec3 Z)) (c : vec3 Z) :
  all3 (fun n => 0 <= n) (n0, n1, n2) ->
  all3 (fun s => 0 < s) (s0, s1, s2) ->
  all3 (fun l => 0 < l) (l0, l1, l2) ->
  sample_points (n0, n1, n2) (l0, l1, l2) (s0, s1, s2) mask = Ok samples ->
  In c samples -> inside3 (n0, n1, n2) c (l0, l1, l2).
Proof.
  destruct c as [[c0 c1] c2]. cbn [all3 inside3].
  intros (Hn0 & Hn1 & Hn2) (Hs0 & Hs1 & Hs2) (Hl0 & Hl1 & Hl2).
  unfold sample_points.
  destruct (slice_indices n0 l0 (- l0) s0) as [xs | e] eqn:Hx;
    [| discriminate].
  destruct (slice_indices n1 l1 (- l1) s1) as [ys | e] eqn:Hy;
    [| discriminate].
  destruct (slice_indices n2 l2 (- l2) s2) as [zs | e] eqn:Hz;
    [| discriminate].
  intros Hsamples Hin. injection Hsamples as <-.
  assert (Hgrid :
    In (c0, c1, c2)
       (flat_map (fun x => flat_map (fun y => map (fun z => (x, y, z)) zs) ys)
          xs)).
  { destruct mask as [keep |]; [| exact Hin].
    apply filter_In in Hin. tauto. }
  apply in_flat_map in Hgrid as (x & Hxin & Hgrid).
  apply in_flat_map in Hgrid as (y & Hyin & Hgrid).
  apply in_map_iff in Hgrid as (z' & Heq & Hzin).
  injection Heq as -> -> ->.
  split; [| split].
  - exact (slice_indices_inside n0 l0 s0 xs c0 Hn0 Hs0 Hl0 Hx Hxin).
  - exact (slice_indices_inside n1 l1 s1 ys c1 Hn1 Hs1 Hl1 Hy Hyin).
  - exact (slice_indices_inside n2 l2 s2 zs c2 Hn2 Hs2 Hl2 Hz Hzin).
Qed.

(** A mask only removes sample points. *)
Lemma sample_points_mask_incl (shape limit stride : vec3 Z)
  (keep : vec3 Z -> bool) (samples : list (vec3 Z)) :
  sample_points shape limit stride (Some keep) = Ok samples ->
  exists grid,
    sample_points shape limit stride None = Ok grid /\
    samples = filter keep grid /\ incl samples grid.
Proof.
  destruct shape as [[n0 n1] n2], limit as [[l0 l1] l2],
    stride as [[s0 s1] s2].
  unfold sample_points.
  destruct (slice_indices n0 l0 (- l0) s0) as [xs | e]; [| discriminate].
  destruct (slice_indices n1 l1 (- l1) s1) as [ys | e]; [| discriminate].
  destruct (slice_indices n2 l2 (- l2) s2) as [zs | e]; [| discriminate].
  intros Hs. injection Hs as <-. eexists. split; [reflexivity |].
  split; [reflexivity |]. apply incl_filter.
Qed.

Lemma sample_points_ok (shape limit stride : vec3 Z)
  (mask : option (vec3 Z -> bool)) :
  all3 (fun s => 0 < s) stride ->
  exists samples, sample_points shape limit stride mask = Ok samples.
Proof.
  destruct shape as [[n0 n1] n2], limit as [[l0 l1] l2],
    stride as [[s0 s1] s2].
  cbn [all3]. intros (Hs0 & Hs1 & Hs2). unfold sample_points.
  destruct (slice_indices_ok n0 l0 (- l0) s0 ltac:(lia)) as [xs ->].
  destruct (slice_indices_ok n1 l1 (- l1) s1 ltac:(lia)) as [ys ->].
  destruct (slice_indices_ok n2 l2 (- l2) s2 ltac:(lia)) as [zs ->].
  eexists. reflexivity.
Qed.

Lemma broadcastable_refl (n : Z) : broadcastable n n = true.
Proof. unfold broadcastable. rewrite Z.eqb_refl. reflexivity. Qed.

(** Blocks of full extent can be read around a point whose window lies
    inside the array, and a weight array can be added there. *)
Lemma copy_fits_inside (shape c r : vec3 Z) :
  all3 (fun x => 0 <= x) r -> inside3 shape c r -> copy_fits shape c r = true.
Proof.
  destruct shape as [[n0 n1] n2], c as [[c0 c1] c2], r as [[r0 r1] r2].
  cbn [all3 inside3 copy_fits]. intros (H0 & H1 & H2) (I0 & I1 & I2).
  rewrite (proj2 (slice_of_inside n0 c0 r0 I0 H0)).
  rewrite (proj2 (slice_of_inside n1 c1 r1 I1 H1)).
  rewrite (proj2 (slice_of_inside n2 c2 r2 I2 H2)).
  rewrite !broadcastable_refl. reflexivity.
Qed.

Lemma add_fits_inside (shape c s : vec3 Z) :
  all3 (fun x => 0 <= x) s -> inside3 shape c s -> add_fits shape c s = true.
Proof.
  destruct shape as [[n0 n1] n2], c as [[c0 c1] c2], s as [[s0 s1] s2].
  cbn [all3 inside3 add_fits]. intros (H0 & H1 & H2) (I0 & I1 & I2).
  rewrite (proj2 (slice_of_inside n0 c0 s0 I0 H0)).
  rewrite (proj2 (slice_of_inside n1 c1 s1 I1 H1)).
  rewrite (proj2 (slice_of_inside n2 c2 s2 I2 H2)).
  rewrite !broadcastable_refl. reflexivity.
Qed.

(** Stitching adds, voxel by voxel, the contributions of the samples in
    order; nothing is divided out. *)
Lemma stitch_sums (shape stride : vec3 Z) :
  forall samples dvf0 dvf,
    stitch shape stride dvf0 samples = Ok dvf ->
    forall p, dvf p = summed_at shape stride dvf0 samples p.
Proof.
  induction samples as [| [t c] rest IH]; intros dvf0 dvf Hst p.
  - cbn in Hst. injection Hst as <-. reflexivity.
  - cbn [stitch] in Hst. unfold add_sample in Hst.
    destruct (add_fits shape c stride); [| discriminate].
    rewrite (IH _ _ Hst p). reflexivity.
Qed.

(** Stitching goes through when every window lies inside the array. *)
Lemma stitch_ok (shape stride : vec3 Z) :
  all3 (fun x => 0 <= x) stride ->
  forall samples dvf0,
    (forall t c, In (t, c) samples -> inside3 shape c stride) ->
    exists dvf, stitch shape stride dvf0 samples = Ok dvf.
Proof.
  intros Hs. induction samples as [| [t c] rest IH]; intros dvf0 Hin.
  - eexists. reflexivity.
  - cbn [stitch]. unfold add_sample.
    rewrite (add_fits_inside shape c stride Hs) by (apply (Hin t); now left).
    apply IH. intros t' c' H'. apply (Hin t'). now right.
Qed.

Lemma inside3_smaller (shape c r r' : vec3 Z) :
  inside3 shape c r ->
  (let '(a0, a1, a2) := r' in
   let '(b0, b1, b2) := r in
   a0 <= b0 /\ a1 <= b1 /\ a2 <= b2) ->
  inside3 shape c r'.
Proof.
  destruct shape as [[n0 n1] n2], c as [[c0 c1] c2], r as [[r0 r1] r2],
    r' as [[a0 a1] a2].
  cbn [inside3]. unfold inside. lia.
Qed.

Lemma linear_ramp_center (s i : Z) : i = s -> linear_ramp s i = 1%Q.
Proof.
  intros ->. unfold linear_ramp. rewrite Z.eqb_refl. reflexivity.
Qed.

Lemma linear_ramp_edge (s i : Z) :
  0 < s -> i = 0 \/ i = 2 * s -> (linear_ramp s i == 0)%Q.
Proof.
  intros Hs Hi. unfold linear_ramp.
  destruct (Z.eqb_spec i s); [lia |].
  destruct (Z.ltb_spec i s).
  - replace i with 0 by lia. unfold Qdiv. ring.
  - replace (2 * s - i) with 0 by lia. unfold Qdiv. ring.
Qed.

Lemma in_slice_inside (n c s p : Z) :
  inside n c s -> 0 <= s ->
  in_slice (slice_of n c s) p = (c - s <=? p) && (p <? c + s + 1).
Proof.
  intros Hin Hs. rewrite (proj1 (slice_of_inside n c s Hin Hs)). reflexivity.
Qed.


(** *** Storing into the float32 field *)

Lemma accumulate_ext (w w' old old' t t' : Q) :
  (w == w')%Q -> (old == old')%Q -> (t == t')%Q ->
  accumulate w old t = accumulate w' old' t'.
Proof.
  intros Hw Ho Ht. unfold accumulate, float32, float64.
  apply FloatFacts.fl_round_ext.
  rewrite (FloatFacts.fl_round_ext 53 (t * w) (t' * w'))
    by (rewrite Hw, Ht; reflexivity).
  rewrite (FloatFacts.fl_round_ext 53 _ (old' + fl_round 53 (t' * w')))
    by (rewrite Ho; reflexivity).
  reflexivity.
Qed.

(** Onto an empty entry and with weight 1, what is stored is the float32
    of the translation. *)
Lemma accumulate_first (w t : Q) :
  (w == 1)%Q -> accumulate w 0 t = float32 (float64 t).
Proof.
  intros Hw. unfold accumulate, float32, float64.
  apply FloatFacts.fl_round_ext.
  rewrite (FloatFacts.fl_round_ext 53 (t * w) t) by (rewrite Hw; ring).
  rewrite (FloatFacts.fl_round_ext 53 (0 + fl_round 53 t) (fl_round 53 t))
    by apply Qplus_0_l.
  apply FloatFacts.float64_float64.
Qed.

(** With weight 0 the entry keeps the float32 it holds. *)
Lemma accumulate_nothing (w old t : Q) :
  (w == 0)%Q -> (float32 old == old)%Q -> (accumulate w old t == old)%Q.
Proof.
  intros Hw Hold. unfold accumulate, float32, float64 in *.
  rewrite (FloatFacts.fl_round_0 53 (t * w)) by (rewrite Hw; ring).
  rewrite (FloatFacts.fl_round_ext 53 (old + 0) (fl_round 24 old))
    by (rewrite Hold; ring).
  rewrite (FloatFacts.fl_round_ext 24 (fl_round 53 (fl_round 24 old))
             (fl_round 24 old) (FloatFacts.float64_float32 old)).
  pose proof (FloatFacts.float32_float32 old) as Hid.
  unfold float32 in Hid. rewrite Hid. exact Hold.
Qed.

(** A float32 goes through the double product untouched. *)
Lemma float32_of_float64 (t : Q) :
  (float32 t == t)%Q -> (float32 (float64 t) == t)%Q.
Proof.
  intros Ht. unfold float32, float64 in *.
  rewrite (FloatFacts.fl_round_ext 53 t (fl_round 24 t))
    by (symmetry; exact Ht).
  rewrite (FloatFacts.fl_round_ext 24 (fl_round 53 (fl_round 24 t))
             (fl_round 24 t) (FloatFacts.float64_float32 t)).
  pose proof (FloatFacts.float32_float32 t) as Hid.
  unfold float32 in Hid. rewrite Hid. exact Ht.
Qed.

Section Sampling.

Variable block_translation : vec3 Z -> result (vec3 Q).
Variable empty_chunk : result unit.
Variable gaussian_filter : (vec3 Z -> Q) -> vec3 Q -> vec3 Z -> Q.

(** The translations that come back belong, one by one, to the samples. *)
Lemma translations_of_spec (samples : list (vec3 Z)) :
  forall ts,
    translations_of block_translation samples = Ok ts ->
    Forall2 (fun t c => block_translation c = Ok t) ts samples.
Proof.
  induction samples as [| c rest IH]; intros ts Hts; cbn in Hts.
  - injection Hts as <-. constructor.
  - destruct (block_translation c) as [t |] eqn:Ht; [| discriminate].
    destruct (translations_of block_translation rest) as [ts' |];
      [| discriminate].
    injection Hts as <-. constructor; [exact Ht | now apply IH].
Qed.

Lemma translations_of_ok (samples : list (vec3 Z)) :
  (forall c, In c samples -> exists t, block_translation c = Ok t) ->
  exists ts, translations_of block_translation samples = Ok ts.
Proof.
  induction samples as [| c rest IH]; intros Hall; cbn.
  - eexists. reflexivity.
  - destruct (Hall c) as [t Ht]; [now left |]. rewrite Ht.
    destruct IH as [ts Hts]; [intros c' Hc'; apply Hall; now right |].
    rewrite Hts. eexists. reflexivity.
Qed.

Lemma dispatch_spec (samples : list (vec3 Z)) (ts : list (vec3 Q)) :
  dispatch block_translation empty_chunk samples = Ok ts ->
  Forall2 (fun t c => block_translation c = Ok t) ts samples.
Proof.
  destruct samples as [| c rest]; cbn [dispatch].
  - destruct empty_chunk; [| discriminate].
    intros Hts. injection Hts as <-. constructor.
  - apply translations_of_spec.
Qed.

(** C9.  Every sample centre keeps at least the per-axis limit (the larger
    of search radius and stride) between itself and both ends of every
    axis; a mask only removes centres.  Hence the slices read around a
    centre for the fixed and the moving block, and the window written
    around it when stitching, lie inside the array and have their full
    extent, and the function returns a field as soon as the translation
    search returns for every block. *)
Theorem samples_keep_full_context
  (shape : vec3 Z) (fix_spacing : vec3 Q)
  (stride query_radius num_steps step_sizes : vec3 Z) (smooth_sigma : Q)
  (mask : option (vec3 Z -> bool)) :
  all3 (fun n => 0 <= n) shape ->
  all3 (fun s => 0 < s) stride ->
  all3 (fun q => 0 <= q) query_radius ->
  all3 (fun k => 0 <= k) num_steps ->
  all3 (fun k => 0 <= k) step_sizes ->
  let radius := search_radius query_radius num_steps step_sizes in
  let limit := edge_limit radius stride in
  exists samples grid,
    sample_points shape limit stride mask = Ok samples /\
    sample_points shape limit stride None = Ok grid /\
    incl samples grid /\
    (forall c, In c samples ->
       inside3 shape c limit /\
       inside3 shape c radius /\
       inside3 shape c query_radius /\
       inside3 shape c stride /\
       copy_fits shape c radius = true /\
       copy_fits shape c query_radius = true /\
       add_fits shape c stride = true) /\
    ((exists ts, dispatch block_translation empty_chunk samples = Ok ts) ->
     exists dvf,
       distributed_piecewise_exhaustive_translation block_translation
         empty_chunk gaussian_filter shape fix_spacing stride query_radius
         num_steps step_sizes smooth_sigma mask = Ok dvf).
Proof.
  intros Hshape Hstride Hq Hns Hss radius limit.
  destruct (edge_limit_bounds radius stride Hstride) as [Hlimit Hle].
  fold limit in Hlimit, Hle.
  destruct (sample_points_ok shape limit stride mask Hstride)
    as [samples Hsamples].
  assert (Hgrid : exists grid,
             sample_points shape limit stride None = Ok grid /\
             incl samples grid).
  { destruct mask as [keep |].
    - destruct (sample_points_mask_incl _ _ _ _ _ Hsamples)
        as (grid & Hg & _ & Hincl).
      exists grid. split; assumption.
    - exists samples. split; [exact Hsamples | apply incl_refl]. }
  destruct Hgrid as (grid & Hgrid & Hincl).
  assert (Hradius : all3 (fun x => 0 <= x) radius).
  { subst radius. destruct query_radius as [[q0 q1] q2],
      num_steps as [[k0 k1] k2], step_sizes as [[z0 z1] z2].
    cbn in *. nia. }
  assert (Hstride0 : all3 (fun x => 0 <= x) stride).
  { destruct stride as [[s0 s1] s2]. cbn in *. lia. }
  assert (Hall : forall c, In c samples ->
            inside3 shape c limit /\ inside3 shape c radius /\
            inside3 shape c query_radius /\ inside3 shape c stride).
  { intros c Hc.
    assert (Hin : inside3 shape c limit).
    { revert Hsamples Hc Hlimit. clear -Hshape Hstride.
      destruct shape as [[n0 n1] n2], stride as [[s0 s1] s2],
        limit as [[l0 l1] l2].
      intros Hsamples Hc Hlimit.
      exact (sample_points_inside _ _ _ _ _ _ _ _ _ mask samples c
               Hshape Hstride Hlimit Hsamples Hc). }
    split; [exact Hin |].
    assert (Hr : inside3 shape c radius).
    { apply (inside3_smaller shape c limit radius Hin).
      destruct radius as [[r0 r1] r2], limit as [[l0 l1] l2],
        stride as [[s0 s1] s2]. lia. }
    split; [exact Hr |]. split.
    - apply (inside3_smaller shape c radius query_radius Hr).
      subst radius. destruct query_radius as [[q0 q1] q2],
        num_steps as [[k0 k1] k2], step_sizes as [[z0 z1] z2].
      cbn in *. nia.
    - apply (inside3_smaller shape c limit stride Hin).
      destruct radius as [[r0 r1] r2], limit as [[l0 l1] l2],
        stride as [[s0 s1] s2]. lia. }
  exists samples, grid.
  split; [exact Hsamples |]. split; [exact Hgrid |]. split; [exact Hincl |].
  split.
  { intros c Hc. destruct (Hall c Hc) as (Hl & Hr & Hqr & Hst).
    repeat split; try assumption.
    - apply copy_fits_inside; assumption.
    - apply copy_fits_inside; assumption.
    - apply add_fits_inside; assumption. }
  intros [ts Hts].
  unfold distributed_piecewise_exhaustive_translation.
  fold radius. fold limit. rewrite Hsamples.
  assert (Hcopy :
    forallb (fun c => copy_fits shape c radius &&
                      copy_fits shape c query_radius) samples = true).
  { apply forallb_forall. intros c Hc.
    destruct (Hall c Hc) as (_ & Hr & Hqr & _).
    rewrite (copy_fits_inside _ _ _ Hradius Hr).
    rewrite (copy_fits_inside _ _ _ Hq Hqr). reflexivity. }
  rewrite Hcopy, Hts.
  destruct (stitch_ok shape stride Hstride0 (combine ts samples)
              (fun _ => vzero)) as [dvf Hdvf].
  { intros t c Htc. apply in_combine_r in Htc.
    destruct (Hall c Htc) as (_ & _ & _ & Hst). exact Hst. }
  rewrite Hdvf. eexists. reflexivity.
Qed.

End Sampling.

(** A volume of 9x9x9 voxels, stride 2, query radius 1 and one search step
    of one voxel: the limit is 2 and the function returns a field. *)
Lemma samples_keep_full_context_witness :
  exists dvf,
    distributed_piecewise_exhaustive_translation
      (fun _ => Ok (1, 2, 3)%Q) (Ok tt) (fun f _ p => f p)
      (9, 9, 9) Toy.unit_spacing (2, 2, 2) (1, 1, 1) (1, 1, 1) (1, 1, 1)
      0%Q None = Ok dvf.
Proof.
  destruct (samples_keep_full_context
              (fun _ => Ok (1, 2, 3)%Q) (Ok tt) (fun f _ p => f p)
              (9, 9, 9) Toy.unit_spacing (2, 2, 2) (1, 1, 1) (1, 1, 1)
              (1, 1, 1) 0%Q None)
    as (samples & grid & Hsamples & _ & _ & _ & Hrun);
    try (cbn; lia).
  apply Hrun.
  destruct samples as [| c rest]; [exists []; reflexivity |].
  apply (translations_of_ok (fun _ => Ok (1, 2, 3)%Q) (c :: rest)).
  intros c' _. eexists. reflexivity.
Defined.




(** Two samples two voxels apart: half way between them each contributes
    half of its translation. *)
Example stitch_two_samples :
  match stitch (9, 9, 9) (2, 2, 2) (fun _ => vzero)
          [((4, 0, 0)%Q, (2, 4, 4)); ((0, 6, 0)%Q, (4, 4, 4))] with
  | Ok dvf => veq (dvf (3, 4, 4)) (2, 3, 0)%Q /\ veq (dvf (2, 4, 4)) (4, 0, 0)%Q
  | Raise _ => False
  end.
Proof. vm_compute. repeat split. Qed.

(** A window that sticks out of the array is refused, not clipped. *)
Example add_sample_out_of_bounds :
  match add_sample (9, 9, 9) (2, 2, 2) (fun _ => vzero) (1, 1, 1)%Q (1, 4, 4) with
  | Ok _ => False
  | Raise e => e = ValueError
  end.
Proof. vm_compute. reflexivity. Qed.

End TranslationFacts.

(** ** More on the block geometry *)

Module PartitionMore.

Import Numpy Mat Partition.

Lemma round_half_even_ge (a b c : Z) :
  0 < b -> c * b <= a -> c <= round_half_even a b.
Proof.
  intros Hb Hle. unfold round_half_even.
  pose proof (Z.mod_pos_bound a b Hb) as Hr.
  assert (c <= a / b) by (apply Z.div_le_lower_bound; lia).
  destruct (Z.ltb_spec (2 * (a mod b)) b); [lia |].
  destruct (Z.ltb_spec b (2 * (a mod b))); [lia |].
  destruct (Z.even (a / b)); lia.
Qed.

Lemma cast_int16_small (z : Z) : -32768 <= z <= 32767 -> cast_int16 z = z.
Proof.
  intros Hz. unfold cast_int16. rewrite Z.mod_small by lia. lia.
Qed.

(** X1.  The trailing pad never amounts to a whole block, and there is none
    exactly when the axis is already a whole number of blocks. *)
Theorem pad_axis_less_than_block (x y : Z) :
  0 < y ->
  fst (pad_axis x y) = 0 /\
  0 <= snd (pad_axis x y) < y /\
  (snd (pad_axis x y) = 0 <-> (y | x)).
Proof.
  intros Hy. unfold pad_axis, np_mod.
  destruct (Z.eqb_spec y 0); [lia |].
  pose proof (Z.mod_pos_bound x y Hy) as Hb.
  destruct (Z.ltb_spec 0 (x mod y)); cbn [fst snd].
  - split; [reflexivity |]. split; [lia |]. split; [lia |].
    intros Hdiv. apply Z.mod_divide in Hdiv; lia.
  - split; [reflexivity |]. split; [lia |]. split; [| reflexivity].
    intros _. apply Z.mod_divide; lia.
Qed.

Lemma pad_axis_less_than_block_witness :
  snd (pad_axis 10 4) = 2 /\ 0 <= snd (pad_axis 10 4) < 4.
Proof.
  destruct (pad_axis_less_than_block 10 4 ltac:(lia)) as (_ & Hb & _).
  split; [reflexivity | exact Hb].
Defined.

(** X2.  The padded axis holds at least one and at most the requested number of
    blocks.  (It can hold fewer: ten voxels in six blocks give blocks of two
    voxels, hence five of them.) *)
Theorem block_count_at_most_requested (x n : Z) :
  0 < x < 2 ^ 24 -> 0 < n -> (x + n - 1) / n <= 32767 ->
  let bs := blocksize_axis x n in
  let padded := fst (pad_axis x bs) + x + snd (pad_axis x bs) in
  exists k, padded = k * bs /\ 1 <= k <= n.
Proof.
  intros Hx Hn Hfit bs padded. subst padded bs.
  rewrite (PartitionFacts.blocksize_axis_exact x n Hx Hn Hfit).
  pose proof (NumpyFacts.ceil_div_spec x n Hn) as Hc.
  set (c := (x + n - 1) / n) in *.
  assert (Hc0 : 0 < c) by nia.
  unfold pad_axis, np_mod.
  destruct (Z.eqb_spec c 0); [lia |].
  pose proof (Z.mod_pos_bound x c Hc0) as Hb.
  pose proof (Z.div_mod x c ltac:(lia)) as Hdm.
  destruct (Z.ltb_spec 0 (x mod c)); cbn [fst snd].
  - exists (x / c + 1). split; [nia |].
    assert (0 <= x / c) by (apply Z.div_pos; lia).
    assert (Hne : x <> n * c).
    { intros E. rewrite E, Z.mod_mul in * by lia. lia. }
    assert (x / c < n) by (apply Z.div_lt_upper_bound; lia).
    lia.
  - exists (x / c). assert (x mod c = 0) by lia. split; [nia |].
    assert (x / c <= n) by (apply Z.div_le_upper_bound; nia).
    assert (0 < x / c) by nia. lia.
Qed.

Lemma block_count_at_most_requested_witness :
  exists k,
    fst (pad_axis 10 (blocksize_axis 10 6)) + 10 +
    snd (pad_axis 10 (blocksize_axis 10 6)) = k * blocksize_axis 10 6 /\
    1 <= k <= 6.
Proof.
  apply (block_count_at_most_requested 10 6); [lia | lia |].
  vm_compute. discriminate.
Defined.

Example five_blocks_for_six :
  blocksize_axis 10 6 = 2 /\ pad_axis 10 2 = (0, 0).
Proof. split; vm_compute; reflexivity. Qed.

Lemma np_round_bounds (x : Q) (lo hi : Z) :
  (inject_Z lo <= x)%Q -> (x <= inject_Z hi)%Q -> lo <= np_round x <= hi.
Proof.
  destruct x as [p q]. unfold Qle, np_round. cbn [Qnum Qden inject_Z].
  intros Hlo Hhi. split.
  - apply round_half_even_ge; lia.
  - apply NumpyFacts.round_half_even_le; lia.
Qed.

(** X3.  For an overlap fraction between 0 and 1 the halo depth, which is
    the rounding of the double [blocksize * overlap], lies between 0 and
    the block size. *)
Theorem overlap_within_block (b : Z) (overlap : Q) :
  0 <= b <= 32767 -> (0 <= overlap <= 1)%Q ->
  0 <= overlap_axis b overlap <= b.
Proof.
  intros Hb [Ho0 Ho1]. unfold overlap_axis.
  set (x := (inject_Z b * overlap)%Q).
  assert (Hb0 : (0 <= inject_Z b)%Q)
    by (change 0%Q with (inject_Z 0); rewrite <- Zle_Qle; lia).
  assert (Hx0 : (0 <= x)%Q) by (apply Qmult_le_0_compat; assumption).
  assert (Hx1 : (x <= inject_Z b)%Q).
  { unfold x.
    apply Qle_trans with (inject_Z b * 1)%Q;
      [| rewrite Qmult_1_r; apply Qle_refl].
    apply Qmult_le_compat_nonneg; split;
      [exact Hb0 | apply Qle_refl | exact Ho0 | exact Ho1]. }
  assert (Hf0 : (inject_Z 0 <= float64 x)%Q)
    by (apply FloatFacts.fl_round_nonneg; exact Hx0).
  assert (Hf1 : (float64 x <= inject_Z b)%Q).
  { destruct (Qlt_le_dec 0 x) as [Hpos | Hle].
    - apply FloatFacts.fl_round_le_representable;
        [lia | exact Hpos | exact Hx1 |].
      apply FloatFacts.representable_Z.
      assert (2 ^ 15 <= 2 ^ 53) by (apply Z.pow_le_mono_r; lia). lia.
    - unfold float64.
      rewrite (FloatFacts.fl_round_0 53 x) by (now apply Qle_antisym).
      exact Hb0. }
  pose proof (np_round_bounds _ _ _ Hf0 Hf1) as Hr.
  rewrite cast_int16_small by lia. lia.
Qed.

Lemma overlap_within_block_witness :
  0 <= overlap_axis 33 (1 # 2) <= 33.
Proof.
  apply (overlap_within_block 33 (1 # 2)); [lia |].
  split; unfold Qle; cbn; lia.
Defined.

(** Where the double matters: a block of 5 voxels and the double next to
    0.3.  Their product is a little below 3/2, as a double it is 3/2, and
    that is rounded to 2. *)
Example overlap_rounds_the_double :
  (inject_Z 5 * float64 (3 # 10) < 3 # 2)%Q /\
  overlap_axis 5 (float64 (3 # 10)) = 2.
Proof. split; vm_compute; reflexivity. Qed.

(** Volumes of 10x64x65 voxels cut into 6x2x2 blocks. *)
Lemma block_geometry_exact_in_range_witness :
  exists g,
    block_geometry [10; 64; 65] [6; 2; 2] (1 # 2) = Ok g /\
    blocksize g = [2; 32; 33] /\
    exact_blocks (padded_shape [10; 64; 65] (pads g)) (blocksize g).
Proof.
  destruct (PartitionFacts.block_geometry_exact_in_range
              [10; 64; 65] [6; 2; 2] (1 # 2)) as (g & Hg & Hbs & Hex).
  - repeat constructor; try lia; vm_compute; discriminate.
  - exists g. split; [exact Hg |]. split; [| exact Hex].
    rewrite Hbs. reflexivity.
Defined.

Lemma correct_for_origin_affine
  (a00 a01 a02 a10 a11 a12 a20 a21 a22 t0 t1 t2 o0 o1 o2 : Q) :
  mat_eq
    (correct_for_origin
       [[a00; a01; a02; t0]; [a10; a11; a12; t1]; [a20; a21; a22; t2];
        [0; 0; 0; 1]]%Q (o0, o1, o2))
    [[a00; a01; a02; t0 + o0 - (a00 * o0 + a01 * o1 + a02 * o2)];
     [a10; a11; a12; t1 + o1 - (a10 * o0 + a11 * o1 + a12 * o2)];
     [a20; a21; a22; t2 + o2 - (a20 * o0 + a21 * o1 + a22 * o2)];
     [0; 0; 0; 1]]%Q.
Proof.
  PartitionFacts.mat_compute. repeat constructor; ring.
Qed.

Lemma correct_for_origin_zero (A : mat) :
  is_4x4 A -> mat_eq (correct_for_origin A (0, 0, 0)%Q) A.
Proof.
  intros [Hlen Hrows].
  destruct A as [| r0 [| r1 [| r2 [| r3 [| r4 A]]]]]; try discriminate.
  repeat match goal with
         | H : Forall _ (_ :: _) |- _ => inversion H; subst; clear H
         end.
  repeat match goal with
         | r : list Q |- _ =>
             destruct r as [| ? [| ? [| ? [| ? [| ? ?]]]]]; try discriminate
         end.
  PartitionFacts.mat_compute. repeat constructor; ring.
Qed.

Section Correction.

Context {image field kwargs : Type}.
Variable shape_of : image -> list Z.
Variable np_pad : image -> list (Z * Z) -> image.
Variable halo_blocks : image -> list Z -> list Z -> list (vec3 Z * image).
Variable affine_align :
  image -> image -> vec3 Q -> vec3 Q -> option image -> option image ->
  bool -> option mat -> kwargs -> mat.
Variable local_affines_to_field :
  list Z -> vec3 Q -> list (vec3 Z * mat) -> list Z -> list Z -> field.
Variables fix_spacing mov_spacing : vec3 Q.
Variable kw : kwargs.

(** X5.  The origin correction keeps the linear part of an affine matrix and
    moves its translation [t] to [t + o - L o], [o] being the origin of
    the block. *)
Theorem origin_correction_moves_translation_only
  (bs ov idx : vec3 Z) (fix_im mov_im : image) (fm mm : option image)
  (a00 a01 a02 a10 a11 a12 a20 a21 a22 t0 t1 t2 : Q) :
  local_affine affine_align fix_spacing mov_spacing kw fix_im mov_im fm mm =
    [[a00; a01; a02; t0]; [a10; a11; a12; t1]; [a20; a21; a22; t2];
     [0; 0; 0; 1]]%Q ->
  let '(o0, o1, o2) := block_origin bs ov idx fix_spacing in
  mat_eq
    (single_affine_align affine_align fix_spacing mov_spacing kw bs ov
       fix_im mov_im fm mm idx)
    [[a00; a01; a02; t0 + o0 - (a00 * o0 + a01 * o1 + a02 * o2)];
     [a10; a11; a12; t1 + o1 - (a10 * o0 + a11 * o1 + a12 * o2)];
     [a20; a21; a22; t2 + o2 - (a20 * o0 + a21 * o1 + a22 * o2)];
     [0; 0; 0; 1]]%Q.
Proof.
  intros HA. unfold single_affine_align. rewrite HA.
  destruct (block_origin bs ov idx fix_spacing) as [[o0 o1] o2].
  apply correct_for_origin_affine.
Qed.

(** X6.  The block at grid index (0, 0, 0) starts at the origin of the volume:
    its transform is returned as the local alignment found it. *)
Theorem first_block_needs_no_correction
  (bs ov : vec3 Z) (fix_im mov_im : image) (fm mm : option image) :
  Translation.all3 (fun v => 0 <= v) ov ->
  is_4x4 (local_affine affine_align fix_spacing mov_spacing kw
            fix_im mov_im fm mm) ->
  mat_eq
    (single_affine_align affine_align fix_spacing mov_spacing kw bs ov
       fix_im mov_im fm mm (0, 0, 0))
    (local_affine affine_align fix_spacing mov_spacing kw fix_im mov_im fm mm).
Proof.
  intros Hov HA. unfold single_affine_align.
  set (A := local_affine _ _ _ _ _ _ _ _) in *.
  assert (Ho : block_origin bs ov (0, 0, 0) fix_spacing =
               (inject_Z 0 * fst (fst fix_spacing),
                inject_Z 0 * snd (fst fix_spacing),
                inject_Z 0 * snd fix_spacing)%Q).
  { destruct bs as [[b0 b1] b2], ov as [[v0 v1] v2],
      fix_spacing as [[s0 s1] s2].
    cbn in Hov. destruct Hov as (H0 & H1 & H2).
    cbn. rewrite !Z.mul_0_r. rewrite !Z.max_l by lia. reflexivity. }
  rewrite Ho.
  destruct HA as [Hlen Hrows].
  destruct A as [| r0 [| r1 [| r2 [| r3 [| r4 A]]]]]; try discriminate.
  repeat match goal with
         | H : Forall _ (_ :: _) |- _ => inversion H; subst; clear H
         end.
  repeat match goal with
         | r : list Q |- _ =>
             destruct r as [| ? [| ? [| ? [| ? [| ? ?]]]]]; try discriminate
         end.
  change (inject_Z 0) with 0%Q.
  PartitionFacts.mat_compute. repeat constructor; ring.
Qed.

(** X7.  The masks are passed by position: of a moving mask given without a
    fixed mask, the closure receives the block as its third argument, the
    fixed mask [fm], and no moving mask, for every block; the call returns
    what it returns when the same array is given as the fixed mask. *)
Theorem lone_moving_mask_taken_as_fixed_mask
  (fix_im mov_im : image) (nblocks : list Z) (overlap : Q) (mask : image)
  (g : geometry) :
  block_geometry (shape_of fix_im) nblocks overlap = Ok g ->
  let chunk im :=
    halo_blocks (np_pad im (pads g)) (blocksize g) (overlaps g) in
  let affines :=
    map (fun ib =>
           let idx := fst (fst (snd ib)) in
           (idx,
            single_affine_align affine_align fix_spacing mov_spacing kw
              (as_vec3 (blocksize g)) (as_vec3 (overlaps g))
              (snd (fst (snd ib))) (snd (snd (snd ib)))
              (block_at (chunk mask) (fst ib)) None idx))
        (combine (seq 0 (List.length (chunk fix_im)))
                 (combine (chunk fix_im) (chunk mov_im))) in
  distributed_piecewise_affine_align shape_of np_pad halo_blocks affine_align
    local_affines_to_field fix_spacing mov_spacing kw
    fix_im mov_im nblocks overlap None (Some mask) =
    Ok (affines,
        local_affines_to_field (shape_of fix_im) fix_spacing affines
          (blocksize g) (overlaps g)) /\
  distributed_piecewise_affine_align shape_of np_pad halo_blocks affine_align
    local_affines_to_field fix_spacing mov_spacing kw
    fix_im mov_im nblocks overlap (Some mask) None =
  distributed_piecewise_affine_align shape_of np_pad halo_blocks affine_align
    local_affines_to_field fix_spacing mov_spacing kw
    fix_im mov_im nblocks overlap None (Some mask).
Proof.
  intros Hg chunk affines.
  unfold distributed_piecewise_affine_align. rewrite Hg.
  split; reflexivity.
Qed.

End Correction.

(** A stretch by 2 along the first axis, found in the block at grid index
    (1, 0, 1), whose origin is (16, 0, 16): the linear part stays, the
    shift of 1 becomes 1 + 16 - 32. *)
Lemma origin_correction_moves_translation_only_witness :
  mat_eq
    (single_affine_align ToyMore.stretch_align Toy.unit_spacing
       Toy.unit_spacing tt
       (32, 32, 32) (16, 16, 16) [48; 32; 48] [48; 32; 48] None None
       (1, 0, 1))
    [[2; 0; 0; -15]; [0; 1; 0; 0]; [0; 0; 1; 0]; [0; 0; 0; 1]]%Q.
Proof.
  pose proof (origin_correction_moves_translation_only ToyMore.stretch_align
                Toy.unit_spacing Toy.unit_spacing tt
                (32, 32, 32) (16, 16, 16) (1, 0, 1) [48; 32; 48] [48; 32; 48]
                None None 2%Q 0%Q 0%Q 0%Q 1%Q 0%Q 0%Q 0%Q 1%Q 1%Q 0%Q 0%Q eq_refl)
    as W.
  vm_compute in W. vm_compute. exact W.
Defined.

Lemma first_block_needs_no_correction_witness :
  mat_eq
    (single_affine_align Toy.still_align Toy.unit_spacing Toy.unit_spacing tt
       (32, 32, 32) (16, 16, 16) [48; 32; 48] [48; 32; 48] None None
       (0, 0, 0))
    (eye 4).
Proof.
  apply (first_block_needs_no_correction Toy.still_align
           Toy.unit_spacing Toy.unit_spacing tt
           (32, 32, 32) (16, 16, 16) [48; 32; 48] [48; 32; 48] None None).
  - cbn. lia.
  - split; [reflexivity | repeat constructor].
Defined.

(** A volume of 64x64x64 voxels in 2x2x2 blocks, with an aligner that shows
    which mask slots were filled: the first block comes back with the
    translation that stands for a fixed mask and no moving mask. *)
Lemma lone_moving_mask_taken_as_fixed_mask_witness :
  exists affines M,
    distributed_piecewise_affine_align (fun im => im) Toy.pad_shape
      Toy.grid_blocks ToyMore.mask_align Toy.keep_affines
      Toy.unit_spacing Toy.unit_spacing tt
      [64; 64; 64] [64; 64; 64] [2; 2; 2] (1 # 2) None (Some [64; 64; 64]) =
      Ok (affines, affines) /\
    List.length affines = 8%nat /\
    nth_error affines 0 = Some ((0, 0, 0), M) /\
    mat_eq M [[1; 0; 0; 1]; [0; 1; 0; 0]; [0; 0; 1; 0]; [0; 0; 0; 1]]%Q.
Proof.
  destruct (lone_moving_mask_taken_as_fixed_mask (fun im => im) Toy.pad_shape
              Toy.grid_blocks ToyMore.mask_align Toy.keep_affines
              Toy.unit_spacing Toy.unit_spacing tt
              [64; 64; 64] [64; 64; 64] [2; 2; 2] (1 # 2) [64; 64; 64]
              {| blocksize := [32; 32; 32];
                 overlaps := [16; 16; 16];
                 pads := [(0, 0); (0, 0); (0, 0)] |} eq_refl) as [Hrun _].
  eexists. eexists. split; [exact Hrun |].
  split; [reflexivity |].
  split; [reflexivity |].
  vm_compute. repeat constructor.
Defined.

End PartitionMore.

(** ** More on affine_align *)

Module AffineAlignMore.

Import Numpy Mat AffineAlign Floating SkipSampling.

Lemma round_half_even_below_half (a b c : Z) :
  0 < b -> 2 * a < (2 * c + 1) * b -> round_half_even a b <= c.
Proof.
  intros Hb Hlt. unfold round_half_even.
  pose proof (Z.div_mod a b ltac:(lia)) as Hdm.
  pose proof (Z.mod_pos_bound a b Hb) as Hr.
  assert (Hq : a / b < c + 1) by (apply Z.div_lt_upper_bound; nia).
  destruct (Z.ltb_spec (2 * (a mod b)) b); [lia |].
  assert (a / b < c) by nia.
  destruct (Z.ltb_spec b (2 * (a mod b))); [lia |].
  destruct (Z.even (a / b)); lia.
Qed.

Lemma np_round_below_three_halves (x : Q) : (x < 3 # 2)%Q -> np_round x <= 1.
Proof.
  intros Hx. unfold np_round. unfold Qlt in Hx. cbn in Hx.
  apply round_half_even_below_half; lia.
Qed.

Lemma fl_round_le_representable_any (prec : Z) (x y : Q) :
  0 < prec -> (x <= y)%Q -> representable prec y ->
  (fl_round prec x <= y)%Q.
Proof.
  intros Hp Hxy Hy.
  destruct (Qlt_le_dec 0 x) as [Hpos | Hnp].
  { now apply FloatFacts.fl_round_le_representable. }
  assert (Hneg : (fl_round prec x <= 0)%Q).
  { assert (H0 : (0 <= fl_round prec (- x))%Q).
    { apply FloatFacts.fl_round_nonneg.
      apply (Qopp_le_compat x 0) in Hnp. exact Hnp. }
    rewrite FloatFacts.fl_round_opp in H0.
    apply Qopp_le_compat in H0. rewrite Qopp_involutive in H0. exact H0. }
  destruct (Qlt_le_dec y 0) as [Hyneg | Hy0].
  - assert (H1 : (- y <= fl_round prec (- x))%Q).
    { apply FloatFacts.fl_round_ge_representable.
      + exact Hp.
      + apply (Qopp_lt_compat y 0) in Hyneg. exact Hyneg.
      + apply Qopp_le_compat. exact Hxy.
      + apply FloatFacts.representable_opp. exact Hy. }
    rewrite FloatFacts.fl_round_opp in H1.
    apply Qopp_le_compat in H1. rewrite !Qopp_involutive in H1. exact H1.
  - apply Qle_trans with 0%Q; assumption.
Qed.

Lemma representable_below_three_halves : representable 53 below_three_halves.
Proof.
  exists 6755399441055743, (-52). split; [reflexivity |].
  vm_compute. reflexivity.
Qed.

Lemma representable_2_62 : representable 53 (inject_Z (2 ^ 62)).
Proof.
  exists 1, 62. split; [reflexivity |]. vm_compute. reflexivity.
Qed.

Lemma stride_of_bounds (ss_spacing s : Q) :
  (ss_spacing / s <= inject_Z (2 ^ 62))%Q ->
  1 <= stride_of ss_spacing s <= 2 ^ 62.
Proof.
  intros Hq. unfold stride_of. split; [lia |].
  apply Z.max_lub; [| lia].
  assert (Hf : (float64 (ss_spacing / s) <= inject_Z (2 ^ 62))%Q).
  { apply fl_round_le_representable_any;
      [lia | exact Hq | exact representable_2_62]. }
  unfold np_round. destruct (float64 (ss_spacing / s)) as [p q].
  unfold Qle in Hf. cbn [Qnum Qden inject_Z] in Hf. cbn [Qnum Qden].
  apply NumpyFacts.round_half_even_le; lia.
Qed.

Lemma stride_of_one (ss_spacing s : Q) :
  (ss_spacing / s <= below_three_halves)%Q -> stride_of ss_spacing s = 1.
Proof.
  intros Hq. unfold stride_of. apply Z.max_r.
  apply np_round_below_three_halves.
  apply Qle_lt_trans with below_three_halves; [| reflexivity].
  apply fl_round_le_representable_any;
    [lia | exact Hq | exact representable_below_three_halves].
Qed.

Lemma spacing_not_refined (ss_spacing s : Q) :
  plain_spacing ss_spacing s ->
  (s <= float64 (s * inject_Z (stride_of ss_spacing s)))%Q.
Proof.
  intros (Hs & Hr & Hq).
  pose proof (stride_of_bounds _ _ Hq) as [Hk _].
  apply FloatFacts.fl_round_ge_representable; [lia | exact Hs | | exact Hr].
  rewrite <- (Qmult_1_r s) at 1.
  apply Qmult_le_l; [exact Hs |].
  change 1%Q with (inject_Z 1). rewrite <- Zle_Qle. exact Hk.
Qed.

Section MoreGates.

Context `{Registration}.

(** X8.  [skip_sample] never refines.  For spacings that are positive doubles
    and a target spacing of at most 2^62 voxels, a call that returns has
    sliced the image with strides between 1 and 2^62, the new spacing is
    the double [spacing * stride], no spacing shrinks, and a target
    spacing of at most 1.4999999999999998 voxels (the double next below
    3/2) leaves all strides at 1. *)
Theorem skip_sample_never_refines (im : image) (s0 s1 s2 : Q)
  (ss_spacing : Q) (out : image * vec3 Q) :
  plain_spacing ss_spacing s0 -> plain_spacing ss_spacing s1 ->
  plain_spacing ss_spacing s2 ->
  skip_sample im (s0, s1, s2) ss_spacing = Ok out ->
  let ss := vmap (stride_of ss_spacing) (s0, s1, s2) in
  subsample im ss = Ok (fst out) /\
  snd out =
    vzip (fun s k => float64 (s * inject_Z k)) (s0, s1, s2) ss /\
  Translation.all3 (fun k => 1 <= k <= 2 ^ 62) ss /\
  (let '(r0, r1, r2) := snd out in (s0 <= r0 /\ s1 <= r1 /\ s2 <= r2)%Q) /\
  ((ss_spacing / s0 <= below_three_halves)%Q ->
   (ss_spacing / s1 <= below_three_halves)%Q ->
   (ss_spacing / s2 <= below_three_halves)%Q ->
   ss = (1, 1, 1)).
Proof.
  intros P0 P1 P2 Hout ss.
  unfold skip_sample in Hout.
  change (vmap (fun s => Z.max (np_round (float64 (ss_spacing / s))) 1)
            (s0, s1, s2)) with ss in Hout.
  destruct (subsample im ss) as [im' | e]; [| discriminate].
  injection Hout as <-. cbn [fst snd].
  split; [reflexivity |]. split; [reflexivity |].
  split.
  { destruct P0 as (_ & _ & Q0), P1 as (_ & _ & Q1), P2 as (_ & _ & Q2).
    subst ss. cbn [vmap Translation.all3].
    repeat split; apply stride_of_bounds; assumption. }
  split.
  { subst ss. cbn [vmap vzip].
    repeat split; apply spacing_not_refined; assumption. }
  intros L0 L1 L2. subst ss. cbn [vmap].
  rewrite (stride_of_one _ _ L0), (stride_of_one _ _ L1),
    (stride_of_one _ _ L2).
  reflexivity.
Qed.

(** The guarded optimisation always returns a matrix, after at most three
    calls to the registration method. *)
Lemma optimize_returns (default : mat) (rigid centering : bool)
  (p : prepared) :
  exists M, fst (optimize default rigid centering p) = Ok M /\
            (registration_calls (snd (optimize default rigid centering p))
             <= 3)%nat.
Proof.
  unfold optimize, registration_failed, metric_evaluate, execute, bind,
    emit, ret.
  cbn [fst snd app].
  destruct (MetricEvaluate (p_irm p) (p_fix p) (p_mov p)); cbn;
    [| eexists; split; [reflexivity | lia]].
  destruct (Execute (p_irm p) (p_fix p) (p_mov p)); cbn;
    [| eexists; split; [reflexivity | lia]].
  destruct (MetricEvaluate _ (p_fix p) (p_mov p)); cbn;
    [| eexists; split; [reflexivity | lia]].
  destruct (Qltb _ _); cbn; eexists; split; reflexivity || lia.
Qed.

Lemma optimize_calls_in_order (default : mat) (rigid centering : bool)
  (p : prepared) :
  exists n, (1 <= n <= 3)%nat /\
    filter is_registration_call (snd (optimize default rigid centering p)) =
    firstn n [MetricEvaluated; Executed; MetricEvaluated].
Proof.
  unfold optimize, registration_failed, metric_evaluate, execute, bind,
    emit, ret.
  cbn [fst snd app].
  destruct (MetricEvaluate (p_irm p) (p_fix p) (p_mov p)); cbn;
    [| exists 1%nat; split; [lia | reflexivity]].
  destruct (Execute (p_irm p) (p_fix p) (p_mov p)); cbn;
    [| exists 2%nat; split; [lia | reflexivity]].
  destruct (MetricEvaluate _ (p_fix p) (p_mov p)); cbn;
    [| exists 3%nat; split; [lia | reflexivity]].
  destruct (Qltb _ _); cbn; exists 3%nat; split; lia || reflexivity.
Qed.

(** X9.  [affine_align] goes to the registration method three times at most,
    and in this order: the metric, the optimisation, the metric again; the
    calls made are a beginning of that sequence.  None is made when the
    masks fail the Jaccard gate, and none when the set-up raises: that
    exception leaves the call as it is, with nothing printed. *)
Theorem affine_align_registration_calls
  (fix_im mov_im : image) (fix_spacing mov_spacing : vec3 Q)
  (rigid : bool) (initial_transform : option mat)
  (initialize_with_centering : bool) (alignment_spacing : option Q)
  (fix_mask mov_mask : option image) (fix_origin mov_origin : option (vec3 Q))
  (jaccard_filter_threshold : option Q) (default : mat) (kw : kwargs) :
  let out := affine_align fix_im mov_im fix_spacing mov_spacing rigid
               initial_transform initialize_with_centering alignment_spacing
               fix_mask mov_mask fix_origin mov_origin
               jaccard_filter_threshold default kw in
  let set_up := prepare fix_im mov_im fix_spacing mov_spacing rigid
                  initial_transform initialize_with_centering
                  alignment_spacing fix_mask mov_mask fix_origin mov_origin
                  kw in
  let gate := masks_fail_jaccard jaccard_filter_threshold fix_mask mov_mask in
  (exists n, (n <= 3)%nat /\
     filter is_registration_call (snd out) =
     firstn n [MetricEvaluated; Executed; MetricEvaluated]) /\
  (gate = true -> registration_calls (snd out) = 0%nat) /\
  (forall e, gate = false -> set_up = Raise e -> out = (Raise e, [])) /\
  (forall p, gate = false -> set_up = Ok p ->
             (1 <= registration_calls (snd out) <= 3)%nat).
Proof.
  intros out set_up gate. subst out set_up gate. unfold affine_align.
  destruct (masks_fail_jaccard _ _ _).
  { cbn. split; [exists 0%nat; split; [lia | reflexivity] |].
    split; [reflexivity |]. split; intros; discriminate. }
  destruct (prepare _ _ _ _ _ _ _ _ _ _ _ _ _) as [p | e0].
  - destruct (optimize_calls_in_order
                (update_default initial_transform default)
                rigid initialize_with_centering p) as (n & Hn & Hcalls).
    split; [exists n; split; [lia | exact Hcalls] |].
    split; [discriminate |]. split; [discriminate |].
    intros p' _ _. unfold registration_calls. rewrite Hcalls.
    rewrite length_firstn. cbn [List.length]. lia.
  - cbn. split; [exists 0%nat; split; [lia | reflexivity] |].
    split; [discriminate |]. split; [| discriminate].
    intros e _ He. injection He as <-. reflexivity.
Qed.

(** X10.  When the registration method raises, at the first metric evaluation,
    while optimising or at the last metric evaluation, the default comes
    back. *)
Theorem affine_align_returns_default_on_exception
  (fix_im mov_im : image) (fix_spacing mov_spacing : vec3 Q)
  (rigid : bool) (initial_transform : option mat)
  (initialize_with_centering : bool) (alignment_spacing : option Q)
  (fix_mask mov_mask : option image) (fix_origin mov_origin : option (vec3 Q))
  (jaccard_filter_threshold : option Q) (default : mat) (kw : kwargs)
  (p : prepared) :
  masks_fail_jaccard jaccard_filter_threshold fix_mask mov_mask = false ->
  prepare fix_im mov_im fix_spacing mov_spacing rigid initial_transform
    initialize_with_centering alignment_spacing fix_mask mov_mask
    fix_origin mov_origin kw = Ok p ->
  ((exists e, MetricEvaluate (p_irm p) (p_fix p) (p_mov p) = Raise e) \/
   (exists e, Execute (p_irm p) (p_fix p) (p_mov p) = Raise e) \/
   (exists t e,
      Execute (p_irm p) (p_fix p) (p_mov p) = Ok t /\
      MetricEvaluate (set_initial (p_irm p) t) (p_fix p) (p_mov p) =
        Raise e)) ->
  let out := affine_align fix_im mov_im fix_spacing mov_spacing rigid
               initial_transform initialize_with_centering alignment_spacing
               fix_mask mov_mask fix_origin mov_origin
               jaccard_filter_threshold default kw in
  fst out = Ok (update_default initial_transform default) /\
  In (Printed "Registration failed due to ITK exception:") (snd out).
Proof.
  intros Hgate Hprep Hraise out. subst out. unfold affine_align.
  rewrite Hgate, Hprep.
  unfold optimize, registration_failed, metric_evaluate, execute, bind,
    emit, ret.
  cbn [fst snd app].
  destruct (MetricEvaluate (p_irm p) (p_fix p) (p_mov p)) as [v0 | e0];
    cbn; [| split; [reflexivity | auto]].
  destruct (Execute (p_irm p) (p_fix p) (p_mov p)) as [t1 | e1];
    cbn; [| split; [reflexivity | auto]].
  destruct (MetricEvaluate (set_initial (p_irm p) t1) (p_fix p) (p_mov p))
    as [v2 | e2] eqn:Hfin; cbn; [| split; [reflexivity | auto 6]].
  exfalso. destruct Hraise as [[e He] | [[e He] | (t & e & Ht & He)]];
    try discriminate.
  injection Ht as <-. congruence.
Qed.

(** X11.  A big endian fixed or moving image ends the call in a [TypeError]
    before the registration method is touched. *)
Theorem affine_align_rejects_big_endian
  (fix_im mov_im : image) (fix_spacing mov_spacing : vec3 Q)
  (rigid : bool) (initial_transform : option mat)
  (initialize_with_centering : bool) (alignment_spacing : option Q)
  (fix_mask mov_mask : option image) (fix_origin mov_origin : option (vec3 Q))
  (jaccard_filter_threshold : option Q) (default : mat) (kw : kwargs) :
  masks_fail_jaccard jaccard_filter_threshold fix_mask mov_mask = false ->
  forall s,
  skip_sample_all fix_im mov_im fix_spacing mov_spacing
    alignment_spacing fix_mask mov_mask = Ok s ->
  big_endian (s_fix s) = true \/ big_endian (s_mov s) = true ->
  affine_align fix_im mov_im fix_spacing mov_spacing rigid
    initial_transform initialize_with_centering alignment_spacing
    fix_mask mov_mask fix_origin mov_origin
    jaccard_filter_threshold default kw = (Raise TypeError, []).
Proof.
  intros Hgate s Hs Hbig. unfold affine_align. rewrite Hgate.
  unfold prepare. rewrite Hs. unfold numpy_to_sitk.
  destruct (big_endian (s_fix s)) eqn:Hf; [reflexivity |].
  destruct Hbig as [Hb | Hb]; [discriminate |].
  rewrite Hb. reflexivity.
Qed.

End MoreGates.

(** Spacings of 1, 2 and 4 brought to a spacing of 4: strides 4, 2 and 1. *)
Lemma skip_sample_never_refines_witness :
  vmap (stride_of 4) (1, 2, 4)%Q = (4, 2, 1) /\
  exists out,
    @skip_sample Toy.toy_sitk (Toy.cube 2 [3; 1; 4; 1]%Q) (1, 2, 4)%Q 4 =
      Ok out /\
    Translation.veq (snd out) (4, 4, 4)%Q /\
    (let '(r0, r1, r2) := snd out in (1 <= r0 /\ 2 <= r1 /\ 4 <= r2)%Q).
Proof.
  assert (P : forall n : Z, 0 < n < 8 -> plain_spacing 4 (inject_Z n)).
  { intros n Hn. split; [| split].
    - change 0%Q with (inject_Z 0). rewrite <- Zlt_Qlt. lia.
    - apply FloatFacts.representable_Z.
      assert (2 ^ 3 <= 2 ^ 53) by (apply Z.pow_le_mono_r; lia). lia.
    - apply Qle_shift_div_r.
      + change 0%Q with (inject_Z 0). rewrite <- Zlt_Qlt. lia.
      + rewrite <- inject_Z_mult. change 4%Q with (inject_Z 4).
        rewrite <- Zle_Qle. lia. }
  split; [vm_compute; reflexivity |].
  eexists. split; [reflexivity |].
  split; [vm_compute; repeat split; reflexivity |].
  refine (proj1 (proj2 (proj2 (proj2
            (@skip_sample_never_refines Toy.toy_sitk
               (Toy.cube 2 [3; 1; 4; 1]%Q) 1 2 4 4 _
               (P 1 ltac:(lia)) (P 2 ltac:(lia)) (P 4 ltac:(lia))
               eq_refl))))).
Defined.

(** The threshold is sharp: for these two doubles the target spacing is below
    one and a half voxels, the quotient is 3/2 as a double, and the stride
    is 2. *)
Example stride_at_three_halves :
  let s := (6004799503160661 # 4503599627370496)%Q in
  let a := (9007199254740991 # 4503599627370496)%Q in
  (a < (3 # 2) * s)%Q /\ (float64 (a / s) == 3 # 2)%Q /\ stride_of a s = 2.
Proof. vm_compute. repeat split; reflexivity. Qed.

(** A registration method that raises when run: the metric was read, the
    optimisation was started, and that is all. *)
Lemma affine_align_registration_calls_witness :
  filter is_registration_call
    (snd (@affine_align ToyMore.endian_sitk ToyMore.fragile
            (false, [3; 1]%Q) (false, [1; 5]%Q)
            Toy.unit_spacing Toy.unit_spacing true None false None
            None None None None None (eye 4) tt)) =
  [MetricEvaluated; Executed] /\
  (1 <= registration_calls
          (snd (@affine_align ToyMore.endian_sitk ToyMore.fragile
                  (false, [3; 1]%Q) (false, [1; 5]%Q)
                  Toy.unit_spacing Toy.unit_spacing true None false None
                  None None None None None (eye 4) tt)) <= 3)%nat.
Proof.
  split; [reflexivity |].
  destruct (@affine_align_registration_calls
              ToyMore.endian_sitk ToyMore.fragile
              (false, [3; 1]%Q) (false, [1; 5]%Q)
              Toy.unit_spacing Toy.unit_spacing true None false None
              None None None None None (eye 4) tt) as (_ & _ & _ & Hcalls).
  exact (Hcalls _ eq_refl eq_refl).
Defined.

Lemma affine_align_returns_default_on_exception_witness :
  fst (@affine_align ToyMore.endian_sitk ToyMore.fragile
         (false, [3; 1]%Q) (false, [1; 5]%Q)
         Toy.unit_spacing Toy.unit_spacing true None false None
         None None None None None (eye 4) tt) = Ok (eye 4).
Proof.
  refine (proj1
            (@affine_align_returns_default_on_exception
               ToyMore.endian_sitk ToyMore.fragile
               (false, [3; 1]%Q) (false, [1; 5]%Q)
               Toy.unit_spacing Toy.unit_spacing true None false None
               None None None None None (eye 4) tt _ eq_refl eq_refl _)).
  right. left. exists ITKException. reflexivity.
Defined.

Lemma affine_align_rejects_big_endian_witness :
  @affine_align ToyMore.endian_sitk ToyMore.fragile
    (false, [3; 1]%Q) (true, [1; 5]%Q)
    Toy.unit_spacing Toy.unit_spacing false None false None
    None None None None None (eye 4) tt = (Raise TypeError, []).
Proof.
  apply (@affine_align_rejects_big_endian ToyMore.endian_sitk ToyMore.fragile
           (false, [3; 1]%Q) (true, [1; 5]%Q)
           Toy.unit_spacing Toy.unit_spacing false None false None
           None None None None None (eye 4) tt eq_refl _ eq_refl).
  right. reflexivity.
Defined.

End AffineAlignMore.

(** ** More on random_affine_search *)

Module RandomSearchMore.

Import Numpy Mat AffineAlign RandomSearch Ranking.

Lemma insert_scored_sorted (s : Q) (i : nat) (l : list (Q * nat)) :
  StronglySorted by_score l -> StronglySorted by_score (insert_scored s i l).
Proof.
  induction l as [| [s' i'] l IH]; intros Hs; cbn.
  - repeat constructor.
  - inversion Hs as [| x y Hl Hall]; subst.
    destruct (Qle_bool s s') eqn:Hb.
    + apply Qle_bool_iff in Hb. constructor; [exact Hs |].
      constructor; [exact Hb |].
      eapply Forall_impl; [| exact Hall].
      intros p Hp. cbn in *. eapply Qle_trans; eassumption.
    + assert (Hlt : (s' <= s)%Q).
      { destruct (Qlt_le_dec s' s) as [Hlt | Hle]; [now apply Qlt_le_weak |].
        apply Qle_bool_iff in Hle. congruence. }
      constructor; [apply IH; exact Hl |].
      apply (Permutation_Forall
               (Permutation_sym (RandomSearchFacts.insert_scored_perm s i l))).
      constructor; assumption.
Qed.

Lemma scored_order_sorted (scores : list Q) :
  StronglySorted by_score (scored_order scores).
Proof.
  unfold scored_order.
  induction (combine scores (seq 0 (List.length scores))) as [| [s i] l IH];
    cbn; [constructor |].
  apply insert_scored_sorted. exact IH.
Qed.

Lemma scored_order_perm (scores : list Q) :
  Permutation (scored_order scores)
    (combine scores (seq 0 (List.length scores))).
Proof.
  unfold scored_order.
  induction (combine scores (seq 0 (List.length scores))) as [| [s i] l IH];
    cbn; [reflexivity |].
  rewrite RandomSearchFacts.insert_scored_perm. now constructor.
Qed.

Lemma in_combine_seq (l : list Q) :
  forall a s i,
    In (s, i) (combine l (seq a (List.length l))) <->
    (a <= i < a + List.length l)%nat /\ nth (i - a) l 0%Q = s.
Proof.
  induction l as [| x l IH]; intros a s i; cbn [List.length seq combine].
  - split; [intros [] | intros [Hi _]; lia].
  - cbn [In]. rewrite IH. split.
    + intros [Heq | [Hi Hn]].
      * injection Heq as <- <-. split; [lia |].
        rewrite Nat.sub_diag. reflexivity.
      * split; [lia |].
        replace (i - a)%nat with (S (i - S a)) by lia. exact Hn.
    + intros [Hi Hn]. destruct (Nat.eq_dec i a) as [-> | Hne].
      * left. rewrite Nat.sub_diag in Hn. cbn in Hn. now subst.
      * right. split; [lia |].
        replace (i - a)%nat with (S (i - S a)) in Hn by lia. exact Hn.
Qed.

(** The first index [argsort] returns is that of a least score. *)
Lemma argsort_head_least (scores : list Q) :
  scores <> [] ->
  exists k rest,
    argsort scores = k :: rest /\
    (k < List.length scores)%nat /\
    forall i, (i < List.length scores)%nat ->
              (nth k scores 0 <= nth i scores 0)%Q.
Proof.
  intros Hne.
  pose proof (scored_order_sorted scores) as Hs.
  pose proof (scored_order_perm scores) as Hp.
  unfold argsort. fold (scored_order scores).
  destruct (scored_order scores) as [| [s k] l] eqn:Ho.
  - apply Permutation_nil in Hp.
    destruct scores; [contradiction | discriminate].
  - assert (Hk : In (s, k) (combine scores (seq 0 (List.length scores))))
      by (apply (Permutation_in _ Hp); now left).
    apply in_combine_seq in Hk as [Hk Hsk].
    rewrite Nat.sub_0_r in Hsk.
    exists k, (map snd l). split; [reflexivity |]. split; [lia |].
    intros i Hi.
    assert (Hin : In (nth i scores 0%Q, i) ((s, k) :: l)).
    { apply (Permutation_in _ (Permutation_sym Hp)).
      apply in_combine_seq. split; [lia |]. now rewrite Nat.sub_0_r. }
    rewrite Hsk. destruct Hin as [Heq | Hin].
    + injection Heq as <- _. apply Qle_refl.
    + inversion Hs as [| x y _ Hall]; subst.
      rewrite Forall_forall in Hall. exact (Hall _ Hin).
Qed.

Lemma argmin_from_range (l : list Q) :
  forall best_i best i,
    argmin_from best_i best i l = best_i \/
    (i <= argmin_from best_i best i l < i + List.length l)%nat.
Proof.
  induction l as [| x l IH]; intros best_i best i; cbn; [now left |].
  destruct (Qltb x best).
  - right. destruct (IH i x (S i)) as [-> | Hr]; lia.
  - destruct (IH best_i best (S i)) as [-> | Hr]; [now left | right; lia].
Qed.

Lemma argmin_lt (l : list Q) : l <> [] -> (argmin l < List.length l)%nat.
Proof.
  destruct l as [| x l]; [contradiction |]. intros _. cbn [argmin List.length].
  destruct (argmin_from_range l 0%nat x 1%nat) as [-> | Hr]; lia.
Qed.

Lemma fst_bind {A B} (m : traced A) (k : A -> traced B) :
  fst (bind m k) = fst (k (fst m)).
Proof. unfold bind. destruct (k (fst m)). reflexivity. Qed.

Section More.

Context `{Registration} `{Numerics}.

(** X12.  Without refinement, the matrix returned is that of a candidate whose
    score no other candidate undercuts. *)
Theorem random_affine_search_returns_least_score
  (fix_im mov_im : image) (fix_spacing mov_spacing : vec3 Q)
  (max_translation max_rotation max_scale max_shear : Q)
  (random_iterations : nat)
  (alignment_spacing : option Q) (fix_mask mov_mask : option image)
  (fix_origin mov_origin : option (vec3 Q))
  (jaccard_filter_threshold : option Q) (kw : kwargs)
  (uninit : nat -> nat -> Q)
  (r : search_ready) (scores : list Q) (irm : irm_state) (t : list event) :
  let params := make_params max_translation max_rotation max_scale max_shear
                  random_iterations in
  let shape := shape3 (s_fix (r_sampled r)) in
  let spacing := s_fix_spacing (r_sampled r) in
  masks_fail_jaccard jaccard_filter_threshold fix_mask mov_mask = false ->
  search_setup fix_im mov_im fix_spacing mov_spacing alignment_spacing
    fix_mask mov_mask fix_origin mov_origin kw = Ok r ->
  score_all r params random_iterations uninit = (Completed scores irm, t) ->
  exists k,
    (k < random_iterations + 1)%nat /\
    (forall i, (i < random_iterations + 1)%nat ->
               (nth k scores 0 <= nth i scores 0)%Q) /\
    random_affine_search fix_im mov_im fix_spacing mov_spacing
      max_translation max_rotation max_scale max_shear
      random_iterations 0 alignment_spacing
      fix_mask mov_mask fix_origin mov_origin
      jaccard_filter_threshold kw uninit =
    (Ok (params_to_affine_matrix shape spacing (nth k params [])), t).
Proof.
  intros params shape spacing Hgate Hsetup Hrun.
  destruct (RandomSearchFacts.score_candidates_completed
              _ _ _ _ _ _ _ _ _ _ _ _ _ Hrun) as [_ Hlen].
  rewrite length_map, length_seq in Hlen.
  assert (Hne : scores <> []).
  { intros ->. cbn in Hlen. lia. }
  destruct (argsort_head_least scores Hne) as (k & rest & Hsort & Hk & Hmin).
  rewrite Hlen in Hk, Hmin.
  exists k. split; [exact Hk |]. split; [exact Hmin |].
  unfold random_affine_search. rewrite Hgate, Hsetup.
  fold params. unfold bind. rewrite Hrun.
  cbn [fst snd ret Nat.eqb]. rewrite app_nil_r.
  rewrite Hsort. reflexivity.
Qed.

End More.

(** Three random candidates scored by a metric that always returns. *)
Lemma random_affine_search_returns_least_score_witness :
  exists k,
    (k < 3 + 1)%nat /\
    forall i, (i < 3 + 1)%nat ->
              (nth k Toy.scored_scores 0 <= nth i Toy.scored_scores 0)%Q.
Proof.
  assert (Hrun :
    @score_all Toy.toy_sitk Toy.descending Toy.toy_numerics Toy.ready
      (@make_params Toy.toy_numerics 4 (1 # 2) 2 (1 # 10) 3)
      3 (fun _ _ => 0%Q) =
    (Completed Toy.scored_scores Toy.scored_irm, snd Toy.scored))
    by (vm_compute; reflexivity).
  destruct (@random_affine_search_returns_least_score
              Toy.toy_sitk Toy.descending Toy.toy_numerics
              (Toy.cube 2 [3; 1; 4; 1]%Q) (Toy.cube 2 [1; 5; 9; 2]%Q)
              Toy.unit_spacing Toy.unit_spacing 4 (1 # 2) 2 (1 # 10) 3
              None None None None None None tt (fun _ _ => 0%Q)
              Toy.ready Toy.scored_scores Toy.scored_irm (snd Toy.scored)
              eq_refl eq_refl Hrun)
    as (k & Hk & Hmin & _).
  exists k. split; [exact Hk | exact Hmin].
Defined.

End RandomSearchMore.

(** ** The refinement loop of random_affine_search *)

Module RefinementMore.

Import Numpy Mat AffineAlign RandomSearch.

Section Refinement.

Context `{Registration} `{Numerics}.

(** What a successful [search_setup] says about the skip sampled images:
    every conversion to an ITK image went through. *)
Lemma search_setup_converted
  (fix_im mov_im : image) (fix_spacing mov_spacing : vec3 Q)
  (alignment_spacing : option Q) (fix_mask mov_mask : option image)
  (fix_origin mov_origin : option (vec3 Q)) (kw : kwargs) (r : search_ready) :
  search_setup fix_im mov_im fix_spacing mov_spacing alignment_spacing
    fix_mask mov_mask fix_origin mov_origin kw = Ok r ->
  let s := r_sampled r in
  (exists f0, numpy_to_sitk (s_fix s) (s_fix_spacing s) fix_origin = Ok f0) /\
  (exists m0, numpy_to_sitk (s_mov s) (s_mov_spacing s) mov_origin = Ok m0) /\
  (exists fm, mask_to_sitk (s_fix_mask s) (s_fix_spacing s) fix_origin
              = Ok fm) /\
  (exists mm, mask_to_sitk (s_mov_mask s) (s_mov_spacing s) mov_origin
              = Ok mm) /\
  (exists irm0, configure_irm kw = Ok irm0).
Proof.
  unfold search_setup.
  destruct (configure_irm kw) as [irm0 |] eqn:E0; [| discriminate].
  destruct (skip_sample_all _ _ _ _ _ _ _) as [s |] eqn:Es; [| discriminate].
  destruct (numpy_to_sitk _ _ fix_origin) as [f0 |] eqn:E1; [| discriminate].
  destruct (numpy_to_sitk _ _ mov_origin) as [m0 |] eqn:E2; [| discriminate].
  destruct (mask_to_sitk _ _ fix_origin) as [fm |] eqn:E3; [| discriminate].
  destruct (mask_to_sitk _ _ mov_origin) as [mm |] eqn:E4; [| discriminate].
  intros Hr. injection Hr as <-. cbn [r_sampled].
  repeat split; eexists; eassumption || reflexivity.
Qed.

(** The images that could be converted once can be converted again: the
    call of [affine_align] inside the refinement loop returns a matrix. *)
Lemma affine_align_on_sampled_returns (s : sampled)
  (fix_origin mov_origin : option (vec3 Q)) (kw : kwargs) (it : mat) :
  (exists f0, numpy_to_sitk (s_fix s) (s_fix_spacing s) fix_origin = Ok f0) ->
  (exists m0, numpy_to_sitk (s_mov s) (s_mov_spacing s) mov_origin = Ok m0) ->
  (exists fm, mask_to_sitk (s_fix_mask s) (s_fix_spacing s) fix_origin
              = Ok fm) ->
  (exists mm, mask_to_sitk (s_mov_mask s) (s_mov_spacing s) mov_origin
              = Ok mm) ->
  (exists irm0, configure_irm kw = Ok irm0) ->
  exists M,
    fst (affine_align (s_fix s) (s_mov s) (s_fix_spacing s) (s_mov_spacing s)
           false (Some it) false None (s_fix_mask s) (s_mov_mask s)
           fix_origin mov_origin None (eye 4) kw) = Ok M.
Proof.
  intros [f0 E1] [m0 E2] [fm E3] [mm E4] [irm0 E0].
  unfold affine_align. cbn [masks_fail_jaccard].
  unfold prepare. cbn [skip_sample_all s_fix s_mov s_fix_mask s_mov_mask
                         s_fix_spacing s_mov_spacing].
  rewrite E1, E2, E0. cbn [select_transform]. rewrite E3, E4.
  destruct (AffineAlignMore.optimize_returns
              (update_default (Some it) (eye 4)) false false
              {| p_fix := Cast_float32 f0; p_mov := Cast_float32 m0;
                 p_irm := set_masks
                            (set_initial irm0 (matrix_to_affine_transform it))
                            fm mm;
                 p_transform := matrix_to_affine_transform it |})
    as (M & HM & _).
  exists M. exact HM.
Qed.

Lemma fst_metric_evaluate (irm : irm_state) (f m : sitk_image) :
  fst (metric_evaluate irm f m) = MetricEvaluate irm f m.
Proof. reflexivity. Qed.

(** Whatever the refinement loop returns is the matrix of one of the ranked
    rows, or the identity: the matrices [affine_align] computed are used for
    scoring only. *)
Lemma refine_best_returns_row (best : nat) (s : sampled)
  (fix_origin mov_origin : option (vec3 Q)) (kw : kwargs) (shape : vec3 Z)
  (f m : sitk_image) (params : list (list Q)) (todo : list nat) :
  forall (irm : irm_state) (scores : list Q) (fail_count : nat) (M : mat),
    scores <> [] ->
    fst (refine_best best s fix_origin mov_origin kw shape f m params todo
           irm scores fail_count) = Ok M ->
    M = eye 4 \/
    exists k, (k < List.length scores)%nat /\
              M = params_to_affine_matrix shape (s_fix_spacing s)
                    (nth k params []).
Proof.
  induction todo as [| iii rest IH]; intros irm scores fail_count M Hne Hrun.
  - cbn in Hrun. injection Hrun as <-. right.
    exists (argmin scores). split; [| reflexivity].
    now apply RandomSearchMore.argmin_lt.
  - cbn [refine_best] in Hrun.
    destruct (nth_error params iii) as [row |]; [| discriminate].
    rewrite RandomSearchMore.fst_bind in Hrun.
    destruct (fst (affine_align _ _ _ _ _ _ _ _ _ _ _ _ _ _ _))
      as [refined | e]; [| discriminate].
    rewrite RandomSearchMore.fst_bind, fst_metric_evaluate in Hrun.
    assert (Hkeep : forall v, set_nth scores iii v <> []).
    { intros v Hnil. apply (f_equal (@List.length Q)) in Hnil.
      rewrite RandomSearchFacts.length_set_nth in Hnil.
      destruct scores; [contradiction | discriminate]. }
    destruct (MetricEvaluate _ f m) as [v | e].
    + destruct (IH _ _ _ _ (Hkeep v) Hrun) as [Heye | (k & Hk & HM)];
        [now left |].
      right. exists k.
      rewrite RandomSearchFacts.length_set_nth in Hk. now split.
    + destruct (best <=? S fail_count)%nat.
      * cbn in Hrun. injection Hrun as <-. now left.
      * destruct (IH _ _ _ _ (Hkeep float64_max) Hrun)
          as [Heye | (k & Hk & HM)]; [now left |].
        right. exists k.
        rewrite RandomSearchFacts.length_set_nth in Hk. now split.
Qed.

(** Asking for more refinements than there are rows runs off the end of
    [params]. *)
Lemma refine_best_index_error (best : nat) (s : sampled)
  (fix_origin mov_origin : option (vec3 Q)) (kw : kwargs) (shape : vec3 Z)
  (f m : sitk_image) (params : list (list Q)) :
  (forall it, exists M,
      fst (affine_align (s_fix s) (s_mov s) (s_fix_spacing s)
             (s_mov_spacing s) false (Some it) false None
             (s_fix_mask s) (s_mov_mask s) fix_origin mov_origin
             None (eye 4) kw) = Ok M) ->
  (List.length params < best)%nat ->
  forall (n a : nat) (irm : irm_state) (scores : list Q) (fail_count : nat),
    (a + n = List.length params)%nat ->
    (fail_count <= a)%nat ->
    fst (refine_best best s fix_origin mov_origin kw shape f m params
           (seq a (best - a)) irm scores fail_count) = Raise IndexError.
Proof.
  intros Haff Hlen.
  induction n as [| n IH]; intros a irm scores fail_count Ha Hfc.
  - replace (best - a)%nat with (S (best - S a)) by lia.
    cbn [seq refine_best].
    assert (Hnone : nth_error params a = None)
      by (apply nth_error_None; lia).
    rewrite Hnone. reflexivity.
  - replace (best - a)%nat with (S (best - S a)) by lia.
    cbn [seq refine_best].
    destruct (nth_error params a) as [row |] eqn:Hrow.
    2:{ apply nth_error_None in Hrow. lia. }
    rewrite RandomSearchMore.fst_bind.
    destruct (Haff (params_to_affine_matrix shape (s_fix_spacing s) row))
      as (M & HM).
    rewrite HM.
    rewrite RandomSearchMore.fst_bind, fst_metric_evaluate.
    destruct (MetricEvaluate _ f m) as [v | e].
    + apply IH; lia.
    + assert (Hb : (best <=? S fail_count)%nat = false)
        by (apply Nat.leb_gt; lia).
      rewrite Hb. apply IH; lia.
Qed.

(** X13.  With refinement switched on, the matrix that comes back is never one
    [affine_align] produced: it is the identity, or the matrix of one of the
    [affine_align_best] best ranked random candidates as it was drawn. *)
Theorem refinement_returns_unrefined_candidate
  (fix_im mov_im : image) (fix_spacing mov_spacing : vec3 Q)
  (max_translation max_rotation max_scale max_shear : Q)
  (random_iterations affine_align_best : nat)
  (alignment_spacing : option Q) (fix_mask mov_mask : option image)
  (fix_origin mov_origin : option (vec3 Q))
  (jaccard_filter_threshold : option Q) (kw : kwargs)
  (uninit : nat -> nat -> Q)
  (r : search_ready) (scores : list Q) (irm : irm_state) (t : list event)
  (M : mat) :
  let params := make_params max_translation max_rotation max_scale max_shear
                  random_iterations in
  let ranked := take_rows params (argsort scores) in
  let shape := shape3 (s_fix (r_sampled r)) in
  let spacing := s_fix_spacing (r_sampled r) in
  (0 < affine_align_best)%nat ->
  masks_fail_jaccard jaccard_filter_threshold fix_mask mov_mask = false ->
  search_setup fix_im mov_im fix_spacing mov_spacing alignment_spacing
    fix_mask mov_mask fix_origin mov_origin kw = Ok r ->
  score_all r params random_iterations uninit = (Completed scores irm, t) ->
  fst (random_affine_search fix_im mov_im fix_spacing mov_spacing
         max_translation max_rotation max_scale max_shear
         random_iterations affine_align_best alignment_spacing
         fix_mask mov_mask fix_origin mov_origin
         jaccard_filter_threshold kw uninit) = Ok M ->
  M = eye 4 \/
  exists k, (k < affine_align_best)%nat /\
            M = params_to_affine_matrix shape spacing (nth k ranked []).
Proof.
  intros params ranked shape spacing Hbest Hgate Hsetup Hscore Hrun.
  unfold random_affine_search in Hrun. rewrite Hgate, Hsetup in Hrun.
  fold params in Hrun.
  rewrite RandomSearchMore.fst_bind, Hscore in Hrun. cbn [fst] in Hrun.
  destruct affine_align_best as [| b]; [lia |]. cbn [Nat.eqb] in Hrun.
  apply refine_best_returns_row in Hrun.
  - rewrite length_map, length_seq in Hrun. exact Hrun.
  - discriminate.
Qed.

(** X14.  [affine_align_best] may not exceed the number of candidates: when the
    scoring loop runs to its end and more refinements are asked for than
    there are rows in [params], the call ends in [IndexError]. *)
Theorem refinement_beyond_candidates_raises
  (fix_im mov_im : image) (fix_spacing mov_spacing : vec3 Q)
  (max_translation max_rotation max_scale max_shear : Q)
  (random_iterations affine_align_best : nat)
  (alignment_spacing : option Q) (fix_mask mov_mask : option image)
  (fix_origin mov_origin : option (vec3 Q))
  (jaccard_filter_threshold : option Q) (kw : kwargs)
  (uninit : nat -> nat -> Q)
  (r : search_ready) (scores : list Q) (irm : irm_state) (t : list event) :
  let params := make_params max_translation max_rotation max_scale max_shear
                  random_iterations in
  (random_iterations + 1 < affine_align_best)%nat ->
  masks_fail_jaccard jaccard_filter_threshold fix_mask mov_mask = false ->
  search_setup fix_im mov_im fix_spacing mov_spacing alignment_spacing
    fix_mask mov_mask fix_origin mov_origin kw = Ok r ->
  score_all r params random_iterations uninit = (Completed scores irm, t) ->
  fst (random_affine_search fix_im mov_im fix_spacing mov_spacing
         max_translation max_rotation max_scale max_shear
         random_iterations affine_align_best alignment_spacing
         fix_mask mov_mask fix_origin mov_origin
         jaccard_filter_threshold kw uninit) = Raise IndexError.
Proof.
  intros params Hbest Hgate Hsetup Hscore.
  destruct (RandomSearchFacts.score_candidates_completed
              _ _ _ _ _ _ _ _ _ _ _ _ _ Hscore) as [_ Hlen].
  rewrite length_map, length_seq in Hlen.
  unfold random_affine_search. rewrite Hgate, Hsetup. fold params.
  rewrite RandomSearchMore.fst_bind, Hscore. cbn [fst].
  destruct affine_align_best as [| b] eqn:Hb; [lia |]. cbn [Nat.eqb].
  rewrite <- Hb.
  replace (seq 0 affine_align_best)
    with (seq 0 (affine_align_best - 0)) by (f_equal; lia).
  destruct (search_setup_converted _ _ _ _ _ _ _ _ _ _ _ Hsetup)
    as (C1 & C2 & C3 & C4 & C5).
  assert (Hrows : List.length (take_rows params (argsort scores))
                  = (random_iterations + 1)%nat).
  { unfold take_rows. rewrite length_map.
    rewrite (Permutation_length (RandomSearchFacts.argsort_perm scores)).
    rewrite length_seq. exact Hlen. }
  apply (refine_best_index_error affine_align_best (r_sampled r)
           fix_origin mov_origin kw _ (r_fix r) (r_mov r) _
           (fun it => affine_align_on_sampled_returns (r_sampled r)
                        fix_origin mov_origin kw it C1 C2 C3 C4 C5))
    with (n := (random_iterations + 1)%nat); lia.
Qed.

End Refinement.

(** Three random candidates, the best one refined by [Toy.descending]. *)
Lemma refinement_returns_unrefined_candidate_witness :
  exists M,
    fst (@random_affine_search Toy.toy_sitk Toy.descending Toy.toy_numerics
           (Toy.cube 2 [3; 1; 4; 1]%Q) (Toy.cube 2 [1; 5; 9; 2]%Q)
           Toy.unit_spacing Toy.unit_spacing 4 (1 # 2) 2 (1 # 10) 3 1
           None None None None None None tt (fun _ _ => 0%Q)) = Ok M /\
    (M = eye 4 \/
     exists k, (k < 1)%nat /\
       M = @params_to_affine_matrix Toy.toy_numerics (2, 2, 2)
             Toy.unit_spacing
             (nth k (take_rows
                       (@make_params Toy.toy_numerics 4 (1 # 2) 2 (1 # 10) 3)
                       (argsort Toy.scored_scores)) [])).
Proof.
  assert (Hscore :
    @score_all Toy.toy_sitk Toy.descending Toy.toy_numerics Toy.ready
      (@make_params Toy.toy_numerics 4 (1 # 2) 2 (1 # 10) 3)
      3 (fun _ _ => 0%Q) =
    (Completed Toy.scored_scores Toy.scored_irm, snd Toy.scored))
    by (vm_compute; reflexivity).
  eexists. split; [vm_compute; reflexivity |].
  apply (@refinement_returns_unrefined_candidate
           Toy.toy_sitk Toy.descending Toy.toy_numerics
           (Toy.cube 2 [3; 1; 4; 1]%Q) (Toy.cube 2 [1; 5; 9; 2]%Q)
           Toy.unit_spacing Toy.unit_spacing 4 (1 # 2) 2 (1 # 10) 3 1
           None None None None None None tt (fun _ _ => 0%Q)
           Toy.ready Toy.scored_scores Toy.scored_irm (snd Toy.scored) _
           (Nat.lt_0_succ 0) eq_refl eq_refl Hscore).
  vm_compute; reflexivity.
Defined.

(** Three random candidates and five refinements asked for. *)
Lemma refinement_beyond_candidates_raises_witness :
  fst (@random_affine_search Toy.toy_sitk Toy.descending Toy.toy_numerics
         (Toy.cube 2 [3; 1; 4; 1]%Q) (Toy.cube 2 [1; 5; 9; 2]%Q)
         Toy.unit_spacing Toy.unit_spacing 4 (1 # 2) 2 (1 # 10) 3 5
         None None None None None None tt (fun _ _ => 0%Q))
  = Raise IndexError.
Proof.
  assert (Hscore :
    @score_all Toy.toy_sitk Toy.descending Toy.toy_numerics Toy.ready
      (@make_params Toy.toy_numerics 4 (1 # 2) 2 (1 # 10) 3)
      3 (fun _ _ => 0%Q) =
    (Completed Toy.scored_scores Toy.scored_irm, snd Toy.scored))
    by (vm_compute; reflexivity).
  apply (@refinement_beyond_candidates_raises
           Toy.toy_sitk Toy.descending Toy.toy_numerics
           (Toy.cube 2 [3; 1; 4; 1]%Q) (Toy.cube 2 [1; 5; 9; 2]%Q)
           Toy.unit_spacing Toy.unit_spacing 4 (1 # 2) 2 (1 # 10) 3 5
           None None None None None None tt (fun _ _ => 0%Q)
           Toy.ready Toy.scored_scores Toy.scored_irm (snd Toy.scored)).
  - cbn. lia.
  - reflexivity.
  - reflexivity.
  - exact Hscore.
Defined.

End RefinementMore.

(** ** The schedules and the checkpoints of distributed_twist_align *)

Module TwistMore.

Import Twist TwistRuns.

Section Schedules.

Context `{TwistEnv}.

Variables fix_im mov_im : volume.
Variables fix_spacing mov_spacing : vec3 Q.
Variable initial_transform_list : option (list (Mat.mat + dfield)).
Variables fix_mask mov_mask : option volume.
Variable kw : twist_kwargs.

Lemma inner_levels_covered (ps : list twist_kwargs) (moving : volume)
  (moving_mask : option volume) :
  piecewise_returns fix_im fix_spacing fix_mask ->
  forall inner_list n ddd,
    (n + List.length inner_list <= List.length ps)%nat ->
    exists ddd',
      inner_levels fix_im fix_spacing (Some ps) fix_mask kw moving moving_mask
        inner_list n ddd = Ok (ddd', (n + List.length inner_list)%nat).
Proof.
  intros Hpw.
  induction inner_list as [| nblocks rest IH]; intros n ddd Hn.
  - exists ddd. cbn. now rewrite Nat.add_0_r.
  - cbn [inner_levels List.length] in *. unfold instance_kwargs.
    destruct (nth_error ps n) as [over |] eqn:Hover.
    2:{ apply nth_error_None in Hover. exfalso. lia. }
    destruct (Hpw moving nblocks moving_mask (merge_kwargs kw over))
      as [fld Hfld].
    rewrite Hfld.
    destruct (IH (S n) (fadd ddd fld)) as [ddd' Hrest]; [lia |].
    exists ddd'. rewrite Hrest. do 2 f_equal. lia.
Qed.

Lemma inner_levels_uncovered (ps : list twist_kwargs) (moving : volume)
  (moving_mask : option volume) :
  piecewise_returns fix_im fix_spacing fix_mask ->
  forall inner_list n ddd,
    (n <= List.length ps < n + List.length inner_list)%nat ->
    inner_levels fix_im fix_spacing (Some ps) fix_mask kw moving moving_mask
      inner_list n ddd = Raise IndexError.
Proof.
  intros Hpw.
  induction inner_list as [| nblocks rest IH]; intros n ddd Hn.
  - cbn in Hn. lia.
  - cbn [inner_levels List.length] in *. unfold instance_kwargs.
    destruct (nth_error ps n) as [over |] eqn:Hover; [| reflexivity].
    assert (Hlt : (n < List.length ps)%nat)
      by (apply nth_error_Some; congruence).
    destruct (Hpw moving nblocks moving_mask (merge_kwargs kw over))
      as [fld Hfld].
    rewrite Hfld. apply IH. lia.
Qed.

Lemma outer_levels_covered (ps : list twist_kwargs)
  (intermediates_path : option string) :
  piecewise_returns fix_im fix_spacing fix_mask ->
  forall block_schedule outer_level st,
    (counter st + List.length (concat block_schedule) <= List.length ps)%nat ->
    exists st',
      outer_levels fix_im mov_im fix_spacing mov_spacing (Some ps)
        initial_transform_list fix_mask mov_mask intermediates_path kw
        outer_level block_schedule st = Ok st'.
Proof.
  intros Hpw.
  induction block_schedule as [| inner_list rest IH];
    intros outer_level st Hn.
  - exists st. reflexivity.
  - cbn [concat] in Hn. rewrite length_app in Hn.
    cbn [outer_levels]. unfold outer_level_step, level_contribution.
    destruct (inner_levels_covered ps (current_moving st)
                (current_moving_mask st) Hpw inner_list (counter st)
                (zeros_like (deform st))) as [ddd' Hin]; [lia |].
    rewrite Hin. apply IH. cbn [counter]. lia.
Qed.

Lemma outer_levels_uncovered (ps : list twist_kwargs)
  (intermediates_path : option string) :
  piecewise_returns fix_im fix_spacing fix_mask ->
  forall block_schedule outer_level st,
    (counter st <= List.length ps
     < counter st + List.length (concat block_schedule))%nat ->
    outer_levels fix_im mov_im fix_spacing mov_spacing (Some ps)
      initial_transform_list fix_mask mov_mask intermediates_path kw
      outer_level block_schedule st = Raise IndexError.
Proof.
  intros Hpw.
  induction block_schedule as [| inner_list rest IH];
    intros outer_level st Hn.
  - cbn in Hn. lia.
  - cbn [concat] in Hn. rewrite length_app in Hn.
    cbn [outer_levels]. unfold outer_level_step, level_contribution.
    destruct (Nat.le_gt_cases (counter st + List.length inner_list)
                (List.length ps)) as [Hle | Hgt].
    + destruct (inner_levels_covered ps (current_moving st)
                  (current_moving_mask st) Hpw inner_list (counter st)
                  (zeros_like (deform st))) as [ddd' Hin]; [lia |].
      rewrite Hin. apply IH. cbn [counter]. lia.
    + rewrite (inner_levels_uncovered ps (current_moving st)
                 (current_moving_mask st) Hpw inner_list (counter st)
                 (zeros_like (deform st))) by lia.
      reflexivity.
Qed.

(** X15.  [parameter_schedule] is read with one running index over all inner
    levels of all outer levels: as long as the piecewise alignments return,
    the call returns when the schedule has an entry for each of them, and
    ends in [IndexError] when it has fewer. *)
Theorem parameter_schedule_covers_all_levels (ps : list twist_kwargs)
  (intermediates_path : option string)
  (block_schedule : list (list (list Z))) :
  piecewise_returns fix_im fix_spacing fix_mask ->
  ((List.length (concat block_schedule) <= List.length ps)%nat ->
   exists out,
     distributed_twist_align fix_im mov_im fix_spacing mov_spacing (Some ps)
       initial_transform_list fix_mask mov_mask intermediates_path kw
       block_schedule = Ok out) /\
  ((List.length ps < List.length (concat block_schedule))%nat ->
   distributed_twist_align fix_im mov_im fix_spacing mov_spacing (Some ps)
     initial_transform_list fix_mask mov_mask intermediates_path kw
     block_schedule = Raise IndexError).
Proof.
  intros Hpw. unfold distributed_twist_align. split; intros Hlen.
  - destruct (outer_levels_covered ps intermediates_path Hpw block_schedule
                0%nat
                (initial_state fix_im mov_im fix_spacing mov_spacing
                   initial_transform_list mov_mask)) as [st' Hst];
      [cbn [counter initial_state]; lia |].
    rewrite Hst. eexists. reflexivity.
  - rewrite (outer_levels_uncovered ps intermediates_path Hpw block_schedule
               0%nat
               (initial_state fix_im mov_im fix_spacing mov_spacing
                  initial_transform_list mov_mask))
      by (cbn [counter initial_state]; lia).
    reflexivity.
Qed.

Variable parameter_schedule : option (list twist_kwargs).
Variable path : string.

Lemma outer_level_step_saves (outer_level : nat) (inner_list : list (list Z))
  (st st' : twist_state) :
  outer_level_step fix_im mov_im fix_spacing mov_spacing parameter_schedule
    initial_transform_list fix_mask mov_mask (Some path) kw
    outer_level inner_list st = Ok st' ->
  saved st' = saved st ++ [checkpoint_of mov_mask outer_level st'].
Proof.
  unfold outer_level_step.
  destruct (level_contribution _ _ _ _ _ st inner_list) as [[ddd n] | e];
    [| discriminate].
  intros Hst. injection Hst as <-. unfold checkpoint_of. cbn.
  destruct mov_mask; reflexivity.
Qed.

Lemma outer_levels_save (block_schedule : list (list (list Z))) :
  forall outer_level st st',
    outer_levels fix_im mov_im fix_spacing mov_spacing parameter_schedule
      initial_transform_list fix_mask mov_mask (Some path) kw
      outer_level block_schedule st = Ok st' ->
    map ck_level (saved st') =
      map ck_level (saved st) ++ seq outer_level (List.length block_schedule)
    /\
    (block_schedule <> [] ->
     exists front,
       saved st' =
       front ++
       [checkpoint_of mov_mask (outer_level + List.length block_schedule - 1) st']).
Proof.
  induction block_schedule as [| inner_list rest IH];
    intros outer_level st st' Hrun.
  - cbn in Hrun. injection Hrun as <-. cbn. rewrite app_nil_r.
    split; [reflexivity | congruence].
  - cbn [outer_levels] in Hrun.
    destruct (outer_level_step _ _ _ _ _ _ _ _ _ _ outer_level inner_list st)
      as [st1 | e] eqn:Hstep; [| discriminate].
    apply outer_level_step_saves in Hstep.
    destruct (IH _ _ _ Hrun) as [Hlevels Hlast].
    split.
    + rewrite Hlevels, Hstep, map_app, <- app_assoc. reflexivity.
    + intros _. destruct rest as [| inner_list' rest'].
      * cbn in Hrun. injection Hrun as <-. exists (saved st).
        rewrite Hstep at 1. cbn [List.length].
        replace (outer_level + 1 - 1)%nat with outer_level by lia.
        reflexivity.
      * destruct Hlast as [front Hfront]; [discriminate |].
        exists front. rewrite Hfront at 1.
        replace (S outer_level + List.length (inner_list' :: rest') - 1)%nat
          with (outer_level + List.length (inner_list :: inner_list' :: rest')
                - 1)%nat by (cbn [List.length]; lia).
        reflexivity.
Qed.

(** The transforms an outer level resamples the moving image with: the
    initial ones, then the field. *)
Lemma outer_level_step_warps (intermediates_path : option string)
  (outer_level : nat) (inner_list : list (list Z)) (st st' : twist_state) :
  outer_level_step fix_im mov_im fix_spacing mov_spacing parameter_schedule
    initial_transform_list fix_mask mov_mask intermediates_path kw
    outer_level inner_list st = Ok st' ->
  current_moving st' =
  apply_transform fix_im mov_im fix_spacing mov_spacing
    (match initial_transform_list with
     | Some tl => tl ++ [inr (deform st')]
     | None => [inr (deform st')]
     end).
Proof.
  unfold outer_level_step.
  destruct (level_contribution _ _ _ _ _ st inner_list) as [[ddd n] | e];
    [| discriminate].
  intros Hst. injection Hst as <-. reflexivity.
Qed.

Lemma outer_levels_warp (intermediates_path : option string)
  (block_schedule : list (list (list Z))) :
  forall outer_level st st',
    block_schedule <> [] ->
    outer_levels fix_im mov_im fix_spacing mov_spacing parameter_schedule
      initial_transform_list fix_mask mov_mask intermediates_path kw
      outer_level block_schedule st = Ok st' ->
    current_moving st' =
    apply_transform fix_im mov_im fix_spacing mov_spacing
      (match initial_transform_list with
       | Some tl => tl ++ [inr (deform st')]
       | None => [inr (deform st')]
       end).
Proof.
  induction block_schedule as [| inner_list rest IH];
    intros outer_level st st' Hne Hrun; [congruence |].
  cbn [outer_levels] in Hrun.
  destruct (outer_level_step _ _ _ _ _ _ _ _ _ _ outer_level inner_list st)
    as [st1 | e] eqn:Hstep; [| discriminate].
  destruct rest as [| inner_list' rest'].
  - cbn in Hrun. injection Hrun as <-.
    exact (outer_level_step_warps _ _ _ _ _ Hstep).
  - apply (IH (S outer_level) st1 st'); [discriminate | exact Hrun].
Qed.

(** X16.  With an [intermediates_path], a run that comes to its end has written
    one checkpoint per outer level, numbered from 0 in the order of the
    schedule, and the last one holds the field that is returned, next to the
    moving image warped by it: the moving image resampled with the initial
    transforms followed by that field. *)
Theorem checkpoints_follow_outer_levels
  (block_schedule : list (list (list Z))) (st : twist_state) :
  outer_levels fix_im mov_im fix_spacing mov_spacing parameter_schedule
    initial_transform_list fix_mask mov_mask (Some path) kw
    0 block_schedule
    (initial_state fix_im mov_im fix_spacing mov_spacing
       initial_transform_list mov_mask) = Ok st ->
  distributed_twist_align fix_im mov_im fix_spacing mov_spacing
    parameter_schedule initial_transform_list fix_mask mov_mask (Some path)
    kw block_schedule = Ok (deform st) /\
  map ck_level (saved st) = seq 0 (List.length block_schedule) /\
  (block_schedule <> [] ->
   exists front ck,
     saved st = front ++ [ck] /\
     ck_deform ck = deform st /\ ck_image ck = current_moving st /\
     ck_image ck =
     apply_transform fix_im mov_im fix_spacing mov_spacing
       (match initial_transform_list with
        | Some tl => tl ++ [inr (deform st)]
        | None => [inr (deform st)]
        end)).
Proof.
  intros Hrun. split; [| split].
  - unfold distributed_twist_align. rewrite Hrun. reflexivity.
  - destruct (outer_levels_save _ _ _ _ Hrun) as [Hlevels _].
    exact Hlevels.
  - intros Hne. destruct (outer_levels_save _ _ _ _ Hrun) as [_ Hlast].
    destruct (Hlast Hne) as [front Hfront].
    exists front, (checkpoint_of mov_mask (0 + List.length block_schedule - 1) st).
    split; [exact Hfront |]. split; [reflexivity |].
    split; [reflexivity |].
    exact (outer_levels_warp _ _ _ _ _ Hne Hrun).
Qed.

End Schedules.

(** Two outer levels of three inner levels in all, against schedules of
    three and of two entries. *)
Lemma parameter_schedule_covers_all_levels_witness :
  (exists out,
     @distributed_twist_align Toy.toy_twist 7 9 Toy.unit_spacing
       Toy.unit_spacing (Some [tt; tt; tt]) None None None None tt
       [[[2; 1; 1]]; [[1; 2; 1]; [1; 1; 2]]] = Ok out) /\
  @distributed_twist_align Toy.toy_twist 7 9 Toy.unit_spacing
    Toy.unit_spacing (Some [tt; tt]) None None None None tt
    [[[2; 1; 1]]; [[1; 2; 1]; [1; 1; 2]]] = Raise IndexError.
Proof.
  assert (Hpw : @piecewise_returns Toy.toy_twist 7 Toy.unit_spacing None).
  { intros moving nblocks moving_mask ikw. eexists. reflexivity. }
  split.
  - apply (proj1 (@parameter_schedule_covers_all_levels Toy.toy_twist 7 9
                    Toy.unit_spacing Toy.unit_spacing None None None tt
                    [tt; tt; tt] None
                    [[[2; 1; 1]]; [[1; 2; 1]; [1; 1; 2]]] Hpw)).
    cbn. lia.
  - apply (proj2 (@parameter_schedule_covers_all_levels Toy.toy_twist 7 9
                    Toy.unit_spacing Toy.unit_spacing None None None tt
                    [tt; tt] None
                    [[[2; 1; 1]]; [[1; 2; 1]; [1; 1; 2]]] Hpw)).
    cbn. lia.
Defined.

(** Two outer levels with checkpoints switched on. *)
Lemma checkpoints_follow_outer_levels_witness :
  exists st,
    @distributed_twist_align Toy.toy_twist 7 9 Toy.unit_spacing
      Toy.unit_spacing None None None None (Some "out"%string) tt
      [[[2; 1; 1]]; [[1; 2; 1]; [1; 1; 2]]] = Ok (@deform Toy.toy_twist st) /\
    map (@ck_level Toy.toy_twist) (@saved Toy.toy_twist st) = seq 0 2 /\
    ([[[2; 1; 1]]; [[1; 2; 1]; [1; 1; 2]]] <> [] ->
     exists front ck,
       @saved Toy.toy_twist st = front ++ [ck] /\
       @ck_deform Toy.toy_twist ck = @deform Toy.toy_twist st /\
       @ck_image Toy.toy_twist ck = @current_moving Toy.toy_twist st /\
       @ck_image Toy.toy_twist ck =
       @apply_transform Toy.toy_twist 7 9 Toy.unit_spacing Toy.unit_spacing
         [inr (@deform Toy.toy_twist st)]).
Proof.
  eexists.
  apply (@checkpoints_follow_outer_levels Toy.toy_twist 7 9 Toy.unit_spacing
           Toy.unit_spacing None None None tt None "out"%string
           [[[2; 1; 1]]; [[1; 2; 1]; [1; 1; 2]]]).
  vm_compute. reflexivity.
Defined.

End TwistMore.

(** ** The field of distributed_piecewise_exhaustive_translation *)

Module TranslationMore.

Import Numpy Translation TranslationRuns TranslationFacts.




(** A sample whose window does not hold [p] adds nothing there. *)
Lemma summed_outside (shape stride p : vec3 Z) :
  forall (samples : list (vec3 Q * vec3 Z)) (acc : vec3 Q),
    (forall sample, In sample samples ->
                    in_window shape stride (snd sample) p = false) ->
    fold_left (add_contribution shape stride p) samples acc = acc.
Proof.
  induction samples as [| sample rest IH]; intros acc Hout; cbn;
    [reflexivity |].
  unfold add_contribution at 2. rewrite (Hout sample) by now left.
  apply IH. intros s' Hs'. apply Hout. now right.
Qed.

Lemma in_slice_beyond_reach (n l s c p : Z) :
  0 < s -> s <= l -> inside n c l -> beyond_reach n l s p ->
  in_slice (slice_of n c s) p = false.
Proof.
  intros Hs Hsl Hin Hp.
  rewrite (in_slice_inside n c s p) by
    (try apply (inside_smaller n c l s Hin Hsl); lia).
  unfold inside in Hin. unfold beyond_reach in Hp.
  destruct (Z.leb_spec (c - s) p), (Z.ltb_spec p (c + s + 1));
    cbn; try reflexivity; lia.
Qed.

(** *** The sample points form a grid *)

Lemma slice_indices_spaced (n start stop step : Z) (l : list Z) (x x' : Z) :
  0 < step ->
  slice_indices n start stop step = Ok l ->
  In x l -> In x' l -> x = x' \/ step <= Z.abs (x - x').
Proof.
  intros Hs. unfold slice_indices.
  destruct (Z.eqb_spec step 0) as [-> | _]; [lia |].
  intros Hl. injection Hl as <-.
  intros Hx Hx'.
  apply in_map_iff in Hx as (i & <- & _).
  apply in_map_iff in Hx' as (j & <- & _).
  destruct (Nat.eq_dec i j) as [-> | Hne]; [now left | right].
  nia.
Qed.

Lemma slice_indices_nodup (n start stop step : Z) (l : list Z) :
  slice_indices n start stop step = Ok l -> NoDup l.
Proof.
  unfold slice_indices.
  destruct (Z.eqb_spec step 0) as [-> | Hs]; [discriminate |].
  intros Hl. injection Hl as <-.
  apply NoDup_map_NoDup_ForallPairs; [| apply seq_NoDup].
  intros i j _ _ Heq. nia.
Qed.

Lemma NoDup_flat_map {A B} (f : A -> list B) (l : list A) :
  NoDup l ->
  (forall x, In x l -> NoDup (f x)) ->
  (forall x x' y, In x l -> In x' l -> In y (f x) -> In y (f x') -> x = x') ->
  NoDup (flat_map f l).
Proof.
  induction 1 as [| x l Hx Hl IH]; intros Hf Hdisj; cbn; [constructor |].
  apply NoDup_app.
  - apply Hf. now left.
  - apply IH.
    + intros x' Hx'. apply Hf. now right.
    + intros a b y Ha Hb. apply Hdisj; now right.
  - intros y Hy Hy'. apply in_flat_map in Hy' as (x' & Hx' & Hyx').
    assert (x = x') by (apply (Hdisj x x' y); auto; [now left | now right]).
    subst x'. contradiction.
Qed.

Lemma grid_nodup (xs ys zs : list Z) :
  NoDup xs -> NoDup ys -> NoDup zs ->
  NoDup (flat_map
           (fun x => flat_map (fun y => map (fun z => (x, y, z)) zs) ys) xs).
Proof.
  intros Hx Hy Hz.
  apply NoDup_flat_map; [exact Hx | |].
  - intros x _. apply NoDup_flat_map; [exact Hy | |].
    + intros y _. apply NoDup_map_NoDup_ForallPairs; [| exact Hz].
      intros a b _ _ Heq. congruence.
    + intros y y' p _ _ Hp Hp'.
      apply in_map_iff in Hp as (z & <- & _).
      apply in_map_iff in Hp' as (z' & Heq & _). congruence.
  - intros x x' p _ _ Hp Hp'.
    apply in_flat_map in Hp as (y & _ & Hp).
    apply in_flat_map in Hp' as (y' & _ & Hp').
    apply in_map_iff in Hp as (z & <- & _).
    apply in_map_iff in Hp' as (z' & Heq & _). congruence.
Qed.

(** No sample point comes twice, and two of them are at least a stride
    apart along some axis. *)
Lemma sample_points_grid (n0 n1 n2 l0 l1 l2 s0 s1 s2 : Z)
  (mask : option (vec3 Z -> bool)) (samples : list (vec3 Z)) :
  all3 (fun s => 0 < s) (s0, s1, s2) ->
  sample_points (n0, n1, n2) (l0, l1, l2) (s0, s1, s2) mask = Ok samples ->
  NoDup samples /\
  forall c c', In c samples -> In c' samples -> c <> c' ->
               stride_apart (s0, s1, s2) c' c.
Proof.
  cbn [all3]. intros (Hs0 & Hs1 & Hs2).
  unfold sample_points.
  destruct (slice_indices n0 l0 (- l0) s0) as [xs | e] eqn:Hx;
    [| discriminate].
  destruct (slice_indices n1 l1 (- l1) s1) as [ys | e] eqn:Hy;
    [| discriminate].
  destruct (slice_indices n2 l2 (- l2) s2) as [zs | e] eqn:Hz;
    [| discriminate].
  intros Hsamples. injection Hsamples as <-.
  set (grid := flat_map
                 (fun x => flat_map (fun y => map (fun z => (x, y, z)) zs) ys)
                 xs).
  assert (Hnodup : NoDup grid).
  { apply grid_nodup; eapply slice_indices_nodup; eassumption. }
  assert (Hgrid : forall c, In c grid ->
            In (fst (fst c)) xs /\ In (snd (fst c)) ys /\ In (snd c) zs).
  { intros c Hc.
    apply in_flat_map in Hc as (x & Hxin & Hc).
    apply in_flat_map in Hc as (y & Hyin & Hc).
    apply in_map_iff in Hc as (z & <- & Hzin). cbn. auto. }
  assert (Hsub : forall c, In c (match mask with
                                 | Some keep => filter keep grid
                                 | None => grid
                                 end) -> In c grid).
  { intros c Hc. destruct mask as [keep |]; [| exact Hc].
    apply filter_In in Hc. tauto. }
  split.
  - destruct mask as [keep |]; [apply NoDup_filter |]; exact Hnodup.
  - intros [[c0 c1] c2] [[d0 d1] d2] Hc Hd Hne.
    destruct (Hgrid _ (Hsub _ Hc)) as (X & Y & Z0).
    destruct (Hgrid _ (Hsub _ Hd)) as (X' & Y' & Z').
    cbn [fst snd] in *. cbn [stride_apart].
    destruct (slice_indices_spaced _ _ _ _ _ c0 d0 Hs0 Hx X X') as [E0 | A0];
      [| now left].
    destruct (slice_indices_spaced _ _ _ _ _ c1 d1 Hs1 Hy Y Y') as [E1 | A1];
      [| right; now left].
    destruct (slice_indices_spaced _ _ _ _ _ c2 d2 Hs2 Hz Z0 Z') as [E2 | A2];
      [| right; now right].
    congruence.
Qed.

(** *** Sums of contributions up to equality of rationals *)

Lemma veq_refl (u : vec3 Q) : veq u u.
Proof. destruct u as [[a b] c]. cbn. repeat split; reflexivity. Qed.

Lemma veq_trans (u v w : vec3 Q) : veq u v -> veq v w -> veq u w.
Proof.
  destruct u as [[a b] c], v as [[a' b'] c'], w as [[x y] z]. cbn.
  intros (A & B & C) (A' & B' & C').
  repeat split; etransitivity; eassumption.
Qed.

(** A sample at least a stride away from [c] adds nothing at [c]: [c] is
    outside its window or on the border, where the weight is zero. *)
Lemma other_sample_adds_nothing (shape stride c c' : vec3 Z)
  (t acc : vec3 Q) :
  all3 (fun s => 0 < s) stride ->
  inside3 shape c' stride ->
  stride_apart stride c' c ->
  held_as_float32 acc ->
  veq (add_contribution shape stride c acc (t, c')) acc.
Proof.
  destruct shape as [[n0 n1] n2], stride as [[s0 s1] s2],
    c as [[c0 c1] c2], c' as [[d0 d1] d2], t as [[t0 t1] t2],
    acc as [[a0 a1] a2].
  cbn [all3 inside3 stride_apart held_as_float32 veq vmap].
  intros (Hs0 & Hs1 & Hs2) (I0 & I1 & I2) Hapart (F0 & F1 & F2).
  unfold add_contribution. cbn [fst snd].
  destruct (in_window (n0, n1, n2) (s0, s1, s2) (d0, d1, d2) (c0, c1, c2))
    eqn:W; [| apply veq_refl].
  cbn [in_window] in W.
  rewrite !in_slice_inside in W by (assumption || lia).
  apply andb_true_iff in W as [W W2]. apply andb_true_iff in W as [W0 W1].
  apply andb_true_iff in W0 as [L0 U0]. apply andb_true_iff in W1 as [L1 U1].
  apply andb_true_iff in W2 as [L2 U2].
  apply Z.leb_le in L0, L1, L2. apply Z.ltb_lt in U0, U1, U2.
  assert (Hw : (weights (s0, s1, s2)
                  (window_index (n0, n1, n2) (s0, s1, s2) (d0, d1, d2)
                     (c0, c1, c2)) == 0)%Q).
  { cbn [window_index weights].
    rewrite (proj1 (slice_of_inside n0 d0 s0 I0 (Z.lt_le_incl _ _ Hs0))).
    rewrite (proj1 (slice_of_inside n1 d1 s1 I1 (Z.lt_le_incl _ _ Hs1))).
    rewrite (proj1 (slice_of_inside n2 d2 s2 I2 (Z.lt_le_incl _ _ Hs2))).
    cbn [fst].
    destruct Hapart as [A | [A | A]].
    - rewrite (linear_ramp_edge s0 (c0 - (d0 - s0)) Hs0) by lia. ring.
    - rewrite (linear_ramp_edge s1 (c1 - (d1 - s1)) Hs1) by lia. ring.
    - rewrite (linear_ramp_edge s2 (c2 - (d2 - s2)) Hs2) by lia. ring. }
  cbn [veq vaccumulate vzip].
  repeat split; apply accumulate_nothing; assumption.
Qed.

(** The sample at [c] adds its own translation there, in full. *)
Lemma own_sample_adds_translation (shape stride c : vec3 Z) (t acc : vec3 Q) :
  all3 (fun s => 0 < s) stride ->
  inside3 shape c stride ->
  veq acc vzero ->
  add_contribution shape stride c acc (t, c) = stored t.
Proof.
  destruct shape as [[n0 n1] n2], stride as [[s0 s1] s2],
    c as [[c0 c1] c2], t as [[t0 t1] t2], acc as [[a0 a1] a2].
  cbn [all3 inside3 veq vzero].
  intros (Hs0 & Hs1 & Hs2) (I0 & I1 & I2) (A0 & A1 & A2).
  unfold add_contribution. cbn [fst snd in_window window_index].
  rewrite !in_slice_inside by (assumption || lia).
  rewrite (proj1 (slice_of_inside n0 c0 s0 I0 (Z.lt_le_incl _ _ Hs0))).
  rewrite (proj1 (slice_of_inside n1 c1 s1 I1 (Z.lt_le_incl _ _ Hs1))).
  rewrite (proj1 (slice_of_inside n2 c2 s2 I2 (Z.lt_le_incl _ _ Hs2))).
  cbn [fst].
  replace ((c0 - s0 <=? c0) && (c0 <? c0 + s0 + 1)) with true
    by (symmetry; apply andb_true_iff; split;
        [apply Z.leb_le | apply Z.ltb_lt]; lia).
  replace ((c1 - s1 <=? c1) && (c1 <? c1 + s1 + 1)) with true
    by (symmetry; apply andb_true_iff; split;
        [apply Z.leb_le | apply Z.ltb_lt]; lia).
  replace ((c2 - s2 <=? c2) && (c2 <? c2 + s2 + 1)) with true
    by (symmetry; apply andb_true_iff; split;
        [apply Z.leb_le | apply Z.ltb_lt]; lia).
  cbn [andb vaccumulate stored vzip vmap].
  assert (Hw : Qeq (weights (s0, s1, s2)
                      (c0 - (c0 - s0), c1 - (c1 - s1), c2 - (c2 - s2))) 1).
  { cbn [weights].
    rewrite (linear_ramp_center s0 (c0 - (c0 - s0))) by lia.
    rewrite (linear_ramp_center s1 (c1 - (c1 - s1))) by lia.
    rewrite (linear_ramp_center s2 (c2 - (c2 - s2))) by lia.
    ring. }
  rewrite (accumulate_ext _ 1 a0 0 t0 t0 Hw A0 (Qeq_refl t0)).
  rewrite (accumulate_ext _ 1 a1 0 t1 t1 Hw A1 (Qeq_refl t1)).
  rewrite (accumulate_ext _ 1 a2 0 t2 t2 Hw A2 (Qeq_refl t2)).
  rewrite !accumulate_first by reflexivity. reflexivity.
Qed.

Lemma held_as_float32_ext (u v : vec3 Q) :
  veq u v -> held_as_float32 v -> held_as_float32 u.
Proof.
  destruct u as [[a b] c], v as [[x y] z].
  unfold held_as_float32. cbn [veq vmap].
  intros (A & B & C) (X & Y & Z).
  unfold float32 in *.
  rewrite (FloatFacts.fl_round_ext 24 a x A),
    (FloatFacts.fl_round_ext 24 b y B), (FloatFacts.fl_round_ext 24 c z C).
  repeat split; etransitivity; eassumption || (symmetry; eassumption).
Qed.

Lemma held_as_float32_zero : held_as_float32 vzero.
Proof. vm_compute. repeat split; reflexivity. Qed.

Lemma held_as_float32_stored (t : vec3 Q) : held_as_float32 (stored t).
Proof.
  destruct t as [[a b] c]. unfold held_as_float32, stored. cbn [veq vmap].
  repeat split; apply FloatFacts.float32_float32.
Qed.

(** A translation whose components are float32 numbers is stored as it
    is. *)
Lemma stored_float32 (t : vec3 Q) : held_as_float32 t -> veq (stored t) t.
Proof.
  destruct t as [[a b] c]. unfold held_as_float32, stored. cbn [veq vmap].
  intros (A & B & C). repeat split; now apply float32_of_float64.
Qed.

Lemma others_add_nothing (shape stride c : vec3 Z) :
  all3 (fun s => 0 < s) stride ->
  forall (samples : list (vec3 Q * vec3 Z)) (acc : vec3 Q),
    (forall sample, In sample samples ->
       inside3 shape (snd sample) stride /\
       stride_apart stride (snd sample) c) ->
    held_as_float32 acc ->
    veq (fold_left (add_contribution shape stride c) samples acc) acc.
Proof.
  intros Hstride.
  induction samples as [| [t c'] rest IH]; intros acc Hall Hacc;
    cbn [fold_left]; [apply veq_refl |].
  destruct (Hall (t, c')) as [Hin Hap]; [now left |].
  pose proof (other_sample_adds_nothing shape stride c c' t acc
                Hstride Hin Hap Hacc) as Hstep.
  eapply veq_trans; [| exact Hstep].
  apply IH.
  - intros s' Hs'. apply Hall. now right.
  - exact (held_as_float32_ext _ _ Hstep Hacc).
Qed.

Lemma in_combine_translations (block_translation : vec3 Z -> result (vec3 Q))
  (ts : list (vec3 Q)) (samples : list (vec3 Z)) :
  Forall2 (fun t c => block_translation c = Ok t) ts samples ->
  forall c, In c samples ->
    exists t pre post,
      block_translation c = Ok t /\
      combine ts samples = pre ++ (t, c) :: post /\
      (forall sample, In sample (pre ++ post) -> In (snd sample) samples) /\
      (NoDup samples -> forall sample, In sample (pre ++ post) ->
                                       snd sample <> c).
Proof.
  induction 1 as [| t0 c0 ts samples Ht0 Hrest IH]; intros c Hc;
    [destruct Hc |].
  cbn [combine].
  destruct Hc as [<- | Hc].
  - exists t0, [], (combine ts samples).
    split; [exact Ht0 |]. split; [reflexivity |]. cbn [app]. split.
    + intros [t' c'] Hin. right. exact (in_combine_r _ _ _ _ Hin).
    + intros Hnd [t' c'] Hin Heq. cbn [snd] in Heq. subst c'.
      apply in_combine_r in Hin. inversion Hnd; contradiction.
  - destruct (IH c Hc) as (t & pre & post & Ht & Hsplit & Hin & Hne).
    exists t, ((t0, c0) :: pre), post.
    split; [exact Ht |]. split; [rewrite Hsplit; reflexivity |].
    cbn [app]. split.
    + intros sample [<- | Hs]; [now left | right; now apply Hin].
    + intros Hnd sample [<- | Hs].
      * cbn [snd]. intros ->. inversion Hnd; contradiction.
      * inversion Hnd; subst. now apply Hne.
Qed.

Lemma combine_map_self {A B} (f : A -> B) (l : list A) :
  combine (map f l) l = map (fun c => (f c, c)) l.
Proof. induction l as [| x l IH]; cbn; [reflexivity | now rewrite IH]. Qed.

Section Field.

Variable block_translation : vec3 Z -> result (vec3 Q).
Variable empty_chunk : result unit.
Variable gaussian_filter : (vec3 Z -> Q) -> vec3 Q -> vec3 Z -> Q.


(** X18.  Without smoothing the field is zero wherever no sample window reaches:
    at every voxel that lies, along some axis, more than a stride before the
    first or after the last index a sample may have. *)
Theorem field_vanishes_near_border
  (shape : vec3 Z) (fix_spacing : vec3 Q)
  (stride query_radius num_steps step_sizes : vec3 Z) (smooth_sigma : Q)
  (mask : option (vec3 Z -> bool)) (dvf : dvf_array) (p : vec3 Z) :
  let limit :=
    edge_limit (search_radius query_radius num_steps step_sizes) stride in
  all3 (fun n => 0 <= n) shape ->
  all3 (fun s => 0 < s) stride ->
  (smooth_sigma <= 0)%Q ->
  distributed_piecewise_exhaustive_translation block_translation
    empty_chunk gaussian_filter shape fix_spacing stride query_radius
    num_steps step_sizes smooth_sigma mask = Ok dvf ->
  near_border shape limit stride p ->
  dvf p = vzero.
Proof.
  intros limit Hshape Hstride Hsigma Hrun Hp.
  destruct (edge_limit_bounds
              (search_radius query_radius num_steps step_sizes) stride
              Hstride) as [Hlimit Hle].
  fold limit in Hlimit, Hle.
  unfold distributed_piecewise_exhaustive_translation in Hrun.
  fold limit in Hrun.
  destruct (sample_points shape limit stride mask) as [samples | e]
    eqn:Hsamples; [| discriminate].
  destruct (forallb _ samples); [| discriminate].
  destruct (dispatch block_translation empty_chunk samples)
    as [translations | e]; [| discriminate].
  destruct (stitch shape stride (fun _ => vzero)
              (combine translations samples))
    as [dvf1 | e] eqn:Hstitch; [| discriminate].
  injection Hrun as <-.
  unfold smooth. apply Qle_bool_iff in Hsigma. rewrite Hsigma.
  rewrite (stitch_sums _ _ _ _ _ Hstitch p). unfold summed_at.
  apply summed_outside. intros [t c] Hin. cbn [snd].
  apply in_combine_r in Hin.
  revert Hsamples Hin Hlimit Hle Hp. generalize limit. clear limit.
  intros limit Hsamples Hin Hlimit Hle Hp.
  destruct shape as [[n0 n1] n2], stride as [[s0 s1] s2],
    limit as [[l0 l1] l2], p as [[p0 p1] p2].
  pose proof (sample_points_inside _ _ _ _ _ _ _ _ _ mask samples c
                Hshape Hstride Hlimit Hsamples Hin) as Hinside.
  destruct c as [[c0 c1] c2].
  destruct (search_radius query_radius num_steps step_sizes)
    as [[r0 r1] r2].
  cbn [all3 inside3 near_border in_window] in *.
  destruct Hinside as (I0 & I1 & I2).
  destruct Hp as [B | [B | B]].
  - rewrite (in_slice_beyond_reach n0 l0 s0 c0 p0) by (assumption || lia).
    reflexivity.
  - rewrite (in_slice_beyond_reach n1 l1 s1 c1 p1) by (assumption || lia).
    rewrite andb_false_r. reflexivity.
  - rewrite (in_slice_beyond_reach n2 l2 s2 c2 p2) by (assumption || lia).
    rewrite andb_false_r. reflexivity.
Qed.

(** X19.  Without smoothing the stitched field passes through the translations
    found, as far as a float32 holds them: the block cut around a sample
    point was aligned, and at that point the field holds the float32 of the
    double translation found there, which is the translation itself when
    its components are float32 numbers. *)
Theorem field_interpolates_translations
  (shape : vec3 Z) (fix_spacing : vec3 Q)
  (stride query_radius num_steps step_sizes : vec3 Z) (smooth_sigma : Q)
  (mask : option (vec3 Z -> bool)) (dvf : dvf_array)
  (samples : list (vec3 Z)) (c : vec3 Z) :
  let limit :=
    edge_limit (search_radius query_radius num_steps step_sizes) stride in
  all3 (fun n => 0 <= n) shape ->
  all3 (fun s => 0 < s) stride ->
  (smooth_sigma <= 0)%Q ->
  distributed_piecewise_exhaustive_translation block_translation
    empty_chunk gaussian_filter shape fix_spacing stride query_radius
    num_steps step_sizes smooth_sigma mask = Ok dvf ->
  sample_points shape limit stride mask = Ok samples ->
  In c samples ->
  exists t,
    block_translation c = Ok t /\
    veq (dvf c) (stored t) /\
    (held_as_float32 t -> veq (dvf c) t).
Proof.
  intros limit Hshape Hstride Hsigma Hrun Hsamples Hc.
  destruct (edge_limit_bounds
              (search_radius query_radius num_steps step_sizes) stride
              Hstride) as [Hlimit Hle].
  fold limit in Hlimit, Hle.
  unfold distributed_piecewise_exhaustive_translation in Hrun.
  fold limit in Hrun. rewrite Hsamples in Hrun.
  destruct (forallb _ samples); [| discriminate].
  destruct (dispatch block_translation empty_chunk samples)
    as [translations | e] eqn:Hdispatch; [| discriminate].
  destruct (stitch shape stride (fun _ => vzero)
              (combine translations samples))
    as [dvf1 | e] eqn:Hstitch; [| discriminate].
  injection Hrun as <-.
  unfold smooth. apply Qle_bool_iff in Hsigma. rewrite Hsigma.
  rewrite (stitch_sums _ _ _ _ _ Hstitch c). unfold summed_at.
  assert (Hfacts :
    NoDup samples /\
    (forall c', In c' samples -> inside3 shape c' stride) /\
    (forall c', In c' samples -> c' <> c -> stride_apart stride c' c)).
  { revert Hsamples Hlimit Hle. generalize limit. clear limit.
    intros limit Hsamples Hlimit Hle.
    destruct shape as [[n0 n1] n2], stride as [[s0 s1] s2],
      limit as [[l0 l1] l2].
    destruct (sample_points_grid _ _ _ _ _ _ _ _ _ mask samples
                Hstride Hsamples) as [Hnodup Hapart].
    split; [exact Hnodup |]. split.
    - intros c' Hc'.
      apply (inside3_smaller (n0, n1, n2) c' (l0, l1, l2) (s0, s1, s2)).
      + exact (sample_points_inside _ _ _ _ _ _ _ _ _ mask samples c'
                 Hshape Hstride Hlimit Hsamples Hc').
      + destruct (search_radius query_radius num_steps step_sizes)
          as [[r0 r1] r2]. cbn in Hle. lia.
    - intros c' Hc' Hne. apply Hapart; auto. }
  destruct Hfacts as (Hnodup & Hinside & Hapart).
  destruct (in_combine_translations block_translation translations samples
              (dispatch_spec _ _ _ _ Hdispatch) c Hc)
    as (t & pre & post & Ht & Hsplit & Hin & Hne).
  assert (Hother : forall sample, In sample (pre ++ post) ->
            inside3 shape (snd sample) stride /\
            stride_apart stride (snd sample) c).
  { intros sample Hs. split; [apply Hinside; now apply Hin |].
    apply Hapart; [now apply Hin | now apply Hne]. }
  assert (Hfield :
    veq (fold_left (add_contribution shape stride c)
           (combine translations samples) vzero) (stored t)).
  { rewrite Hsplit, fold_left_app. cbn [fold_left].
    rewrite (own_sample_adds_translation shape stride c t _ Hstride
               (Hinside c Hc)).
    - apply (others_add_nothing shape stride c Hstride).
      + intros sample Hs. apply Hother. apply in_or_app. now right.
      + apply held_as_float32_stored.
    - apply (others_add_nothing shape stride c Hstride).
      + intros sample Hs. apply Hother. apply in_or_app. now left.
      + exact held_as_float32_zero. }
  exists t. split; [exact Ht |]. split; [exact Hfield |].
  intros Hheld. eapply veq_trans; [exact Hfield |].
  now apply stored_float32.
Qed.

End Field.


(** The same volume, where the closure raises on the empty chunk: the
    exception ends the call. *)
Example small_volume_may_raise :
  distributed_piecewise_exhaustive_translation
    (fun _ => Ok (1, 2, 3)%Q) (Raise IndexError) (fun f _ p => f p)
    (3, 9, 9) Toy.unit_spacing (2, 2, 2) (1, 1, 1) (1, 1, 1) (1, 1, 1)
    0%Q None = Raise IndexError.
Proof. reflexivity. Qed.

(** Eight samples in a volume of nine voxels a side, with an edge limit of
    three and a stride of two: the first plane is out of reach. *)
Lemma field_vanishes_near_border_witness :
  exists dvf,
    distributed_piecewise_exhaustive_translation
      (fun c => Ok (inject_Z (fst (fst c)), inject_Z (snd (fst c)),
                    inject_Z (snd c)))
      (Ok tt) (fun f _ p => f p)
      (9, 9, 9) Toy.unit_spacing (2, 2, 2) (1, 1, 1) (1, 1, 1) (2, 2, 2)
      0%Q None = Ok dvf /\
    dvf (0, 4, 4) = vzero.
Proof.
  eexists. split; [reflexivity |].
  apply (field_vanishes_near_border
           (fun c => Ok (inject_Z (fst (fst c)), inject_Z (snd (fst c)),
                         inject_Z (snd c)))
           (Ok tt) (fun f _ p => f p)
           (9, 9, 9) Toy.unit_spacing (2, 2, 2) (1, 1, 1) (1, 1, 1) (2, 2, 2)
           0%Q None).
  - cbn. lia.
  - cbn. lia.
  - apply Qle_refl.
  - reflexivity.
  - cbn. unfold beyond_reach. lia.
Defined.

(** The same run with translations of two fifths of the coordinates, read
    at its first sample point: what the field holds there is not 6/5 but
    the float32 next to it. *)
Lemma field_interpolates_translations_witness :
  exists dvf,
    distributed_piecewise_exhaustive_translation
      (fun c => Ok (float64 (inject_Z (fst (fst c)) * (2 # 5)),
                    inject_Z (snd (fst c)), inject_Z (snd c)))
      (Ok tt) (fun f _ p => f p)
      (9, 9, 9) Toy.unit_spacing (2, 2, 2) (1, 1, 1) (1, 1, 1) (2, 2, 2)
      0%Q None = Ok dvf /\
    veq (dvf (3, 3, 5)) (float32 (6 # 5), 3, 5)%Q /\
    ~ veq (dvf (3, 3, 5)) (float64 (6 # 5), 3, 5)%Q.
Proof.
  eexists. split; [reflexivity |].
  destruct (field_interpolates_translations
              (fun c => Ok (float64 (inject_Z (fst (fst c)) * (2 # 5)),
                            inject_Z (snd (fst c)), inject_Z (snd c)))
              (Ok tt) (fun f _ p => f p)
              (9, 9, 9) Toy.unit_spacing (2, 2, 2) (1, 1, 1) (1, 1, 1)
              (2, 2, 2) 0%Q None _ _ (3, 3, 5)
              ltac:(cbn; lia) ltac:(cbn; lia) (Qle_refl 0) eq_refl
              ltac:(vm_compute; reflexivity) ltac:(cbn; auto))
    as (t & Ht & Hfield & _).
  injection Ht as <-.
  split.
  - eapply veq_trans; [exact Hfield |]. vm_compute. repeat split.
  - intros Heq.
    assert (Hst : veq (stored (float64 (inject_Z 3 * (2 # 5)), 3, 5)%Q)
                    (float64 (6 # 5), 3, 5)%Q).
    { eapply veq_trans; [| exact Heq].
      destruct Hfield as (A & B & C). repeat split; symmetry; assumption. }
    vm_compute in Hst. destruct Hst as (A & _). discriminate A.
Defined.

End TranslationMore.

(** ** exhaustive_translation: the translation that comes back *)

Module ExhaustiveMore.

Import Numpy Mat AffineAlign Exhaustive.

Lemma unravel_index_bounds (k d0 d1 d2 : Z) :
  0 < d1 -> 0 < d2 -> 0 <= k < d0 * d1 * d2 ->
  let '(i0, i1, i2) := unravel_index k (d0, d1, d2) in
  (0 <= i0 < d0) /\ (0 <= i1 < d1) /\ (0 <= i2 < d2).
Proof.
  intros H1 H2 Hk. cbn [unravel_index].
  split; [| split].
  - split; [apply Z.div_pos; nia |].
    apply Z.div_lt_upper_bound; nia.
  - apply Z.mod_pos_bound. exact H1.
  - apply Z.mod_pos_bound. exact H2.
Qed.

Section Range.

Context `{Sitk}.

Variable run_exhaustive :
  vec3 Z -> vec3 Q -> sitk_image -> sitk_image -> result (nat -> Q).
Variable minimum_filter : list Q -> vec3 Z -> list Q.

Lemma length_keep_peaks (scores : list Q) (shape : vec3 Z) :
  List.length (keep_peaks minimum_filter scores shape) = List.length scores.
Proof. unfold keep_peaks. now rewrite length_map, length_seq. Qed.

(** X20.  What comes back is no translation at all, or a whole number of steps
    per axis that lies inside the searched range, in the axis order of
    [num_steps], scaled by the step size and the voxel spacing. *)
Theorem exhaustive_translation_within_search_range
  (fix_im mov_im : image) (fix_spacing mov_spacing : vec3 Q)
  (num_steps step_sizes : vec3 Z) (fix_origin mov_origin : option (vec3 Q))
  (peak_ratio : Q) (trans : vec3 Q) :
  exhaustive_translation run_exhaustive minimum_filter fix_im mov_im
    fix_spacing mov_spacing num_steps step_sizes fix_origin mov_origin
    peak_ratio = Ok trans ->
  trans = (0%Q, 0%Q, 0%Q) \/
  exists k,
    in_search_range num_steps k /\
    trans = offset_translation k step_sizes fix_spacing.
Proof.
  unfold exhaustive_translation.
  destruct (numpy_to_sitk fix_im fix_spacing fix_origin) as [f |];
    [| discriminate].
  destruct (numpy_to_sitk mov_im mov_spacing mov_origin) as [m |];
    [| discriminate].
  destruct num_steps as [[n0 n1] n2]. cbn [scores_shape].
  destruct ((2 * n2 + 1 <? 0) || (2 * n1 + 1 <? 0) || (2 * n0 + 1 <? 0))
    eqn:Hneg; [discriminate |].
  apply orb_false_iff in Hneg as [Hneg H0].
  apply orb_false_iff in Hneg as [H2 H1].
  apply Z.ltb_ge in H0, H1, H2.
  destruct (run_exhaustive _ _ _ _) as [content |]; [| discriminate].
  set (size := Z.to_nat ((2 * n2 + 1) * (2 * n1 + 1) * (2 * n0 + 1))).
  set (scores := keep_peaks minimum_filter (map content (seq 0 size))
                   (2 * n2 + 1, 2 * n1 + 1, 2 * n0 + 1)).
  destruct (ratio_reached _ _ peak_ratio);
    [| intros Ht; injection Ht as <-; now left].
  assert (Hlen : List.length scores = size).
  { unfold scores. now rewrite length_keep_peaks, length_map, length_seq. }
  assert (Hsize : Z.of_nat size
                  = (2 * n2 + 1) * (2 * n1 + 1) * (2 * n0 + 1)).
  { unfold size. apply Z2Nat.id. nia. }
  assert (Hne : scores <> []).
  { intros Hnil. rewrite Hnil in Hlen. cbn in Hlen. nia. }
  pose proof (RandomSearchMore.argmin_lt scores Hne) as Hmin.
  rewrite Hlen in Hmin.
  pose proof (unravel_index_bounds (Z.of_nat (RandomSearch.argmin scores))
                (2 * n2 + 1) (2 * n1 + 1) (2 * n0 + 1)) as Hu.
  destruct (unravel_index _ _) as [[i0 i1] i2].
  destruct Hu as (B0 & B1 & B2); [lia | lia | lia |].
  intros Ht. injection Ht as <-. right.
  exists (vzip Z.sub (i2, i1, i0) (n0, n1, n2)).
  split; [| reflexivity].
  cbn. lia.
Qed.

End Range.

(** A search over one step each way: 27 scores, the deepest at flat index
    5, which is one step forward along x and one step back along z. *)
Lemma exhaustive_translation_within_search_range_witness :
  exists trans,
    @exhaustive_translation Toy.toy_sitk
      (fun _ _ _ _ => Ok (fun i => if Nat.eqb i 5 then (- (9))%Q
                                   else (- (1))%Q))
      (fun scores _ => scores)
      (Toy.cube 2 [3; 1; 4; 1]%Q) (Toy.cube 2 [1; 5; 9; 2]%Q)
      Toy.unit_spacing Toy.unit_spacing (1, 1, 1) (2, 2, 2) None None
      (6 # 5) = Ok trans /\
    (trans = (0%Q, 0%Q, 0%Q) \/
     exists k,
       in_search_range (1, 1, 1) k /\
       trans = offset_translation k (2, 2, 2) Toy.unit_spacing).
Proof.
  eexists. split; [vm_compute; reflexivity |].
  apply (@exhaustive_translation_within_search_range Toy.toy_sitk
           (fun _ _ _ _ => Ok (fun i => if Nat.eqb i 5 then (- (9))%Q
                                        else (- (1))%Q))
           (fun scores _ => scores)
           (Toy.cube 2 [3; 1; 4; 1]%Q) (Toy.cube 2 [1; 5; 9; 2]%Q)
           Toy.unit_spacing Toy.unit_spacing (1, 1, 1) (2, 2, 2) None None
           (6 # 5)).
  vm_compute. reflexivity.
Defined.

End ExhaustiveMore.

(** ** utility: conversions between matrices and ITK transforms *)

Module UtilityMore.

Import Mat Utility.

Ltac four_entries r H :=
  destruct r as [| ? [| ? [| ? [| ? [| ? ?]]]]];
  cbn [List.length] in H; try discriminate H.

(** A 4x4 matrix, entry by entry. *)
Lemma is_4x4_entries (m : mat) :
  is_4x4 m ->
  exists a00 a01 a02 a03 a10 a11 a12 a13 a20 a21 a22 a23 a30 a31 a32 a33,
    m = [[a00; a01; a02; a03]; [a10; a11; a12; a13];
         [a20; a21; a22; a23]; [a30; a31; a32; a33]].
Proof.
  intros [Hlen Hrows].
  four_entries m Hlen.
  inversion Hrows as [| ? ? R0 Hrows1]; subst.
  inversion Hrows1 as [| ? ? R1 Hrows2]; subst.
  inversion Hrows2 as [| ? ? R2 Hrows3]; subst.
  inversion Hrows3 as [| ? ? R3 _]; subst.
  four_entries l R0. four_entries l0 R1. four_entries l1 R2.
  four_entries l2 R3.
  repeat eexists.
Qed.

(** X21.  A matrix handed to ITK and read back is the matrix that went in,
    provided it is affine: the last row, which ITK does not hold, comes
    back as (0, 0, 0, 1). *)
Theorem matrix_survives_round_trip (matrix : mat) :
  is_4x4 matrix ->
  affine_row matrix ->
  mat_eq (affine_transform_to_matrix (matrix_to_affine_transform matrix))
    matrix.
Proof.
  intros H4 Hrow.
  destruct (is_4x4_entries matrix H4)
    as (a00 & a01 & a02 & a03 & a10 & a11 & a12 & a13 &
        a20 & a21 & a22 & a23 & a30 & a31 & a32 & a33 & ->).
  unfold affine_row in Hrow. cbn [nth] in Hrow.
  change (affine_transform_to_matrix
            (matrix_to_affine_transform
               [[a00; a01; a02; a03]; [a10; a11; a12; a13];
                [a20; a21; a22; a23]; [a30; a31; a32; a33]]))
    with [[a00; a01; a02; a03]; [a10; a11; a12; a13];
          [a20; a21; a22; a23]; [0; 0; 0; 1]]%Q.
  unfold mat_eq.
  repeat (constructor; [repeat constructor; reflexivity |]).
  inversion Hrow as [| ? ? ? ? E0 Hrow1]; subst.
  inversion Hrow1 as [| ? ? ? ? E1 Hrow2]; subst.
  inversion Hrow2 as [| ? ? ? ? E2 Hrow3]; subst.
  inversion Hrow3 as [| ? ? ? ? E3 _]; subst.
  repeat constructor; symmetry; assumption.
Qed.

(** X22.  An ITK transform turned into a matrix and back has the matrix entries
    and the translation it had. *)
Theorem transform_survives_round_trip (t : affine_transform) :
  List.length (GetMatrix t) = 9%nat ->
  List.length (GetTranslation t) = 3%nat ->
  matrix_to_affine_transform (affine_transform_to_matrix t) = t.
Proof.
  destruct t as [m tr]. cbn [GetMatrix GetTranslation].
  intros Hm Ht.
  destruct m as [| m0 [| m1 [| m2 [| m3 [| m4 [| m5 [| m6 [| m7 [| m8
                  [| ? ?]]]]]]]]]]; try discriminate Hm.
  destruct tr as [| t0 [| t1 [| t2 [| ? ?]]]]; try discriminate Ht.
  reflexivity.
Qed.

(** X23.  Swapping the axis order goes along with composition: the product of two
    matrices, swapped, is the product of the swapped matrices, when the
    second is affine. *)
Theorem invert_matrix_axes_of_product (a b : mat) :
  is_4x4 a -> is_4x4 b -> affine_row b ->
  mat_eq (invert_matrix_axes (matmul a b))
    (matmul (invert_matrix_axes a) (invert_matrix_axes b)).
Proof.
  intros Ha Hb Hrow.
  destruct (is_4x4_entries a Ha)
    as (a00 & a01 & a02 & a03 & a10 & a11 & a12 & a13 &
        a20 & a21 & a22 & a23 & a30 & a31 & a32 & a33 & ->).
  destruct (is_4x4_entries b Hb)
    as (b00 & b01 & b02 & b03 & b10 & b11 & b12 & b13 &
        b20 & b21 & b22 & b23 & b30 & b31 & b32 & b33 & ->).
  unfold affine_row in Hrow. cbn [nth] in Hrow.
  inversion Hrow as [| ? ? ? ? E0 Hrow1]; subst.
  inversion Hrow1 as [| ? ? ? ? E1 Hrow2]; subst.
  inversion Hrow2 as [| ? ? ? ? E2 Hrow3]; subst.
  inversion Hrow3 as [| ? ? ? ? E3 _]; subst.
  cbv [invert_matrix_axes flipped_block last_column set_block3
       set_translation set_last removelast eye matmul ncols col dot
       RandomSearch.vec3_of rev firstn skipn map seq nth combine fold_right
       fst snd app Nat.eqb List.length last repeat Nat.sub mat_eq].
  repeat constructor; rewrite ?E0, ?E1, ?E2, ?E3; ring.
Qed.

(** The matrix of a quarter turn with a shift, read back from ITK. *)
Lemma matrix_survives_round_trip_witness :
  mat_eq
    (affine_transform_to_matrix
       (matrix_to_affine_transform
          [[0; - (1); 0; 5]; [1; 0; 0; 6]; [0; 0; 1; 7]; [0; 0; 0; 1]]%Q))
    [[0; - (1); 0; 5]; [1; 0; 0; 6]; [0; 0; 1; 7]; [0; 0; 0; 1]]%Q.
Proof.
  apply matrix_survives_round_trip.
  - split; [reflexivity | repeat constructor].
  - repeat constructor; reflexivity.
Defined.

Lemma transform_survives_round_trip_witness :
  matrix_to_affine_transform
    (affine_transform_to_matrix
       {| GetMatrix := [1; 2; 3; 4; 5; 6; 7; 8; 9]%Q;
          GetTranslation := [10; 11; 12]%Q |}) =
  {| GetMatrix := [1; 2; 3; 4; 5; 6; 7; 8; 9]%Q;
     GetTranslation := [10; 11; 12]%Q |}.
Proof.
  apply transform_survives_round_trip; reflexivity.
Defined.

(** A scaling followed by a shift. *)
Lemma invert_matrix_axes_of_product_witness :
  mat_eq
    (invert_matrix_axes
       (matmul [[2; 0; 0; 0]; [0; 3; 0; 0]; [0; 0; 4; 0]; [0; 0; 0; 1]]%Q
               [[1; 0; 0; 5]; [0; 1; 0; 6]; [0; 0; 1; 7]; [0; 0; 0; 1]]%Q))
    (matmul
       (invert_matrix_axes
          [[2; 0; 0; 0]; [0; 3; 0; 0]; [0; 0; 4; 0]; [0; 0; 0; 1]]%Q)
       (invert_matrix_axes
          [[1; 0; 0; 5]; [0; 1; 0; 6]; [0; 0; 1; 7]; [0; 0; 0; 1]]%Q)).
Proof.
  apply invert_matrix_axes_of_product.
  - split; [reflexivity | repeat constructor].
  - split; [reflexivity | repeat constructor].
  - repeat constructor; reflexivity.
Defined.

End UtilityMore.
